(** * WarmachineTTS: the two asset scripts, embedded and verified

    The repository holds two independent batch scripts.

    - The square/thumbnail normaliser ([src/Assets/Table/Trim.py]):
      [iter_images], [centre_crop_square], [maybe_resize_square],
      [make_thumbnail], [save_image] and its [main].  It is embedded in
      [Module Squarer].
    - The fuzzy image matcher ([src/Image.py]): [normalise], [score],
      [safe_filename] and its [main].  It is embedded in [Module Matcher].

    Python integers are [Z]; a [str] is a [string] whose characters are
    read as the code points 0..255; a [pathlib.Path] is the list of its
    parts; the file system is a finite map from resolved paths to nodes.
    Pillow, thefuzz, pandas and the operating system are not part of the
    repository: what the scripts need from them is a [Variable] of the
    section that embeds the script. *)

From Stdlib Require Import ZArith Lia Bool Ascii String List Permutation Sorted.
From stdpp Require Import base option list gmap strings.
Import ListNotations.

(** ** Paths and characters shared by both scripts *)

(** A [pathlib.Path], as the list of its parts ([Path.parts]). *)
Definition Path : Type := list string.

(** [p / child] *)
Definition joinpath (p : Path) (child : string) : Path := p ++ [child].

(** [p.name]: the last part, empty for the empty path. *)
Definition path_name (p : Path) : string := List.last p EmptyString.

Definition chars (s : string) : list ascii := list_ascii_of_string s.
Definition text (l : list ascii) : string := string_of_list_ascii l.

Definition is_dot (c : ascii) : bool := Ascii.eqb c "."%char.

(** Splitting a list at the first element that fails [p]
    (the pair of [itertools.takewhile] and [dropwhile]). *)
Fixpoint span {A} (p : A -> bool) (l : list A) : list A * list A :=
  match l with
  | [] => ([], [])
  | x :: l' =>
      if p x then let '(a, b) := span p l' in (x :: a, b) else ([], l)
  end.

(** [PurePath.stem] and [PurePath.suffix] of a file name, as pathlib
    has them up to Python 3.13: with [i = name.rfind('.')], the suffix is
    [name[i:]] when [0 < i < len(name) - 1] and empty otherwise.  The name
    is scanned from
    its end: [ext] is what follows the last dot, and [b :: before] what
    precedes it, both reversed and neither of them empty. *)
Definition split_ext (name : string) : string * string :=
  let '(ext, rest) := span (fun c => negb (is_dot c)) (rev (chars name)) in
  match rest, ext with
  | _ :: b :: before, _ :: _ =>
      (text (rev (b :: before)), text ("."%char :: rev ext))
  | _, _ => (name, EmptyString)
  end.

Definition stem (name : string) : string := fst (split_ext name).
Definition suffix (name : string) : string := snd (split_ext name).

(** [str.lower()] on the code points 0..255: A-Z and the Latin-1 capitals
    U+00C0..U+00DE (except the multiplication sign U+00D7) move up by 32. *)
Definition lower_char (c : ascii) : ascii :=
  let n := nat_of_ascii c in
  if (65 <=? n)%nat && (n <=? 90)%nat then ascii_of_nat (n + 32)
  else if (192 <=? n)%nat && (n <=? 222)%nat && negb (n =? 215)%nat
       then ascii_of_nat (n + 32)
  else c.

Definition lower (s : string) : string := text (map lower_char (chars s)).

(** [p.with_suffix(sfx)]: the suffix of the last part is replaced. *)
Definition with_suffix (p : Path) (sfx : string) : Path :=
  match rev p with
  | [] => []
  | n :: up => rev up ++ [(stem n ++ sfx)%string]
  end.

(** [p.relative_to(root)] for a path found under [root]. *)
Definition relative_to (p root : Path) : Path := drop (length root) p.

(** An exception, by the name of its class. *)
Definition exn : Type := string.

Inductive result (A : Type) : Type :=
| Ok (a : A)
| Raise (e : exn).
Arguments Ok {A} a.
Arguments Raise {A} e.

(** ** Pipeline A: the square/thumbnail normaliser *)

Module Squarer.

Local Open Scope Z_scope.

Definition SUPPORTED_EXTS : list string :=
  [".png"; ".jpg"; ".jpeg"; ".webp"; ".bmp"; ".gif"; ".tif"; ".tiff"]%string.

(** A pixel value: its bands, as many as the image mode has. *)
Definition colour : Type := list Z.

(** A [PIL.Image.Image]: its [size], its [mode] and its pixel data. *)
Record image : Type := Image {
  width : Z;
  height : Z;
  mode : string;
  pixel : Z -> Z -> colour
}.

Definition size (img : image) : Z * Z := (width img, height img).

(** [img.crop((left, top, right, bottom))]: the region whose top-left
    corner is [(left, top)]. *)
Definition crop (img : image) (box : Z * Z * Z * Z) : image :=
  let '(x0, y0, x1, y1) := box in
  {| width := x1 - x0;
     height := y1 - y0;
     mode := mode img;
     pixel := fun x y => pixel img (x + x0) (y + y0) |}.

(** What the script takes from Pillow and from the operating system. *)
Class Host : Type := {
  (** the pixel data [img.resize((w, h), resample=LANCZOS)] gives at a
      new size: the Lanczos resampling of the image, which Pillow
      replaces by the nearest pixel on palette and bilevel images *)
  lanczos : image -> Z -> Z -> Z -> Z -> colour;
  (** [t = img.copy()] after [t.thumbnail((n, n), resample=LANCZOS)], or
      the exception [Image.thumbnail] raises, as it does for sizes it
      cannot work with *)
  thumbnail : image -> Z -> result image;
  (** [Image.open] followed by [ImageOps.exif_transpose], decoding
      included: the image, or the exception raised *)
  exif_open : Path -> result image;
  (** pasting onto a black RGB background through the alpha band *)
  flatten_on_black : image -> image;
  (** [img.convert("RGB")] *)
  convert_rgb : image -> image;
  (** the exception [mkdir], the flattening or [img.save] raises for a
      path and an image, if any *)
  save_error : Path -> image -> option exn;
  is_dir : Path -> bool;
  is_file : Path -> bool;
  (** [root.rglob("*")] and [root.glob("*")], in the order they yield *)
  rglob : Path -> list Path;
  glob : Path -> list Path;
  (** [Path(s)]: the parts pathlib reads from a string, and [str(p)]: the
      text of a path.  Both follow the rules of the platform; [Path(s)]
      drops, for one, a trailing separator. *)
  to_path : string -> Path;
  path_str : Path -> string;
}.

Section Script.
Context {host : Host}.

Definition iter_images (root : Path) (recursive : bool) : list Path :=
  List.filter
    (fun p => is_file p
              && bool_decide (lower (suffix (path_name p)) ∈ SUPPORTED_EXTS))
    (if recursive then rglob root else glob root).

(** [img.resize((w, h), resample=LANCZOS)]: Pillow refuses a size with a
    side below 1 with a [ValueError]. *)
Definition resize (img : image) (w h : Z) : result image :=
  if (w <? 1) || (h <? 1) then Raise "ValueError"
  else Ok {| width := w; height := h; mode := mode img;
             pixel := lanczos img w h |}.

Definition centre_crop_square (img : image) : image :=
  let '(w, h) := size img in
  if w =? h then img
  else
    let side := Z.min w h in
    let left := (w - side) / 2 in
    let top := (h - side) / 2 in
    crop img (left, top, left + side, top + side).

(** [if not max_size: return img] returns for [None] and for [0], the
    two falsy values of an [Optional[int]]. *)
Definition maybe_resize_square (img : image) (max_size : option Z)
  : result image :=
  match max_size with
  | None => Ok img
  | Some m =>
      if m =? 0 then Ok img
      else
        let '(w, h) := size img in
        if (w <=? m) && (h <=? m) then Ok img
        else resize img m m
  end.

Definition make_thumbnail (img : image) (thumb_size : Z) : result image :=
  thumbnail img thumb_size.

(** What [save_image] hands to [img.save]: the image after the flattening
    its target format asks for.  The keyword arguments only tune the
    encoder. *)
Definition prepare (out_path : Path) (img : image) : image :=
  let ext := lower (suffix (path_name out_path)) in
  if bool_decide (ext ∈ [".jpg"; ".jpeg"]%string) then
    if bool_decide (mode img ∈ ["RGBA"; "LA"]%string) then flatten_on_black img
    else if bool_decide (mode img ≠ "RGB"%string) then convert_rgb img
    else img
  else img.

(** The files written so far, oldest first. *)
Definition disk : Type := list (Path * image).

Definition save_image (out_path : Path) (img : image) (d : disk)
  : result unit * disk :=
  match save_error out_path img with
  | Some e => (Raise e, d)
  | None => (Ok tt, d ++ [(out_path, prepare out_path img)])
  end.

(** The parsed command line. *)
Record Args : Type := {
  folder : string;
  out : option string;
  inplace : bool;
  no_recursive : bool;
  max_size : option Z;
  thumb_size : Z;
  thumb_format : string;
  dry_run : bool
}.

(** The square part of a dry-run line. *)
Inductive square_note : Type :=
| SquareChange (w h w' h' : Z)
| SquareSkip.

(** The lines the script prints, by their variable parts. *)
Inductive line : Type :=
| FolderNotFound (in_dir : Path)
| EitherInplaceOrOut
| DryRunLine (rel : Path) (sq : square_note) (thumb_w thumb_h : Z)
| FailedLine (rel : Path) (e : exn)
| DoneLine (changed skipped failed : nat)
| SquareRootLine (square_root : Path)
| ThumbsRootLine (thumbs_root : Path).

Record state : Type := {
  changed : nat;
  skipped : nat;
  failed : nat;
  stdout : list line;
  written : disk
}.

Definition print (l : line) (st : state) : state :=
  {| changed := changed st; skipped := skipped st; failed := failed st;
     stdout := stdout st ++ [l]; written := written st |}.

Definition count_changed (st : state) : state :=
  {| changed := S (changed st); skipped := skipped st; failed := failed st;
     stdout := stdout st; written := written st |}.

Definition count_skipped (st : state) : state :=
  {| changed := changed st; skipped := S (skipped st); failed := failed st;
     stdout := stdout st; written := written st |}.

Definition count_failed (st : state) : state :=
  {| changed := changed st; skipped := skipped st; failed := S (failed st);
     stdout := stdout st; written := written st |}.

Definition save (out_path : Path) (img : image) (st : state)
  : result unit * state :=
  let '(r, d) := save_image out_path img (written st) in
  (r, {| changed := changed st; skipped := skipped st; failed := failed st;
         stdout := stdout st; written := d |}).

(** [python truthiness] of an optional string: [None] and [""] are falsy. *)
Definition truthy (o : option string) : bool :=
  match o with
  | Some s => negb (String.eqb s "")
  | None => false
  end.

(** The square output path and the thumbnail output path of a source
    file, the latter mirroring [rel] under [THUMBS]. *)
Definition square_path_of (args : Args) (square_root src rel : Path) : Path :=
  if negb (inplace args) then square_root ++ rel else src.

Definition thumb_path_of (args : Args) (square_root thumbs_root src rel : Path)
  : Path :=
  let thumb_suffix :=
    if String.eqb (thumb_format args) "same"
    then suffix (path_name (square_path_of args square_root src rel))
    else ("." ++ thumb_format args)%string in
  with_suffix (thumbs_root ++ rel) thumb_suffix.

(** Whether the square output has to be written: the picture was not
    square, or a configured maximum changed its width. *)
Definition need_square_write (max_size : option Z) (w h : Z) (sq : image)
  : bool :=
  negb (w =? h)
  || (bool_decide (max_size <> None) && negb (fst (size sq) =? w)).

(** The [try] block of the loop body, for one source file.  The crop,
    the downscale and the thumbnail come before the dry-run branch, so
    what they raise is raised in dry-run mode too. *)
Definition try_file (args : Args) (square_root thumbs_root : Path)
    (src rel : Path) (st : state) : result unit * state :=
  match exif_open src with
  | Raise e => (Raise e, st)
  | Ok im =>
      let '(w, h) := size im in
      let sq := centre_crop_square im in
      match maybe_resize_square sq (max_size args) with
      | Raise e => (Raise e, st)
      | Ok sq =>
          let need_square_write :=
            need_square_write (max_size args) w h sq in
          let square_path := square_path_of args square_root src rel in
          let thumb_path :=
            thumb_path_of args square_root thumbs_root src rel in
          match make_thumbnail sq (thumb_size args) with
          | Raise e => (Raise e, st)
          | Ok thumb_img =>
              if dry_run args then
                let note :=
                  if need_square_write
                  then SquareChange w h (fst (size sq)) (snd (size sq))
                  else SquareSkip in
                (Ok tt,
                 count_changed
                   (print (DryRunLine rel note (fst (size thumb_img))
                                      (snd (size thumb_img)))
                          st))
              else
                let '(r, st1) :=
                  if need_square_write then
                    match save square_path sq st with
                    | (Ok _, st') => (Ok tt, count_changed st')
                    | (Raise e, st') => (Raise e, st')
                    end
                  else (Ok tt, count_skipped st) in
                match r with
                | Raise e => (Raise e, st1)
                | Ok _ => save thumb_path thumb_img st1
                end
          end
      end
  end.

(** One turn of the loop: the [try] block and its [except Exception]. *)
Definition loop_body (args : Args) (in_dir square_root thumbs_root : Path)
    (st : state) (src : Path) : state :=
  let rel := relative_to src in_dir in
  match try_file args square_root thumbs_root src rel st with
  | (Ok _, st') => st'
  | (Raise e, st') => print (FailedLine rel e) (count_failed st')
  end.

Definition initial : state :=
  {| changed := 0; skipped := 0; failed := 0; stdout := []; written := [] |}.

(** [in_dir = Path(args.folder)] *)
Definition in_dir_of (args : Args) : Path := to_path (folder args).

(** Destination for square outputs: [Path(args.out)], or the text of
    [in_dir], as pathlib prints it, followed by [" (square)"]. *)
Definition square_root_of (args : Args) : Path :=
  if inplace args then in_dir_of args
  else if truthy (out args) then to_path (default EmptyString (out args))
  else to_path (path_str (in_dir_of args) ++ " (square)")%string.

(** The thumbs folder sits under the square root. *)
Definition thumbs_root_of (args : Args) : Path :=
  joinpath (square_root_of args) "THUMBS".

(** [main]: the exit code, with what was printed and written.
    [in_dir.exists() and in_dir.is_dir()] is [in_dir.is_dir()]. *)
Definition main (args : Args) : Z * state :=
  let in_dir := in_dir_of args in
  if negb (is_dir in_dir) then (2, print (FolderNotFound in_dir) initial)
  else
    let recursive := negb (no_recursive args) in
    if inplace args && truthy (out args) then (2, print EitherInplaceOrOut initial)
    else
      let square_root := square_root_of args in
      let thumbs_root := thumbs_root_of args in
      let st :=
        fold_left (loop_body args in_dir square_root thumbs_root)
                  (iter_images in_dir recursive) initial in
      let st := print (DoneLine (changed st) (skipped st) (failed st)) st in
      let st :=
        if negb (dry_run args)
        then print (ThumbsRootLine thumbs_root) (print (SquareRootLine square_root) st)
        else st in
      (if (failed st =? 0)%nat then 0 else 1, st).

(** Whether the [try] block raises for a source file.  What it raises
    does not depend on the counters or on what was written before. *)
Definition raises (args : Args) (src : Path) : bool :=
  match try_file args (square_root_of args) (thumbs_root_of args) src
                 (relative_to src (in_dir_of args)) initial with
  | (Raise _, _) => true
  | (Ok _, _) => false
  end.

Definition bump (b : bool) : nat := if b then 1%nat else 0%nat.

(** What the [try] block computes for a source file before it prints or
    saves anything: the opened picture, its square and its thumbnail, or
    the first exception on the way. *)
Definition process (args : Args) (src : Path)
  : result (image * image * image) :=
  match exif_open src with
  | Raise e => Raise e
  | Ok im =>
      match maybe_resize_square (centre_crop_square im) (max_size args) with
      | Raise e => Raise e
      | Ok sq =>
          match make_thumbnail sq (thumb_size args) with
          | Raise e => Raise e
          | Ok thumb_img => Ok (im, sq, thumb_img)
          end
      end
  end.

(** Whether a real run fails on a file that was processed: in saving the
    square output, when one is due, or in saving the thumbnail. *)
Definition save_fails (args : Args) (src : Path) (im sq thumb_img : image)
  : bool :=
  let rel := relative_to src (in_dir_of args) in
  let square_path := square_path_of args (square_root_of args) src rel in
  let thumb_path :=
    thumb_path_of args (square_root_of args) (thumbs_root_of args) src rel in
  (need_square_write (max_size args) (width im) (height im) sq
   && bool_decide (save_error square_path sq <> None))
  || bool_decide (save_error thumb_path thumb_img <> None).

(** The command line with its [--dry-run] flag set or cleared. *)
Definition with_dry_run (b : bool) (args : Args) : Args :=
  {| folder := folder args; out := out args; inplace := inplace args;
     no_recursive := no_recursive args; max_size := max_size args;
     thumb_size := thumb_size args; thumb_format := thumb_format args;
     dry_run := b |}.

Definition is_raise {A} (r : result A) : bool :=
  match r with
  | Raise _ => true
  | Ok _ => false
  end.

(** The loop of [main] over a list of source files. *)
Definition run_files (args : Args) (files : list Path) (st : state) : state :=
  fold_left (loop_body args (in_dir_of args) (square_root_of args)
                       (thumbs_root_of args)) files st.

End Script.

(** The text of a folder name without its trailing separators. *)
Definition drop_trailing_slashes (s : string) : string :=
  text (rev (snd (span (fun c => Ascii.eqb c "/"%char) (rev (chars s))))).

(** A host for the examples: every image on it decodes to a 100x60 RGB
    picture except [broken.png], resampling picks the nearest pixel, a
    thumbnail of a square picture is the picture itself when it fits and
    has the asked side otherwise, the side 0 ending in a division by
    zero and a negative side being refused, and the
    input folder holds a picture and, in a subfolder that only the
    recursive walk reaches, a broken file.  A path read from a string is
    one part, the string without its trailing separators. *)
Definition sample_host : Host :=
  {| lanczos := fun img w h x y =>
       pixel img (x * width img / w) (y * height img / h);
     thumbnail := fun img t =>
       if t =? 0 then Raise "ZeroDivisionError"%string
       else if t <? 0 then Raise "ValueError"%string
       else if (t <? width img) || (t <? height img)
            then Ok {| width := t; height := t; mode := mode img;
                       pixel := fun x y =>
                         pixel img (x * width img / t) (y * height img / t) |}
            else Ok img;
     exif_open := fun p =>
       if String.eqb (path_name p) "broken.png"
       then Raise "UnidentifiedImageError"%string
       else Ok (Image 100 60 "RGB" (fun x y => [x; y]));
     flatten_on_black := fun img => img;
     convert_rgb := fun img => img;
     save_error := fun _ _ => None;
     is_dir := fun p => bool_decide (p = ["Top Images"%string]);
     is_file := fun _ => true;
     rglob := fun root =>
       [root ++ ["a.png"%string]; root ++ ["old"%string; "broken.png"%string]];
     glob := fun root => [root ++ ["a.png"%string]];
     to_path := fun s => [drop_trailing_slashes s];
     path_str := fun p => String.concat "/"%string p |}.

Definition sample_args : Args :=
  {| folder := "Top Images"; out := None; inplace := false;
     no_recursive := false; max_size := Some 50; thumb_size := 256;
     thumb_format := "same"; dry_run := false |}.

Definition sample_dry_args : Args :=
  {| folder := "Top Images"; out := None; inplace := false;
     no_recursive := false; max_size := Some 50; thumb_size := 256;
     thumb_format := "same"; dry_run := true |}.

End Squarer.

(** ** Pipeline B: the fuzzy image matcher *)

Module Matcher.

Local Open Scope Z_scope.

(** *** Character classes of the regular expressions *)

Definition code (c : ascii) : nat := nat_of_ascii c.

(** [\s] on a [str] pattern: the code points [str.isspace] accepts. *)
Definition is_space (c : ascii) : bool :=
  let n := code c in
  ((9 <=? n) && (n <=? 13) || (28 <=? n) && (n <=? 32)
   || (n =? 133) || (n =? 160))%nat.

(** [\d] *)
Definition is_digit (c : ascii) : bool :=
  let n := code c in ((48 <=? n) && (n <=? 57))%nat.

(** [[a-z]] *)
Definition is_az (c : ascii) : bool :=
  let n := code c in ((97 <=? n) && (n <=? 122))%nat.

(** [[_\-]] *)
Definition is_joiner (c : ascii) : bool :=
  Ascii.eqb c "_" || Ascii.eqb c "-".

(** [[\s_\-]] *)
Definition is_sep (c : ascii) : bool := is_space c || is_joiner c.

(** The class [safe_filename] deletes: backslash, slash, star, question
    mark, colon, double quote, the angle brackets and the bar. *)
Definition is_illegal (c : ascii) : bool :=
  let n := code c in
  ((n =? 92) || (n =? 47) || (n =? 42) || (n =? 63) || (n =? 58)
   || (n =? 34) || (n =? 60) || (n =? 62) || (n =? 124))%nat.

Definition newline : ascii := "010"%char.
Definition blank : ascii := " "%char.

(** *** The substitutions of [normalise] and [safe_filename]

    The two anchored patterns are matched on the reversed text.  [$]
    matches at the end of the text and also just before a newline that
    ends it, so such a newline is set aside first and put back after. *)

Definition final_newline (r : list ascii) : list ascii * list ascii :=
  match r with
  | c :: r' => if Ascii.eqb c newline then ([c], r') else ([], r)
  | [] => ([], [])
  end.

(** [re.sub(r'\.[a-z]{2,4}$', '', t)]: the letters before the anchor are
    the whole run of [a-z] that ends the text; it must be 2 to 4 long and
    follow a dot. *)
Definition strip_extension (t : list ascii) : list ascii :=
  let '(nl, body) := final_newline (rev t) in
  let '(letters, rest) := span is_az body in
  match rest with
  | c :: before =>
      if is_dot c && (2 <=? length letters)%nat && (length letters <=? 4)%nat
      then rev before ++ nl
      else t
  | [] => t
  end.

(** [re.sub(r'[\s_\-]*\d+$', '', t)]: the leftmost match takes the whole
    run of digits that ends the text and the whole run of separators
    before it. *)
Definition strip_number (t : list ascii) : list ascii :=
  let '(nl, body) := final_newline (rev t) in
  let '(digits, rest) := span is_digit body in
  match digits with
  | [] => t
  | _ :: _ => rev (snd (span is_sep rest)) ++ nl
  end.

(** [re.sub(p+, ' ', t)] for a character class [p]: every maximal run of
    [p] becomes one blank.  [in_run] tells that the previous character
    was in the class. *)
Fixpoint sub_runs (p : ascii -> bool) (in_run : bool) (t : list ascii)
  : list ascii :=
  match t with
  | [] => []
  | c :: t' =>
      if p c then
        if in_run then sub_runs p true t' else blank :: sub_runs p true t'
      else c :: sub_runs p false t'
  end.

Definition lstrip (t : list ascii) : list ascii := snd (span is_space t).

(** [str.strip()] *)
Definition strip (t : list ascii) : list ascii :=
  rev (lstrip (rev (lstrip t))).

Definition normalise_chars (t : list ascii) : list ascii :=
  let t := map lower_char t in
  let t := strip_extension t in
  let t := strip_number t in
  let t := sub_runs is_joiner false t in
  strip (sub_runs is_space false t).

Definition normalise (s : string) : string := text (normalise_chars (chars s)).

Definition safe_filename (name : string) : string :=
  let t := List.filter (fun c => negb (is_illegal c)) (chars name) in
  text (strip (sub_runs is_space false t)).

(** The two endings [normalise] removes, as tests on a text: a dot with
    2 to 4 letters [a-z] after it, and a digit. *)
Definition ends_with_extension (t : list ascii) : bool :=
  let '(letters, rest) := span is_az (rev t) in
  match rest with
  | c :: _ => is_dot c && (2 <=? length letters)%nat && (length letters <=? 4)%nat
  | [] => false
  end.

Definition ends_with_digit (t : list ascii) : bool :=
  match rev t with
  | c :: _ => is_digit c
  | [] => false
  end.

(** The right half of [strip], from the front of the text. *)
Definition rstrip (t : list ascii) : list ascii :=
  fold_right
    (fun c acc =>
       match acc with
       | [] => if is_space c then [] else [c]
       | _ :: _ => c :: acc
       end)
    [] t.

(** Every white space of the text is one blank standing alone;
    [after_space] tells that the text follows a white space. *)
Fixpoint single_spaced (after_space : bool) (t : list ascii) : bool :=
  match t with
  | [] => true
  | c :: t' =>
      if is_space c
      then Ascii.eqb c blank && negb after_space && single_spaced true t'
      else single_spaced false t'
  end.

(** The shape of every text [normalise] returns. *)
Definition normal (t : list ascii) : Prop :=
  Forall (fun c => lower_char c = c) t /\
  Forall (fun c => is_joiner c = false) t /\
  single_spaced false t = true /\
  lstrip t = t /\
  rstrip t = t.

(** *** Scoring *)

(** The four metrics of [thefuzz.fuzz] the script calls. *)
Class Fuzz : Type := {
  ratio : string -> string -> Z;
  partial_ratio : string -> string -> Z;
  token_sort_ratio : string -> string -> Z;
  token_set_ratio : string -> string -> Z
}.

(** [max] of a list literal, given as its first element and the rest. *)
Definition max_of (x : Z) (xs : list Z) : Z := fold_left Z.max xs x.

Definition score {fuzz : Fuzz} (excel_norm file_norm excel_raw file_raw : string) : Z :=
  max_of (ratio excel_norm file_norm)
         [partial_ratio excel_norm file_norm;
          token_sort_ratio excel_norm file_norm;
          token_set_ratio excel_norm file_norm;
          ratio (lower excel_raw) (lower file_raw)].

(** Every metric of the library lies between 0 and 100. *)
Definition metrics_in_range {fuzz : Fuzz} : Prop :=
  forall a b,
    0 <= ratio a b <= 100 /\ 0 <= partial_ratio a b <= 100 /\
    0 <= token_sort_ratio a b <= 100 /\ 0 <= token_set_ratio a b <= 100.

(** *** Configuration *)

Record Config : Type := {
  EXCEL_FILE : string;
  IMAGE_DIR : string;
  OUTPUT_DIR : string;
  REPORT_FILE : string;
  DRY_RUN : bool;
  MIN_SCORE : Z
}.

(** The constants as the source sets them. *)
Definition source_config : Config :=
  {| EXCEL_FILE := "warmachine_units.xlsx";
     IMAGE_DIR := "ModelArtOld";
     OUTPUT_DIR := "ModelArt";
     REPORT_FILE := "image_match_report.csv";
     DRY_RUN := false;
     MIN_SCORE := 60 |}.

(** *** The file system and the report *)

Inductive node : Type :=
| File (data : list Byte.byte)
| Directory.

Inductive action : Type :=
| COPIED | DRY_RUN_COPY | SKIPPED_EXISTS | ALREADY_CORRECT | NO_MATCH.

#[global] Instance action_eq_dec : EqDecision action.
Proof. solve_decision. Defined.

(** The message of a row, by its variable parts. *)
Inductive message : Type :=
| BelowThreshold (best_name : string) (best_score threshold : Z)
| AlreadyMatches
| TargetExists (target_name best_name : string) (best_score : Z)
| CopyArrow (best_name target_name : string) (best_score : Z).

(** A row of the report, one field per column. *)
Record report_row : Type := {
  Model_Name : string;
  Action : action;
  Source_File : string;
  Target_File : string;
  Score : Z;
  Top_3_Candidates : list (string * Z);
  Message : message
}.

(** A write the script asks of the file system. *)
Inductive write_op : Type :=
| Mkdir (p : Path)
| Copy (src dst : Path)
| Truncate (p : Path)
| WriteReport (p : Path) (rows : list report_row).

(** The lines the script prints, by their variable parts. *)
Inductive line : Type :=
| ExcelNotFound (p : Path)
| ImageDirNotFound (p : Path)
| NoNameColumn
| Loaded (n : nat) (excel_name : string)
| Found (n : nat) (image_dir : Path)
| NoImages
| Progress (status_icon : string) (model_name : string) (msg : message)
| DryRunBanner
| Summary (copied already_exists skipped no_match total : nat)
| ReportSaved (report_file : string)
| Tip (no_match : nat) (threshold : Z).

(** What the script takes from pandas, the csv module and the operating
    system. *)
Class Host : Type := {
  (** [p.resolve()] *)
  resolve : Path -> Path;
  (** [p.iterdir()], in the order the directory yields its entries *)
  iterdir : Path -> list Path;
  (** [pd.read_excel(p)], for a workbook pandas reads: the [Name] column
      if the sheet has one, an empty cell being [None] *)
  read_excel : Path -> option (list (option string));
  (** the bytes [csv.DictWriter] writes for the rows *)
  csv_bytes : list report_row -> list Byte.byte
}.

(** The world a run acts on: the file system by resolved path, the
    writes asked of it and the lines printed, oldest first. *)
Record world : Type := {
  fs : gmap Path node;
  writes : list write_op;
  stdout : list line
}.

Definition print (l : line) (w : world) : world :=
  {| fs := fs w; writes := writes w; stdout := stdout w ++ [l] |}.

Section Script.
Context {fuzz : Fuzz} {host : Host}.

(** [p.exists()] *)
Definition path_exists (w : world) (p : Path) : bool :=
  bool_decide (is_Some (fs w !! resolve p)).

(** [p.is_file()] *)
Definition path_is_file (w : world) (p : Path) : bool :=
  match fs w !! resolve p with
  | Some (File _) => true
  | _ => false
  end.

(** [p.mkdir(parents=True, exist_ok=True)] *)
Definition mkdir (p : Path) (w : world) : result unit * world :=
  match fs w !! resolve p with
  | Some Directory => (Ok tt, w)
  | Some (File _) => (Raise "FileExistsError"%string, w)
  | None =>
      (Ok tt, {| fs := <[resolve p := Directory]> (fs w);
                 writes := writes w ++ [Mkdir p];
                 stdout := stdout w |})
  end.

(** [shutil.copy2(src, dst)] for a [dst] that is not a directory: the
    bytes of [src] become the bytes of [dst]. *)
Definition copy2 (src dst : Path) (w : world) : result unit * world :=
  match fs w !! resolve src with
  | Some (File data) =>
      (Ok tt, {| fs := <[resolve dst := File data]> (fs w);
                 writes := writes w ++ [Copy src dst];
                 stdout := stdout w |})
  | Some Directory => (Raise "IsADirectoryError"%string, w)
  | None => (Raise "FileNotFoundError"%string, w)
  end.

(** [open(p, 'w')]: the file is created, or emptied; a directory cannot
    be opened for writing. *)
Definition open_w (p : Path) (w : world) : result unit * world :=
  match fs w !! resolve p with
  | Some Directory => (Raise "IsADirectoryError"%string, w)
  | _ =>
      (Ok tt, {| fs := <[resolve p := File []]> (fs w);
                 writes := writes w ++ [Truncate p];
                 stdout := stdout w |})
  end.

(** [writer.writeheader(); writer.writerows(rows)] into the file opened
    at [p], then its closing. *)
Definition write_report (p : Path) (rows : list report_row) (w : world) : world :=
  {| fs := <[resolve p := File (csv_bytes rows)]> (fs w);
     writes := writes w ++ [WriteReport p rows];
     stdout := stdout w |}.

(** [Series.dropna().unique().tolist()]: first occurrences, in order. *)
Definition unique (cells : list (option string)) : list string :=
  fold_left
    (fun acc cell =>
       match cell with
       | Some s => if bool_decide (s ∈ acc) then acc else acc ++ [s]
       | None => acc
       end)
    cells [].

(** A scored candidate: [(img_path, img_norm, score)]. *)
Definition candidate : Type := Path * string * Z.

Definition key (c : candidate) : Z := snd c.

(** [list.sort(key=lambda x: x[2], reverse=True)]: descending by key and
    stable, built by inserting each element in front of the sorted rest
    of the list. *)
Fixpoint insert_desc (c : candidate) (l : list candidate) : list candidate :=
  match l with
  | [] => [c]
  | d :: l' => if key d <=? key c then c :: l else d :: insert_desc c l'
  end.

Definition sort_desc (l : list candidate) : list candidate :=
  fold_right insert_desc [] l.

Definition status_icon (a : action) : string :=
  match a with
  | COPIED => "✓"
  | DRY_RUN_COPY => "~"
  | NO_MATCH => "✗"
  | SKIPPED_EXISTS => "→"
  | ALREADY_CORRECT => "="
  end.

Record tally : Type := {
  copied : nat;
  skipped : nat;
  already_exists : nat;
  no_match : nat
}.

Definition image_suffixes : list string := [".png"; ".jpg"; ".jpeg"; ".webp"]%string.

(** [p.iterdir()], read to its end: the entries of a directory; the
    call raises on a path that is not one. *)
Definition list_dir (w : world) (p : Path) : result (list Path) :=
  match fs w !! resolve p with
  | Some Directory => Ok (iterdir p)
  | Some (File _) => Raise "NotADirectoryError"%string
  | None => Raise "FileNotFoundError"%string
  end.

(** The list the comprehension over [image_dir.iterdir()] builds.  When
    the folder cannot be listed there is no such list, and [main] has
    raised before it uses one. *)
Definition image_files (cfg : Config) (w : world) : list Path :=
  match list_dir w [IMAGE_DIR cfg] with
  | Ok entries =>
      List.filter
        (fun f => bool_decide (lower (suffix (path_name f)) ∈ image_suffixes)
                  && path_is_file w f)
        entries
  | Raise _ => []
  end.

Definition image_index (files : list Path) : list (Path * string) :=
  map (fun f => (f, normalise (stem (path_name f)))) files.

Definition score_all (index : list (Path * string)) (model_name : string)
  : list candidate :=
  let excel_norm := normalise model_name in
  map (fun '(img_path, img_norm) =>
         (img_path, img_norm,
          score excel_norm img_norm model_name (stem (path_name img_path))))
      index.

Definition target_of (cfg : Config) (model_name : string) : Path :=
  joinpath [OUTPUT_DIR cfg] (safe_filename model_name ++ ".png")%string.

(** The state of the loop over the model names. *)
Record run : Type := {
  the_world : world;
  counts : tally;
  report_rows : list report_row
}.

(** The body of the loop, for one model name. *)
Definition loop_body (cfg : Config) (index : list (Path * string))
    (st : run) (model_name : string) : result unit * run :=
  let w := the_world st in
  let n := counts st in
  let target_path := target_of cfg model_name in
  let candidates := sort_desc (score_all index model_name) in
  match candidates with
  | [] => (Raise "IndexError"%string, st)
  | (best_path, best_norm, best_score) :: _ =>
      let '(r, act, msg, n', w') :=
        if best_score <? MIN_SCORE cfg then
          (Ok tt, NO_MATCH,
           BelowThreshold (path_name best_path) best_score (MIN_SCORE cfg),
           {| copied := copied n; skipped := skipped n;
              already_exists := already_exists n; no_match := S (no_match n) |},
           w)
        else if path_exists w target_path
                && bool_decide (resolve target_path = resolve best_path) then
          (Ok tt, ALREADY_CORRECT, AlreadyMatches,
           {| copied := copied n; skipped := skipped n;
              already_exists := S (already_exists n); no_match := no_match n |},
           w)
        else if path_exists w target_path then
          (Ok tt, SKIPPED_EXISTS,
           TargetExists (path_name target_path) (path_name best_path) best_score,
           {| copied := copied n; skipped := S (skipped n);
              already_exists := already_exists n; no_match := no_match n |},
           w)
        else
          let act := if DRY_RUN cfg then DRY_RUN_COPY else COPIED in
          let msg := CopyArrow (path_name best_path) (path_name target_path) best_score in
          let '(r, w') :=
            if negb (DRY_RUN cfg) then copy2 best_path target_path w
            else (Ok tt, w) in
          (r, act, msg,
           {| copied := S (copied n); skipped := skipped n;
              already_exists := already_exists n; no_match := no_match n |},
           w')
      in
      match r with
      | Raise e => (Raise e, {| the_world := w'; counts := n;
                                report_rows := report_rows st |})
      | Ok _ =>
          let w' := print (Progress (status_icon act) model_name msg) w' in
          let top3 := map (fun '(p, _, s) => (path_name p, s)) (take 3 candidates) in
          let row :=
            {| Model_Name := model_name;
               Action := act;
               Source_File := if MIN_SCORE cfg <=? best_score
                              then path_name best_path else EmptyString;
               Target_File := path_name target_path;
               Score := best_score;
               Top_3_Candidates := top3;
               Message := msg |} in
          (Ok tt, {| the_world := w'; counts := n';
                     report_rows := report_rows st ++ [row] |})
      end
  end.

(** [for model_name in model_names: ...], stopped by the first exception. *)
Fixpoint loop (cfg : Config) (index : list (Path * string))
    (model_names : list string) (st : run) : result unit * run :=
  match model_names with
  | [] => (Ok tt, st)
  | model_name :: rest =>
      match loop_body cfg index st model_name with
      | (Ok _, st') => loop cfg index rest st'
      | (Raise e, st') => (Raise e, st')
      end
  end.

Definition no_counts : tally :=
  {| copied := 0; skipped := 0; already_exists := 0; no_match := 0 |}.

(** [main]: how the run ended, with its rows and the world it leaves.
    Past the two checks it can raise in [mkdir], in [iterdir], in the
    loop, in [open], and on the first row of an empty report. *)
Definition main (cfg : Config) (w : world) : result unit * run :=
  let stop w := {| the_world := w; counts := no_counts; report_rows := [] |} in
  let excel_path : Path := [EXCEL_FILE cfg] in
  let image_dir : Path := [IMAGE_DIR cfg] in
  let output_dir : Path := [OUTPUT_DIR cfg] in
  if negb (path_exists w excel_path) then
    (Ok tt, stop (print (ExcelNotFound (resolve excel_path)) w))
  else if negb (path_exists w image_dir) then
    (Ok tt, stop (print (ImageDirNotFound (resolve image_dir)) w))
  else
    match mkdir output_dir w with
    | (Raise e, w) => (Raise e, stop w)
    | (Ok _, w) =>
        match read_excel excel_path with
        | None => (Ok tt, stop (print NoNameColumn w))
        | Some cells =>
            let model_names := unique cells in
            let w := print (Loaded (length model_names) (path_name excel_path)) w in
            match list_dir w image_dir with
            | Raise e => (Raise e, stop w)
            | Ok _ =>
                let files := image_files cfg w in
                let w := print (Found (length files) (resolve image_dir)) w in
                match files with
                | [] => (Ok tt, stop (print NoImages w))
                | _ :: _ =>
                    match loop cfg (image_index files) model_names (stop w) with
                    | (Raise e, st) => (Raise e, st)
                    | (Ok _, st) =>
                        let n := counts st in
                        let w := the_world st in
                        let w :=
                          if DRY_RUN cfg then print DryRunBanner w else w in
                        let w :=
                          print (Summary (copied n) (already_exists n)
                                         (skipped n) (no_match n)
                                         (length model_names)) w in
                        let report : Path := [REPORT_FILE cfg] in
                        match open_w report w with
                        | (Raise e, w) =>
                            (Raise e,
                             {| the_world := w; counts := n;
                                report_rows := report_rows st |})
                        | (Ok _, w) =>
                            match report_rows st with
                            | [] =>
                                (Raise "IndexError"%string,
                                 {| the_world := w; counts := n;
                                    report_rows := [] |})
                            | rows =>
                                let w := write_report report rows w in
                                let w :=
                                  print (ReportSaved (REPORT_FILE cfg)) w in
                                let w :=
                                  if (0 <? no_match n)%nat
                                  then print (Tip (no_match n) (MIN_SCORE cfg)) w
                                  else w in
                                (Ok tt,
                                 {| the_world := w; counts := n;
                                    report_rows := rows |})
                            end
                        end
                    end
                end
            end
        end
    end.

(** The invariant of the resolver between two worlds of one run: what
    existed still exists unchanged, and the writes in between are copies
    onto distinct targets, all among the [allowed] ones, that did not
    exist before and exist after. *)
Definition grows (allowed : Path -> Prop) (w w' : world) : Prop :=
  (forall p n, fs w !! p = Some n -> fs w' !! p = Some n) /\
  exists copies : list (Path * Path),
    writes w' = writes w ++ map (fun c => Copy (fst c) (snd c)) copies /\
    Forall (fun c => allowed (snd c)) copies /\
    Forall (fun c => fs w !! resolve (snd c) = None) copies /\
    Forall (fun c => is_Some (fs w' !! resolve (snd c))) copies /\
    NoDup (map (fun c => resolve (snd c)) copies).

(** The targets derived from a list of model names. *)
Definition targets_of (cfg : Config) (model_names : list string) (p : Path) : Prop :=
  exists model_name, In model_name model_names /\ p = target_of cfg model_name.

End Script.

(** The number of rows of the report with a given action. *)
Definition count_action (a : action) (rows : list report_row) : nat :=
  length (List.filter (fun r => bool_decide (Action r = a)) rows).

(** The counters of the summary agree with the rows of the report. *)
Definition accounted (st : run) : Prop :=
  copied (counts st)
  = (count_action COPIED (report_rows st)
     + count_action DRY_RUN_COPY (report_rows st))%nat /\
  skipped (counts st) = count_action SKIPPED_EXISTS (report_rows st) /\
  already_exists (counts st) = count_action ALREADY_CORRECT (report_rows st) /\
  no_match (counts st) = count_action NO_MATCH (report_rows st).

(** The resolution policy in the words of the specification: below the
    threshold no match; else already correct when the target exists and
    resolves to the best candidate; else skipped when the target exists;
    else a copy, reported as a dry-run copy in preview mode. *)
Definition spec_decision (threshold : Z) (preview : bool) (best_score : Z)
    (target_exists same_file : bool) : action :=
  if best_score <? threshold then NO_MATCH
  else if target_exists && same_file then ALREADY_CORRECT
  else if target_exists then SKIPPED_EXISTS
  else if preview then DRY_RUN_COPY
  else COPIED.

(** Nothing is left to copy for a model name in a world: the policy
    does not answer COPIED for its best candidate. *)
Definition settled {fuzz : Fuzz} {host : Host} (cfg : Config)
    (index : list (Path * string)) (w : world) (model_name : string) : Prop :=
  forall best rest,
    sort_desc (score_all index model_name) = best :: rest ->
    spec_decision (MIN_SCORE cfg) (DRY_RUN cfg) (key best)
                  (path_exists w (target_of cfg model_name))
                  (bool_decide (resolve (target_of cfg model_name)
                                = resolve (fst (fst best))))
    <> COPIED.

(** [best] is the first element of [l], in the order of [l], whose key
    is the greatest. *)
Definition first_max (best : candidate) (l : list candidate) : Prop :=
  exists pre post,
    l = pre ++ best :: post /\
    Forall (fun c => key c < key best) pre /\
    Forall (fun c => key c <= key best) post.

(** The message and the counters that go with an action. *)
Definition message_for (act : action) (best_name target_name : string)
    (best_score threshold : Z) : message :=
  match act with
  | NO_MATCH => BelowThreshold best_name best_score threshold
  | ALREADY_CORRECT => AlreadyMatches
  | SKIPPED_EXISTS => TargetExists target_name best_name best_score
  | COPIED | DRY_RUN_COPY => CopyArrow best_name target_name best_score
  end.

Definition tally_for (act : action) (n : tally) : tally :=
  match act with
  | NO_MATCH =>
      {| copied := copied n; skipped := skipped n;
         already_exists := already_exists n; no_match := S (no_match n) |}
  | ALREADY_CORRECT =>
      {| copied := copied n; skipped := skipped n;
         already_exists := S (already_exists n); no_match := no_match n |}
  | SKIPPED_EXISTS =>
      {| copied := copied n; skipped := S (skipped n);
         already_exists := already_exists n; no_match := no_match n |}
  | COPIED | DRY_RUN_COPY =>
      {| copied := S (copied n); skipped := skipped n;
         already_exists := already_exists n; no_match := no_match n |}
  end.

(** The configuration with its preview flag set. *)
Definition with_dry_run (b : bool) (cfg : Config) : Config :=
  {| EXCEL_FILE := EXCEL_FILE cfg;
     IMAGE_DIR := IMAGE_DIR cfg;
     OUTPUT_DIR := OUTPUT_DIR cfg;
     REPORT_FILE := REPORT_FILE cfg;
     DRY_RUN := b;
     MIN_SCORE := MIN_SCORE cfg |}.

(** How a preview names the action of a real run. *)
Definition relabel (act : action) : action :=
  match act with
  | COPIED => DRY_RUN_COPY
  | other => other
  end.

Definition relabel_row (row : report_row) : report_row :=
  {| Model_Name := Model_Name row;
     Action := relabel (Action row);
     Source_File := Source_File row;
     Target_File := Target_File row;
     Score := Score row;
     Top_3_Candidates := Top_3_Candidates row;
     Message := Message row |}.

(** The progress line of a row. *)
Definition progress_line (row : report_row) : line :=
  Progress (status_icon (Action row)) (Model_Name row) (Message row).

(** A stand-in for thefuzz in the examples: every metric is 100 on equal
    strings and 0 otherwise. *)
Definition exact_fuzz : Fuzz :=
  let same a b := if String.eqb a b then 100 else 0 in
  {| ratio := same; partial_ratio := same;
     token_sort_ratio := same; token_set_ratio := same |}.

(** A host for the examples: paths resolve to themselves, the image
    folder lists two pictures and a text file, and the sheet names three
    models, one of them twice. *)
Definition sample_host : Host :=
  {| resolve := fun p => p;
     iterdir := fun _ =>
       [["ModelArtOld"; "iron_fang_pathfinder.jpg"];
        ["ModelArtOld"; "Knight_02.png"];
        ["ModelArtOld"; "notes.txt"]]%string;
     read_excel := fun _ =>
       Some [Some "Iron Fang Pathfinder 01"; Some "Knight"; None;
             Some "Knight"; Some "Dragon"]%string;
     csv_bytes := fun _ => [] |}.

Definition jpeg_bytes : list Byte.byte := [Byte.xff; Byte.xd8; Byte.xff; Byte.xe0].
Definition png_bytes : list Byte.byte := [Byte.x89; Byte.x50; Byte.x4e; Byte.x47].

Definition sample_fs : gmap Path node :=
  <[ ["warmachine_units.xlsx"%string] := File [] ]>
  (<[ ["ModelArtOld"%string] := Directory ]>
  (<[ ["ModelArtOld"; "iron_fang_pathfinder.jpg"]%string := File jpeg_bytes ]>
  (<[ ["ModelArtOld"; "Knight_02.png"]%string := File png_bytes ]>
  (<[ ["ModelArtOld"; "notes.txt"]%string := File [] ]> ∅)))).

Definition sample_world : world :=
  {| fs := sample_fs; writes := []; stdout := [] |}.

Definition dry_config : Config := with_dry_run true source_config.

Definition sample_index : list (Path * string) :=
  @image_index (@image_files sample_host source_config sample_world).

Definition sample_run : run :=
  {| the_world := sample_world; counts := no_counts; report_rows := [] |}.


Definition sample_cells : list (option string) :=
  [Some "Iron Fang Pathfinder 01"; Some "Knight"; None;
   Some "Knight"; Some "Dragon"]%string.

End Matcher.

(** * Properties of the square/thumbnail normaliser *)

Module SquarerProofs.
Import Squarer.

Local Open Scope Z_scope.

Section Transform.
Context {host : Host}.

Lemma centre_crop_square_is_square (img : image) :
  width (centre_crop_square img) = height (centre_crop_square img).
Proof.
  unfold centre_crop_square, size.
  destruct (Z.eqb_spec (width img) (height img)) as [E | E]; cbn; lia.
Qed.

Lemma half_margin (d : Z) : 0 <= d -> d / 2 <= d - d / 2 <= d / 2 + 1.
Proof.
  intros Hd.
  pose proof (Z.div_mod d 2 ltac:(lia)) as Hdm.
  pose proof (Z.mod_pos_bound d 2 ltac:(lia)) as Hm.
  lia.
Qed.

(** C4. A square image is returned as it is.  Any other image is cropped
    to the square of side [min w h] whose top-left corner is at
    [((w - side) // 2, (h - side) // 2)]: the pixels are those of that
    region, and the margin cut on the left (top) is the margin cut on the
    right (bottom) or one pixel less. *)
Theorem centre_crop_square_spec (img : image) :
  let w := width img in
  let h := height img in
  let side := Z.min w h in
  let left := (w - side) / 2 in
  let top := (h - side) / 2 in
  (w = h -> centre_crop_square img = img) /\
  (w <> h ->
     size (centre_crop_square img) = (side, side) /\
     mode (centre_crop_square img) = mode img /\
     (forall x y,
        pixel (centre_crop_square img) x y = pixel img (x + left) (y + top)) /\
     0 <= left /\ left <= w - side - left <= left + 1 /\
     0 <= top /\ top <= h - side - top <= top + 1).
Proof.
  intros w h side left top. split.
  - intros E. unfold centre_crop_square, size. fold w h.
    now rewrite (proj2 (Z.eqb_eq w h) E).
  - intros E. unfold centre_crop_square, size. fold w h.
    rewrite (proj2 (Z.eqb_neq w h) E). cbn. fold w h side left top.
    assert (Hw : 0 <= w - side) by (unfold side; lia).
    assert (Hh : 0 <= h - side) by (unfold side; lia).
    pose proof (half_margin _ Hw) as Mw.
    pose proof (half_margin _ Hh) as Mh.
    pose proof (Z.div_pos (w - side) 2 Hw ltac:(lia)).
    pose proof (Z.div_pos (h - side) 2 Hh ltac:(lia)).
    fold left in Mw. fold top in Mh.
    repeat split; try reflexivity; try lia.
    f_equal; lia.
Qed.

(** The example of the specification: a 100x60 image is cropped to 60x60
    at horizontal offset 20 and vertical offset 0. *)
Lemma centre_crop_square_100x60 :
  let img := Image 100 60 "RGB" (fun x y => [x; y]) in
  size (centre_crop_square img) = (60, 60) /\
  (forall x y, pixel (centre_crop_square img) x y = pixel img (x + 20) (y + 0)).
Proof.
  intros img.
  destruct (centre_crop_square_spec img) as [_ Hcrop].
  destruct (Hcrop ltac:(cbn; lia)) as (Hsize & _ & Hpix & _).
  split; [exact Hsize | exact Hpix].
Defined.

(** C3, as the code has it.  On the cropped picture [sq], with a
    positive maximum [m] the downscale happens exactly when both
    dimensions exceed [m], and it yields what [img.resize] makes of [sq]
    at exactly [m x m]; with no maximum, with the maximum 0, or when the
    dimensions do not both exceed the maximum, [sq] is returned as it
    is, and it is returned as it is in no other case.  With a negative
    maximum that both dimensions exceed, as they do on every picture,
    [img.resize] raises [ValueError] and no image is returned. *)
Theorem maybe_resize_square_after_crop (im : image) (max_size : option Z) :
  let sq := centre_crop_square im in
  let r := maybe_resize_square sq max_size in
  (max_size = None \/ max_size = Some 0 -> r = Ok sq) /\
  (forall m, max_size = Some m ->
     ~ (m < width sq /\ m < height sq) -> r = Ok sq) /\
  (forall m, max_size = Some m -> 0 < m -> m < width sq -> m < height sq ->
     r = Ok {| width := m; height := m; mode := mode sq;
               pixel := lanczos sq m m |}) /\
  (forall m, max_size = Some m -> m < 0 -> m < width sq -> m < height sq ->
     r = Raise "ValueError") /\
  (r = Ok sq ->
   max_size = None \/ max_size = Some 0 \/
   exists m, max_size = Some m /\ ~ (m < width sq /\ m < height sq)).
Proof.
  intros sq r.
  pose proof (centre_crop_square_is_square im) as Hsq. fold sq in Hsq.
  unfold r, maybe_resize_square, resize, size.
  destruct max_size as [m |].
  2:{ repeat split; auto; discriminate. }
  destruct (Z.eqb_spec m 0) as [E0 | E0].
  { subst m. repeat split; auto; intros m' [= <-]; lia. }
  destruct (Z.leb_spec (width sq) m) as [Lw | Lw];
    destruct (Z.leb_spec (height sq) m) as [Lh | Lh]; cbn [andb]; try lia.
  - split; [auto |]. split; [auto |].
    split; [intros m' [= <-]; lia |]. split; [intros m' [= <-]; lia |].
    intros _. right. right. exists m. split; [reflexivity | lia].
  - destruct (Z.ltb_spec m 1) as [L1 | L1]; cbn [orb].
    + split; [intros [H | [= H]]; [discriminate | lia] |].
      split; [intros m' [= <-] Hn; exfalso; apply Hn; lia |].
      split; [intros m' [= <-]; lia |]. split; [reflexivity |].
      discriminate.
    + split; [intros [H | [= H]]; [discriminate | lia] |].
      split; [intros m' [= <-] Hn; exfalso; apply Hn; lia |].
      split; [intros m' [= <-]; reflexivity |].
      split; [intros m' [= <-]; lia |].
      intros Heq. exfalso.
      apply (f_equal (fun x => match x with Ok i => width i | Raise _ => 0 end))
        in Heq.
      change (m = width sq) in Heq. lia.
Qed.

(** On a picture that is not square one dimension over the maximum is
    enough for [maybe_resize_square] to resize: the test is that of the
    claim only after the crop. *)
Lemma maybe_resize_square_one_axis :
  let img := Image 100 60 "RGB" (fun x y => [x; y]) in
  maybe_resize_square img (Some 80)
  = Ok {| width := 80; height := 80; mode := "RGB";
          pixel := lanczos img 80 80 |}.
Proof. reflexivity. Qed.

End Transform.

(** The 100x60 picture, cropped to 60x60: it is returned as it is
    without a maximum and with the maximum 60, resampled to 50x50 with
    the maximum 50, and refused with the maximum -5. *)
Lemma maybe_resize_square_after_crop_witness :
  let host := sample_host in
  let im := Image 100 60 "RGB" (fun x y => [x; y]) in
  let sq := centre_crop_square im in
  maybe_resize_square sq None = Ok sq /\
  maybe_resize_square sq (Some 60) = Ok sq /\
  maybe_resize_square sq (Some 50)
  = Ok {| width := 50; height := 50; mode := "RGB";
          pixel := lanczos sq 50 50 |} /\
  maybe_resize_square sq (Some (-5)) = Raise "ValueError".
Proof.
  intros host im sq.
  destruct (maybe_resize_square_after_crop (host := host) im None)
    as (Hnone & _).
  destruct (maybe_resize_square_after_crop (host := host) im (Some 60))
    as (_ & Hle & _).
  destruct (maybe_resize_square_after_crop (host := host) im (Some 50))
    as (_ & _ & Hgt & _).
  destruct (maybe_resize_square_after_crop (host := host) im (Some (-5)))
    as (_ & _ & _ & Hneg & _).
  split; [| split; [| split]].
  - apply Hnone. left. reflexivity.
  - apply (Hle 60); [reflexivity | cbn; lia].
  - apply (Hgt 50); [reflexivity | lia | cbn; lia | cbn; lia].
  - apply (Hneg (-5)); [reflexivity | lia | cbn; lia | cbn; lia].
Defined.

(** The claim as written fails for a negative maximum: both dimensions
    of the cropped 60x60 picture exceed -5, yet no picture of size
    -5 x -5 comes back; the call raises [ValueError]. *)
Lemma maybe_resize_square_negative_max :
  let host := sample_host in
  let im := Image 100 60 "RGB" (fun x y => [x; y]) in
  let sq := centre_crop_square im in
  -5 < width sq /\ -5 < height sq /\
  maybe_resize_square sq (Some (-5)) = Raise "ValueError" /\
  ~ (exists out, maybe_resize_square sq (Some (-5)) = Ok out).
Proof.
  intros host im sq. split; [cbn; lia |]. split; [cbn; lia |].
  split; [reflexivity |]. intros [out Hout]. discriminate.
Qed.

Section Batch.
Context {host : Host}.

Ltac try_file_cases :=
  unfold try_file, make_thumbnail, save, save_image, size, count_changed,
    count_skipped, print;
  repeat match goal with
         | |- context [match exif_open ?p with _ => _ end] =>
             destruct (exif_open p)
         | |- context [match maybe_resize_square ?i ?m with _ => _ end] =>
             destruct (maybe_resize_square i m)
         | |- context [match thumbnail ?i ?t with _ => _ end] =>
             destruct (thumbnail i t)
         | |- context [match save_error ?p ?i with _ => _ end] =>
             destruct (save_error p i)
         | |- context [if ?b then _ else _] => destruct b
         end;
  cbn.

Lemma try_file_failed args sr tr src rel st :
  failed (snd (try_file args sr tr src rel st)) = failed st.
Proof. try_file_cases; reflexivity. Qed.

(** Whether the block raises is the same from every state. *)
Lemma try_file_status args sr tr src rel st :
  match fst (try_file args sr tr src rel st),
        fst (try_file args sr tr src rel initial) with
  | Ok _, Ok _ => True
  | Raise e, Raise e' => e = e'
  | _, _ => False
  end.
Proof.
  unfold try_file, make_thumbnail, save, save_image, size, count_changed,
    count_skipped, print.
  destruct (exif_open src) as [im | e]; [| reflexivity].
  destruct (maybe_resize_square _ _) as [sq | e]; [| reflexivity].
  destruct (thumbnail _ _) as [th | e]; [| reflexivity].
  destruct (dry_run args); [exact I |].
  destruct (need_square_write _ _ _ _); cbn.
  - destruct (save_error (square_path_of args sr src rel) sq); cbn;
      [reflexivity |].
    destruct (save_error (thumb_path_of args sr tr src rel) th); cbn; auto.
  - destruct (save_error (thumb_path_of args sr tr src rel) th); cbn; auto.
Qed.

(** The block raises when the processing does, and in a real run also
    when a save fails. *)
Lemma raises_spec args src :
  raises args src
  = match process args src with
    | Raise _ => true
    | Ok (im, sq, thumb_img) =>
        negb (dry_run args) && save_fails args src im sq thumb_img
    end.
Proof.
  unfold raises, process, save_fails, try_file, make_thumbnail, save,
    save_image, size.
  destruct (exif_open src) as [im | e]; [| reflexivity].
  destruct (maybe_resize_square _ _) as [sq | e]; [| reflexivity].
  destruct (thumbnail _ _) as [th | e]; [| reflexivity].
  destruct (dry_run args); [reflexivity |]. cbn [negb andb].
  destruct (need_square_write _ _ _ _); cbn [andb orb];
    repeat match goal with
           | |- context [save_error ?p ?i] => destruct (save_error p i); cbn
           end;
    repeat case_bool_decide; cbn; congruence.
Qed.

(** The three outcomes of the block, by what the processing gives. *)
Lemma try_file_raise args sr tr src rel st e :
  process args src = Raise e ->
  try_file args sr tr src rel st = (Raise e, st).
Proof.
  unfold process, try_file, size.
  destruct (exif_open src) as [im | e0]; [| now intros [= ->]].
  destruct (maybe_resize_square _ _) as [sq | e0]; [| now intros [= ->]].
  destruct (make_thumbnail _ _) as [th | e0]; [| now intros [= ->]].
  discriminate.
Qed.

Lemma try_file_dry args sr tr src rel st im sq thumb_img :
  dry_run args = true ->
  process args src = Ok (im, sq, thumb_img) ->
  try_file args sr tr src rel st
  = (Ok tt,
     count_changed
       (print (DryRunLine rel
                 (if need_square_write (max_size args) (width im) (height im) sq
                  then SquareChange (width im) (height im) (width sq) (height sq)
                  else SquareSkip)
                 (width thumb_img) (height thumb_img))
              st)).
Proof.
  unfold process, try_file, size. intros Hdry.
  destruct (exif_open src) as [im0 | e0]; [| discriminate].
  destruct (maybe_resize_square _ _) as [sq0 | e0]; [| discriminate].
  destruct (make_thumbnail _ _) as [th0 | e0]; [| discriminate].
  intros [= -> -> ->]. rewrite Hdry. reflexivity.
Qed.

Lemma try_file_real args sr tr src rel st im sq thumb_img :
  dry_run args = false ->
  process args src = Ok (im, sq, thumb_img) ->
  let need := need_square_write (max_size args) (width im) (height im) sq in
  let square_path := square_path_of args sr src rel in
  let thumb_path := thumb_path_of args sr tr src rel in
  (need = true -> save_error square_path sq = None) ->
  save_error thumb_path thumb_img = None ->
  try_file args sr tr src rel st
  = (Ok tt,
     {| changed := if need then S (changed st) else changed st;
        skipped := if need then skipped st else S (skipped st);
        failed := failed st;
        stdout := stdout st;
        written :=
          written st
          ++ (if need then [(square_path, prepare square_path sq)] else [])
          ++ [(thumb_path, prepare thumb_path thumb_img)] |}).
Proof.
  unfold process, try_file, save, save_image, size. intros Hdry.
  destruct (exif_open src) as [im0 | e0]; [| discriminate].
  destruct (maybe_resize_square _ _) as [sq0 | e0]; [| discriminate].
  destruct (make_thumbnail _ _) as [th0 | e0]; [| discriminate].
  intros [= -> -> ->]. rewrite Hdry. cbn zeta.
  destruct (need_square_write _ _ _ _); intros Hsq Hth.
  - rewrite (Hsq eq_refl). cbn. rewrite Hth. cbn.
    now rewrite <- app_assoc.
  - cbn. rewrite Hth. reflexivity.
Qed.

(** The block only appends to what was written, and nothing in dry-run
    mode; when it does not raise outside dry-run mode, the thumbnail is
    among what it appended. *)
Lemma try_file_written args sr tr src rel st :
  exists extra,
    written (snd (try_file args sr tr src rel st)) = written st ++ extra /\
    (dry_run args = true -> extra = []) /\
    (dry_run args = false ->
     (exists u, fst (try_file args sr tr src rel st) = Ok u) ->
     exists img, In (thumb_path_of args sr tr src rel, img) extra).
Proof.
  assert (Hnone : forall (r : result unit) st0,
            written st0 = written st ->
            (forall u, r <> Ok u) \/ dry_run args = true ->
            exists extra,
              written st0 = written st ++ extra /\
              (dry_run args = true -> extra = []) /\
              (dry_run args = false -> (exists u, r = Ok u) ->
               exists img, In (thumb_path_of args sr tr src rel, img) extra)).
  { intros r st0 Hw Hr. exists []. rewrite app_nil_r.
    split; [exact Hw |]. split; [reflexivity |].
    intros Hd [u Hu]. destruct Hr as [Hr | Hr]; [now apply Hr in Hu | congruence]. }
  unfold try_file, make_thumbnail, save, save_image, size, count_changed,
    count_skipped, print.
  destruct (exif_open src) as [im | e]; cbn [fst snd].
  2:{ apply Hnone; [reflexivity | left; discriminate]. }
  destruct (maybe_resize_square _ _) as [sq | e]; cbn [fst snd].
  2:{ apply Hnone; [reflexivity | left; discriminate]. }
  destruct (thumbnail _ _) as [th | e]; cbn [fst snd].
  2:{ apply Hnone; [reflexivity | left; discriminate]. }
  destruct (dry_run args) eqn:Hdry; cbn.
  { apply Hnone; [reflexivity | now right]. }
  clear Hnone.
  destruct (need_square_write _ _ _ _); cbn.
  - destruct (save_error (square_path_of args sr src rel) sq); cbn.
    + exists []. rewrite app_nil_r. repeat split; auto; try discriminate.
      intros _ [u Hu]. discriminate.
    + destruct (save_error (thumb_path_of args sr tr src rel) th); cbn.
      * eexists. split; [reflexivity |]. split; [discriminate |].
        intros _ [u Hu]. discriminate.
      * eexists. rewrite <- app_assoc. split; [reflexivity |].
        split; [discriminate |]. intros _ _. eexists.
        apply in_or_app. right. left. reflexivity.
  - destruct (save_error (thumb_path_of args sr tr src rel) th); cbn.
    + exists []. rewrite app_nil_r. repeat split; auto; try discriminate.
      intros _ [u Hu]. discriminate.
    + eexists. split; [reflexivity |]. split; [discriminate |].
      intros _ _. eexists. left. reflexivity.
Qed.

Lemma loop_body_failed args st src :
  failed (loop_body args (in_dir_of args) (square_root_of args)
                    (thumbs_root_of args) st src)
  = (failed st + bump (raises args src))%nat.
Proof.
  unfold loop_body, raises.
  pose proof (try_file_status args (square_root_of args) (thumbs_root_of args)
                src (relative_to src (in_dir_of args)) st) as Hs.
  pose proof (try_file_failed args (square_root_of args) (thumbs_root_of args)
                src (relative_to src (in_dir_of args)) st) as Hf.
  destruct (try_file _ _ _ _ _ st) as [[u | e] st'];
    destruct (try_file _ _ _ _ _ initial) as [[u' | e'] st0];
    cbn in *; try contradiction; lia.
Qed.

Lemma loop_body_written args st src :
  exists extra,
    written (loop_body args (in_dir_of args) (square_root_of args)
                       (thumbs_root_of args) st src) = written st ++ extra /\
    (dry_run args = true -> extra = []) /\
    (dry_run args = false -> raises args src = false ->
     exists img,
       In (thumb_path_of args (square_root_of args) (thumbs_root_of args) src
                         (relative_to src (in_dir_of args)), img) extra).
Proof.
  unfold loop_body, raises.
  pose proof (try_file_status args (square_root_of args) (thumbs_root_of args)
                src (relative_to src (in_dir_of args)) st) as Hs.
  destruct (try_file_written args (square_root_of args) (thumbs_root_of args)
              src (relative_to src (in_dir_of args)) st)
    as (extra & Hw & Hdry & Hthumb).
  exists extra.
  destruct (try_file _ _ _ _ _ st) as [[u | e] st'];
    destruct (try_file _ _ _ _ _ initial) as [[u' | e'] st0];
    cbn in *; try contradiction.
  - repeat split; auto. intros Hd _. apply Hthumb; eauto.
  - repeat split; auto. discriminate.
Qed.

Lemma run_files_failed args files st :
  failed (run_files args files st)
  = (failed st + length (List.filter (raises args) files))%nat.
Proof.
  revert st. induction files as [| src files IH]; intros st; cbn.
  - lia.
  - unfold run_files in IH. rewrite IH, loop_body_failed.
    destruct (raises args src); cbn; lia.
Qed.

Lemma run_files_written args files st :
  exists extra,
    written (run_files args files st) = written st ++ extra /\
    (dry_run args = true -> extra = []) /\
    (dry_run args = false -> forall src, In src files -> raises args src = false ->
     exists img,
       In (thumb_path_of args (square_root_of args) (thumbs_root_of args) src
                         (relative_to src (in_dir_of args)), img) extra).
Proof.
  revert st. induction files as [| src files IH]; intros st; cbn.
  - exists []. rewrite app_nil_r. repeat split; auto. intros _ ? [].
  - destruct (loop_body_written args st src) as (e1 & Hw1 & Hd1 & Ht1).
    destruct (IH (loop_body args (in_dir_of args) (square_root_of args)
                            (thumbs_root_of args) st src))
      as (e2 & Hw2 & Hd2 & Ht2).
    exists (e1 ++ e2). unfold run_files in *. rewrite Hw2, Hw1, app_assoc.
    split; [reflexivity |]. split.
    + intros Hd. rewrite (Hd1 Hd), (Hd2 Hd). reflexivity.
    + intros Hd f [<- | Hin] Hr.
      * destruct (Ht1 Hd Hr) as [img Himg]. exists img.
        apply in_or_app. now left.
      * destruct (Ht2 Hd f Hin Hr) as [img Himg]. exists img.
        apply in_or_app. now right.
Qed.

Lemma filter_nil_iff {A} (p : A -> bool) (l : list A) :
  List.filter p l = [] <-> forall x, In x l -> p x = false.
Proof.
  induction l as [| a l IH]; cbn.
  - split; [intros _ ? [] | reflexivity].
  - destruct (p a) eqn:E.
    + split; [discriminate |]. intros Hall.
      specialize (Hall a (or_introl eq_refl)). congruence.
    + rewrite IH. split.
      * intros Hall x [<- | Hin]; auto.
      * intros Hall x Hin. apply Hall. now right.
Qed.

(** What [main] leaves once its two argument checks have passed. *)
Lemma main_proceeds args :
  is_dir (in_dir_of args) = true ->
  inplace args && truthy (out args) = false ->
  let st := run_files args (iter_images (in_dir_of args) (negb (no_recursive args)))
                      initial in
  fst (main args) = (if (failed st =? 0)%nat then 0 else 1) /\
  failed (snd (main args)) = failed st /\
  written (snd (main args)) = written st.
Proof.
  intros Hdir Hflags st. unfold main. rewrite Hdir, Hflags. cbn [negb].
  fold (run_files args (iter_images (in_dir_of args) (negb (no_recursive args)))
                  initial).
  fold st. destruct (dry_run args); cbn; auto.
Qed.

(** C8, as the code has it.  [main] returns 2 when the input folder is
    not a directory, and when [--inplace] comes with a non-empty [--out];
    nothing is written then.  Otherwise every enumerated file is
    attempted: [failed] counts the files whose [try] block raised, the
    thumbnail of every other file is written (outside dry-run mode), and
    the exit code is 0 when no file raised and 1 when some file did.  The
    block raises for a file when opening it, the downscale or the
    thumbnail raises, in dry-run mode as well, and in a real run also
    when a save fails. *)
Theorem main_exit_code (args : Args) :
  let files := iter_images (in_dir_of args) (negb (no_recursive args)) in
  (is_dir (in_dir_of args) = false ->
   fst (main args) = 2 /\ written (snd (main args)) = []) /\
  (inplace args = true -> truthy (out args) = true ->
   fst (main args) = 2 /\ written (snd (main args)) = []) /\
  (is_dir (in_dir_of args) = true ->
   inplace args && truthy (out args) = false ->
   failed (snd (main args)) = length (List.filter (raises args) files) /\
   (fst (main args) = 0 <-> forall src, In src files -> raises args src = false) /\
   (fst (main args) = 1 <-> exists src, In src files /\ raises args src = true) /\
   (dry_run args = false ->
    forall src, In src files -> raises args src = false ->
    exists img,
      In (thumb_path_of args (square_root_of args) (thumbs_root_of args) src
                        (relative_to src (in_dir_of args)), img)
         (written (snd (main args))))) /\
  (forall src,
     raises args src
     = match process args src with
       | Raise _ => true
       | Ok (im, sq, thumb_img) =>
           negb (dry_run args) && save_fails args src im sq thumb_img
       end).
Proof.
  intros files. split; [| split; [| split]]; [| | | apply raises_spec].
  - intros Hdir. unfold main. rewrite Hdir. cbn. auto.
  - intros Hin Hout. unfold main.
    destruct (is_dir (in_dir_of args)); cbn; [| auto].
    rewrite Hin, Hout. cbn. auto.
  - intros Hdir Hflags.
    destruct (main_proceeds args Hdir Hflags) as (Hcode & Hfailed & Hwritten).
    fold files in Hcode, Hfailed, Hwritten.
    pose proof (run_files_failed args files initial) as Hcount. cbn in Hcount.
    rewrite Hcode, Hfailed, Hwritten, Hcount.
    destruct (run_files_written args files initial) as (extra & Hw & _ & Hthumb).
    cbn in Hw. rewrite Hw.
    pose proof (filter_nil_iff (raises args) files) as Hnil.
    split; [reflexivity |]. split; [| split].
    + rewrite <- Hnil.
      destruct (List.filter (raises args) files); cbn; split; auto; discriminate.
    + destruct (List.filter (raises args) files) as [| f fs] eqn:E; cbn.
      * split; [discriminate |]. intros (src & Hsrc & Hr).
        rewrite (proj1 Hnil eq_refl src Hsrc) in Hr. discriminate.
      * split; [| reflexivity]. intros _. exists f.
        assert (Hf : In f (List.filter (raises args) files))
          by (rewrite E; now left).
        apply filter_In in Hf. exact Hf.
    + exact Hthumb.
Qed.

(** In dry-run mode [main] writes nothing. *)
Lemma dry_run_writes_nothing (args : Args) :
  dry_run args = true -> written (snd (main args)) = [].
Proof.
  intros Hdry. unfold main.
  destruct (is_dir (in_dir_of args)); cbn [negb]; [| reflexivity].
  destruct (inplace args && truthy (out args)); [reflexivity |].
  rewrite Hdry. cbn.
  fold (run_files args (iter_images (in_dir_of args) (negb (no_recursive args)))
                  initial).
  destruct (run_files_written args
              (iter_images (in_dir_of args) (negb (no_recursive args))) initial)
    as (extra & Hw & Hnone & _).
  rewrite Hw, (Hnone Hdry). reflexivity.
Qed.

Lemma filter_length_le {A} (p q : A -> bool) (l : list A) :
  (forall x, p x = true -> q x = true) ->
  (length (List.filter p l) <= length (List.filter q l))%nat.
Proof.
  intros Hpq. induction l as [| x l IH]; cbn; [lia |].
  destruct (p x) eqn:Ep.
  - rewrite (Hpq x Ep). cbn. lia.
  - destruct (q x); cbn; lia.
Qed.

(** The dry run and the real run of one command line, as whole runs: the
    dry run fails on no file the real run does not fail on, both end
    with the exit code 2 alike, and when no save fails they fail on the
    same number of files and end with the same exit code. *)
Lemma dry_run_exit_code (args : Args) :
  let dry := main (with_dry_run true args) in
  let real := main (with_dry_run false args) in
  (failed (snd dry) <= failed (snd real))%nat /\
  (fst dry = 2 <-> fst real = 2) /\
  ((forall p img, save_error p img = None) ->
   failed (snd dry) = failed (snd real) /\ fst dry = fst real).
Proof.
  intros dry real. subst dry real.
  destruct (is_dir (in_dir_of args)) eqn:Hdir.
  2:{ unfold main.
      change (in_dir_of (with_dry_run true args)) with (in_dir_of args).
      change (in_dir_of (with_dry_run false args)) with (in_dir_of args).
      rewrite Hdir. cbn. repeat split; auto. }
  destruct (inplace args && truthy (out args)) eqn:Hflags.
  { unfold main.
    change (in_dir_of (with_dry_run true args)) with (in_dir_of args).
    change (in_dir_of (with_dry_run false args)) with (in_dir_of args).
    rewrite Hdir. cbn [negb with_dry_run inplace out]. rewrite Hflags.
    cbn. repeat split; auto. }
  destruct (main_proceeds (with_dry_run true args) Hdir Hflags)
    as (Hcode_d & Hfailed_d & _).
  destruct (main_proceeds (with_dry_run false args) Hdir Hflags)
    as (Hcode_r & Hfailed_r & _).
  cbn zeta in Hcode_d, Hfailed_d, Hcode_r, Hfailed_r.
  rewrite run_files_failed in Hcode_d, Hfailed_d, Hcode_r, Hfailed_r.
  cbn [initial failed Nat.add] in Hcode_d, Hfailed_d, Hcode_r, Hfailed_r.
  change (iter_images (in_dir_of (with_dry_run true args))
                      (negb (no_recursive (with_dry_run true args))))
    with (iter_images (in_dir_of args) (negb (no_recursive args)))
    in Hcode_d, Hfailed_d.
  change (iter_images (in_dir_of (with_dry_run false args))
                      (negb (no_recursive (with_dry_run false args))))
    with (iter_images (in_dir_of args) (negb (no_recursive args)))
    in Hcode_r, Hfailed_r.
  set (files := iter_images (in_dir_of args) (negb (no_recursive args))) in *.
  assert (Hdry : forall src,
            raises (with_dry_run true args) src = is_raise (process args src)).
  { intros src. rewrite raises_spec.
    change (process (with_dry_run true args) src) with (process args src).
    destruct (process args src) as [[[im sq] th] | e]; reflexivity. }
  assert (Hreal : forall src,
            raises (with_dry_run true args) src = true ->
            raises (with_dry_run false args) src = true).
  { intros src. rewrite Hdry, raises_spec.
    change (process (with_dry_run false args) src) with (process args src).
    destruct (process args src) as [[[im sq] th] | e]; [discriminate | auto]. }
  pose proof (filter_length_le _ _ files Hreal) as Hle.
  rewrite Hcode_d, Hfailed_d, Hcode_r, Hfailed_r.
  split; [exact Hle |]. split.
  { destruct (length (List.filter (raises (with_dry_run true args)) files));
      destruct (length (List.filter (raises (with_dry_run false args)) files));
      cbn; split; discriminate. }
  intros Hsave.
  assert (Hsame : List.filter (raises (with_dry_run true args)) files
                  = List.filter (raises (with_dry_run false args)) files).
  { apply filter_ext. intros src. rewrite Hdry, raises_spec.
    change (process (with_dry_run false args) src) with (process args src).
    destruct (process args src) as [[[im sq] th] | e]; [| reflexivity].
    unfold save_fails. rewrite !Hsave. cbn.
    repeat case_bool_decide; try congruence.
    now rewrite andb_false_r. }
  rewrite Hsame. auto.
Qed.

End Batch.

(** On [sample_host] the folder holds one picture and one broken file:
    the broken file is counted, the picture is still thumbnailed, and the
    exit code is 1. *)
Lemma main_exit_code_witness :
  let host := sample_host in
  fst (main sample_args) = 1 /\
  failed (snd (main sample_args)) = 1%nat /\
  exists img, In (["Top Images (square)"; "THUMBS"; "a.png"]%string, img)
                 (written (snd (main sample_args))).
Proof.
  intros host.
  destruct (main_exit_code (host := host) sample_args) as (_ & _ & Hrun & _).
  destruct (Hrun eq_refl eq_refl) as (Hfailed & _ & Hone & Hthumb).
  split; [| split].
  - apply Hone. exists ["Top Images"; "old"; "broken.png"]%string.
    split; [right; left |]; reflexivity.
  - exact Hfailed.
  - apply (Hthumb eq_refl ["Top Images"; "a.png"]%string);
      [left |]; reflexivity.
Defined.

(** The claim as written fails for [--inplace] with an empty [--out]
    value: the empty string is falsy, the check passes, the picture is
    processed in place and the run ends with code 0. *)
Lemma main_inplace_with_empty_out :
  let host := sample_host in
  let args :=
    {| folder := "Top Images"; out := Some EmptyString; inplace := true;
       no_recursive := true; max_size := None; thumb_size := 256;
       thumb_format := "same"; dry_run := false |} in
  inplace args = true /\ out args <> None /\
  is_dir (in_dir_of args) = true /\ fst (main args) = 0.
Proof.
  intros host args. split; [reflexivity |]. split; [discriminate |].
  split; reflexivity.
Qed.

(** With [--max-size -5] the downscale raises for every picture that
    decodes: both files of the folder are counted as failed and the exit
    code is 1, in a real run and in a dry run, and nothing is written. *)
Lemma main_with_negative_max_size :
  let host := sample_host in
  let args dry :=
    {| folder := "Top Images/"; out := None; inplace := false;
       no_recursive := false; max_size := Some (-5); thumb_size := 256;
       thumb_format := "same"; dry_run := dry |} in
  forall dry,
    fst (main (args dry)) = 1 /\
    failed (snd (main (args dry))) = 2%nat /\
    written (snd (main (args dry))) = [].
Proof. intros host args [|]; repeat split. Qed.

End SquarerProofs.

(** * Properties of the fuzzy image matcher *)

Module MatcherProofs.
Import Matcher.

Local Open Scope Z_scope.

(** ** The composite score *)

Section Scoring.
Context {fuzz : Fuzz}.

Lemma score_unfold (a_norm b_norm a_raw b_raw : string) :
  score a_norm b_norm a_raw b_raw
  = Z.max (Z.max (Z.max (Z.max (ratio a_norm b_norm) (partial_ratio a_norm b_norm))
                        (token_sort_ratio a_norm b_norm))
                 (token_set_ratio a_norm b_norm))
          (ratio (lower a_raw) (lower b_raw)).
Proof. reflexivity. Qed.

(** C7. The composite score is the maximum of the five metrics: it is one
    of them and none of them is above it; and it lies between 0 and 100
    when the metrics of the library do. *)
Theorem score_is_max (a_norm b_norm a_raw b_raw : string) :
  let metrics :=
    [ratio a_norm b_norm; partial_ratio a_norm b_norm;
     token_sort_ratio a_norm b_norm; token_set_ratio a_norm b_norm;
     ratio (lower a_raw) (lower b_raw)] in
  In (score a_norm b_norm a_raw b_raw) metrics /\
  (forall m, In m metrics -> m <= score a_norm b_norm a_raw b_raw) /\
  (metrics_in_range -> 0 <= score a_norm b_norm a_raw b_raw <= 100).
Proof.
  intros metrics. rewrite score_unfold. subst metrics. cbn [In].
  split; [| split].
  - lia.
  - intros m Hm. lia.
  - intros Hr.
    pose proof (Hr a_norm b_norm) as (? & ? & ? & ?).
    pose proof (Hr (lower a_raw) (lower b_raw)) as (? & _).
    lia.
Qed.

End Scoring.

Lemma exact_fuzz_in_range : @metrics_in_range exact_fuzz.
Proof.
  intros a b. cbn. destruct (String.eqb a b); lia.
Qed.

Lemma score_is_max_witness :
  0 <= @score exact_fuzz "knight" "knight" "Knight" "Knight_02" <= 100.
Proof.
  apply (score_is_max (fuzz := exact_fuzz) "knight" "knight" "Knight" "Knight_02").
  exact exact_fuzz_in_range.
Defined.

(** ** The stable descending sort *)

Lemma insert_desc_split (c : candidate) (l : list candidate) :
  exists a b,
    insert_desc c l = a ++ c :: b /\ l = a ++ b /\
    Forall (fun d => key c < key d) a.
Proof.
  induction l as [| d l IH]; cbn.
  - exists [], []. auto.
  - destruct (Z.leb_spec (key d) (key c)) as [Hle | Hlt].
    + exists [], (d :: l). auto.
    + destruct IH as (a & b & Hi & Hl & Ha).
      exists (d :: a), b. rewrite Hi, Hl. auto.
Qed.

Lemma sort_desc_cons (c : candidate) (l : list candidate) :
  sort_desc (c :: l) = insert_desc c (sort_desc l).
Proof. reflexivity. Qed.

Lemma sort_desc_perm (l : list candidate) : Permutation (sort_desc l) l.
Proof.
  induction l as [| c l IH]; [constructor |]. rewrite sort_desc_cons.
  destruct (insert_desc_split c (sort_desc l)) as (a & b & Hi & Hl & _).
  rewrite Hi. rewrite <- IH, Hl. symmetry. apply Permutation_middle.
Qed.

Lemma insert_desc_sorted (c : candidate) (l : list candidate) :
  StronglySorted (fun x y => key y <= key x) l ->
  StronglySorted (fun x y => key y <= key x) (insert_desc c l).
Proof.
  induction 1 as [| d l Hs IH Hd]; cbn.
  - repeat constructor.
  - destruct (Z.leb_spec (key d) (key c)) as [Hle | Hlt].
    + constructor; [constructor; assumption |].
      constructor; [assumption |].
      eapply List.Forall_impl; [| exact Hd]. cbn. intros; lia.
    + constructor; [assumption |].
      destruct (insert_desc_split c l) as (a & b & Hi & Hl & _).
      rewrite Hi. rewrite Hl in Hd.
      apply Forall_app in Hd as [Ha Hb].
      apply Forall_app. split; [assumption |].
      constructor; [lia | assumption].
Qed.

Lemma sort_desc_sorted (l : list candidate) :
  StronglySorted (fun x y => key y <= key x) (sort_desc l).
Proof.
  induction l as [| c l IH]; [constructor |]. rewrite sort_desc_cons.
  now apply insert_desc_sorted.
Qed.

Lemma filter_key_above (k : Z) (a : list candidate) :
  Forall (fun d => k < key d) a -> List.filter (fun c => key c =? k) a = [].
Proof.
  induction 1 as [| d a Hd _ IH]; cbn; [reflexivity |].
  destruct (Z.eqb_spec (key d) k); [lia | assumption].
Qed.

(** Elements with the same key keep the order they had. *)
Lemma sort_desc_stable (l : list candidate) (k : Z) :
  List.filter (fun c => key c =? k) (sort_desc l)
  = List.filter (fun c => key c =? k) l.
Proof.
  induction l as [| c l IH]; [reflexivity |]. rewrite sort_desc_cons.
  destruct (insert_desc_split c (sort_desc l)) as (a & b & Hi & Hl & Ha).
  cbn [List.filter]. rewrite Hi, <- IH, Hl, !List.filter_app. cbn [List.filter].
  destruct (Z.eqb_spec (key c) k) as [<- | Hne]; [| reflexivity].
  now rewrite (filter_key_above (key c) a Ha).
Qed.

Lemma sort_desc_head (l : list candidate) (best : candidate)
    (rest : list candidate) :
  sort_desc l = best :: rest -> first_max best l.
Proof.
  revert best rest. induction l as [| c l IH]; intros best rest.
  - discriminate.
  - rewrite sort_desc_cons.
    destruct (sort_desc l) as [| d s] eqn:Es; cbn [insert_desc].
    + intros [= <- <-].
      pose proof (sort_desc_perm l) as Hp. rewrite Es in Hp.
      apply Permutation_nil in Hp. subst l.
      exists [], []. auto.
    + destruct (IH d s eq_refl) as (pre & post & Hl & Hpre & Hpost).
      destruct (Z.leb_spec (key d) (key c)) as [Hle | Hlt].
      * intros [= <- <-]. exists [], l. split; [reflexivity |].
        split; [constructor |]. rewrite Hl.
        apply Forall_app. split.
        -- eapply List.Forall_impl; [| exact Hpre]. cbn. intros; lia.
        -- constructor; [lia |].
           eapply List.Forall_impl; [| exact Hpost]. cbn. intros; lia.
      * intros [= <- <-]. exists (c :: pre), post. rewrite Hl.
        split; [reflexivity |]. split; [| assumption].
        constructor; assumption.
Qed.

Lemma sort_desc_nonempty (l : list candidate) :
  l <> [] -> exists best rest, sort_desc l = best :: rest.
Proof.
  intros Hl. destruct (sort_desc l) as [| best rest] eqn:Es; [| eauto].
  pose proof (sort_desc_perm l) as Hp. rewrite Es in Hp.
  apply Permutation_nil in Hp. contradiction.
Qed.

(** ** One turn of the resolver *)

Section Resolver.
Context {fuzz : Fuzz} {host : Host}.

(** What one turn of the loop does, read off the best candidate: the row
    it appends, the line it prints, and its one possible write. *)
Lemma loop_body_inv cfg index st model_name best_path best_norm best_score rest :
  sort_desc (score_all index model_name)
  = (best_path, best_norm, best_score) :: rest ->
  let w := the_world st in
  let target := target_of cfg model_name in
  let act :=
    spec_decision (MIN_SCORE cfg) (DRY_RUN cfg) best_score
                  (path_exists w target)
                  (bool_decide (resolve target = resolve best_path)) in
  let msg :=
    message_for act (path_name best_path) (path_name target) best_score
                (MIN_SCORE cfg) in
  let row :=
    {| Model_Name := model_name;
       Action := act;
       Source_File := if MIN_SCORE cfg <=? best_score
                      then path_name best_path else EmptyString;
       Target_File := path_name target;
       Score := best_score;
       Top_3_Candidates :=
         map (fun '(p, _, s) => (path_name p, s))
             (take 3 ((best_path, best_norm, best_score) :: rest));
       Message := msg |} in
  match loop_body cfg index st model_name with
  | (Ok _, st') =>
      report_rows st' = report_rows st ++ [row] /\
      counts st' = tally_for act (counts st) /\
      stdout (the_world st')
      = stdout w ++ [Progress (status_icon act) model_name msg] /\
      (act <> COPIED ->
       fs (the_world st') = fs w /\ writes (the_world st') = writes w) /\
      (act = COPIED ->
       exists data,
         fs w !! resolve best_path = Some (File data) /\
         fs (the_world st') = <[resolve target := File data]> (fs w) /\
         writes (the_world st') = writes w ++ [Copy best_path target])
  | (Raise _, st') =>
      act = COPIED /\ path_is_file w best_path = false /\
      the_world st' = w /\ counts st' = counts st /\
      report_rows st' = report_rows st
  end.
Proof.
  intros Hs w target act msg row.
  unfold loop_body. rewrite Hs. fold w target.
  subst row msg act. unfold spec_decision.
  destruct (best_score <? MIN_SCORE cfg) eqn:Elt.
  { cbn. repeat split; auto; discriminate. }
  destruct (path_exists w target) eqn:Eex; cbn [andb].
  - destruct (bool_decide (resolve target = resolve best_path)) eqn:Esame;
      cbn; repeat split; auto; discriminate.
  - destruct (DRY_RUN cfg) eqn:Edry; cbn [negb].
    + cbn. repeat split; auto; discriminate.
    + unfold copy2, path_is_file.
      destruct (fs w !! resolve best_path) as [[data |] |] eqn:Esrc; cbn.
      * repeat split; auto; try contradiction. intros _. eauto.
      * repeat split; auto.
      * repeat split; auto.
Qed.

Lemma spec_decision_no_match th dry s ex same :
  spec_decision th dry s ex same = NO_MATCH <-> s < th.
Proof.
  unfold spec_decision. destruct (Z.ltb_spec s th).
  - tauto.
  - destruct ex, same, dry; cbn; split; (discriminate || lia).
Qed.

Lemma spec_decision_copied th dry s ex same :
  spec_decision th dry s ex same = COPIED ->
  th <= s /\ ex = false /\ dry = false.
Proof.
  unfold spec_decision. destruct (Z.ltb_spec s th); [discriminate |].
  destruct ex, same, dry; cbn; try discriminate; auto.
Qed.

Lemma path_exists_false (w : world) (p : Path) :
  path_exists w p = false <-> fs w !! resolve p = None.
Proof.
  unfold path_exists. rewrite bool_decide_eq_false, <- eq_None_not_Some.
  reflexivity.
Qed.

(** C1. The candidates are the entries of the image index, in the order
    of enumeration, each with its composite score: the [score] of the
    normalised model name against the normalised stem, and of the raw
    model name against the raw stem.  They are sorted by that score,
    highest first, equal scores
    keeping the order of enumeration, so the best candidate is the first
    one enumerated among those of the highest score.  The action recorded
    for it is the one the resolution policy names: NO_MATCH below the
    threshold, else ALREADY_CORRECT when the target exists and resolves
    to the best candidate, else SKIPPED_EXISTS when the target exists,
    else COPIED, or DRY_RUN_COPY in preview mode; a copy made is the copy
    of the best candidate onto the target.  The turn ends with
    that row unless a copy is due and the best candidate is not a file. *)
Theorem resolution_policy cfg index st model_name :
  index <> [] ->
  let cands := score_all index model_name in
  let sorted := sort_desc cands in
  let w := the_world st in
  let target := target_of cfg model_name in
  cands
  = map (fun entry =>
           (fst entry, snd entry,
            score (normalise model_name) (snd entry)
                  model_name (stem (path_name (fst entry)))))
        index /\
  Permutation sorted cands /\
  StronglySorted (fun a b => key b <= key a) sorted /\
  (forall k, List.filter (fun c => key c =? k) sorted
             = List.filter (fun c => key c =? k) cands) /\
  exists best rest,
    sorted = best :: rest /\ first_max best cands /\
    let decision :=
      spec_decision (MIN_SCORE cfg) (DRY_RUN cfg) (key best)
                    (path_exists w target)
                    (bool_decide (resolve target = resolve (fst (fst best)))) in
    (forall st', loop_body cfg index st model_name = (Ok tt, st') ->
       (exists row, report_rows st' = report_rows st ++ [row] /\
                    Action row = decision /\ Score row = key best) /\
       (decision = COPIED ->
        writes (the_world st') = writes w ++ [Copy (fst (fst best)) target]) /\
       (decision <> COPIED -> writes (the_world st') = writes w)) /\
    ((decision = COPIED -> path_is_file w (fst (fst best)) = true) ->
     exists st', loop_body cfg index st model_name = (Ok tt, st')).
Proof.
  intros Hne cands sorted w target.
  split.
  { unfold cands, score_all. apply map_ext. intros [p n]. reflexivity. }
  split; [apply sort_desc_perm |].
  split; [apply sort_desc_sorted |].
  split; [intros k; apply sort_desc_stable |].
  assert (Hc : cands <> []).
  { unfold cands, score_all. destruct index; [contradiction | discriminate]. }
  destruct (sort_desc_nonempty cands Hc) as ([[bp bn] bs] & rest & Hs).
  exists (bp, bn, bs), rest. fold sorted in Hs.
  split; [exact Hs |]. split; [eapply sort_desc_head; exact Hs |].
  pose proof (loop_body_inv cfg index st model_name bp bn bs rest Hs) as Hinv.
  cbn zeta in Hinv. fold w target in Hinv.
  cbn [fst snd key].
  set (decision := spec_decision _ _ _ _ _) in *.
  destruct (loop_body cfg index st model_name) as [[[] | e] st1].
  - destruct Hinv as (Hrows & _ & _ & Hkeep & Hcopy). split.
    + intros st' [= <-]. split; [| split].
      * eexists. split; [exact Hrows |]. split; reflexivity.
      * intros Hact. destruct (Hcopy Hact) as (data & _ & _ & Hw). exact Hw.
      * intros Hact. apply (Hkeep Hact).
    + intros _. eauto.
  - destruct Hinv as (Hact & Hfile & _). split.
    + intros st' [=].
    + intros Hok. rewrite (Hok Hact) in Hfile. discriminate.
Qed.

(** One turn changes the file system by at most one copy, and only onto
    a target that does not exist. *)
Lemma loop_body_writes cfg index st model_name :
  let w := the_world st in
  let w' := the_world (snd (loop_body cfg index st model_name)) in
  (fs w' = fs w /\ writes w' = writes w) \/
  (exists src data,
     let dst := target_of cfg model_name in
     DRY_RUN cfg = false /\
     fs w !! resolve dst = None /\
     fs w !! resolve src = Some (File data) /\
     fs w' = <[resolve dst := File data]> (fs w) /\
     writes w' = writes w ++ [Copy src dst]).
Proof.
  intros w w'. subst w'.
  destruct (sort_desc (score_all index model_name)) as [| [[bp bn] bs] rest] eqn:Hs.
  { left. unfold loop_body. rewrite Hs. auto. }
  pose proof (loop_body_inv cfg index st model_name bp bn bs rest Hs) as Hinv.
  cbn zeta in Hinv. fold w in Hinv.
  destruct (loop_body cfg index st model_name) as [[[] | e] st1]; cbn [snd].
  - destruct Hinv as (_ & _ & _ & Hkeep & Hcopy).
    match type of Hcopy with ?a = COPIED -> _ => destruct (decide (a = COPIED)) as [Ec | Ec] end.
    + right. destruct (Hcopy Ec) as (data & Hsrc & Hfs & Hwr).
      apply spec_decision_copied in Ec as (_ & Hex & Hdry).
      apply path_exists_false in Hex.
      exists bp, data. cbn zeta. auto.
    + left. apply Hkeep, Ec.
  - destruct Hinv as (_ & _ & -> & _). left. auto.
Qed.

Lemma grows_refl (allowed : Path -> Prop) (w : world) : grows allowed w w.
Proof.
  split; [auto |]. exists []. cbn. rewrite app_nil_r.
  repeat split; constructor.
Qed.

Lemma grows_weaken (a a' : Path -> Prop) (w w' : world) :
  (forall p, a p -> a' p) -> grows a w w' -> grows a' w w'.
Proof.
  intros Ha (M & c & W & L & A & P & N).
  split; [exact M |]. exists c. repeat split; auto.
  eapply List.Forall_impl; [| exact L]. cbn. auto.
Qed.

Lemma grows_trans (allowed : Path -> Prop) (w1 w2 w3 : world) :
  grows allowed w1 w2 -> grows allowed w2 w3 -> grows allowed w1 w3.
Proof.
  intros (M12 & c12 & W12 & L12 & A12 & P12 & N12)
         (M23 & c23 & W23 & L23 & A23 & P23 & N23).
  split; [auto |]. exists (c12 ++ c23).
  split; [| split; [| split; [| split]]].
  - rewrite W23, W12, map_app, app_assoc. reflexivity.
  - apply Forall_app. auto.
  - apply Forall_app. split; [exact A12 |].
    eapply List.Forall_impl; [| exact A23]. cbn. intros c Hc.
    destruct (fs w1 !! resolve (snd c)) as [n |] eqn:E; [| reflexivity].
    apply M12 in E. congruence.
  - apply Forall_app. split; [| exact P23].
    eapply List.Forall_impl; [| exact P12]. cbn. intros c [n Hn].
    exists n. auto.
  - rewrite map_app. apply NoDup_app. split; [exact N12 |]. split; [| exact N23].
    intros k Hk12 Hk23.
    apply list_elem_of_In, in_map_iff in Hk12 as (c & <- & Hc).
    apply list_elem_of_In, in_map_iff in Hk23 as (c' & Heq & Hc').
    rewrite List.Forall_forall in P12, A23.
    destruct (P12 c Hc) as [n Hn]. specialize (A23 c' Hc').
    rewrite Heq in A23. congruence.
Qed.

Lemma loop_body_grows cfg index st model_name :
  grows (targets_of cfg [model_name])
        (the_world st) (the_world (snd (loop_body cfg index st model_name))).
Proof.
  destruct (loop_body_writes cfg index st model_name)
    as [[Hfs Hwr] | (src & data & Hdry & Habs & Hsrc & Hfs & Hwr)].
  - split; [intros p n; rewrite Hfs; auto |].
    exists []. cbn. rewrite app_nil_r. repeat split; auto; constructor.
  - cbn zeta in *. split.
    + intros p n Hp. rewrite Hfs, lookup_insert_ne; [exact Hp | congruence].
    + exists [(src, target_of cfg model_name)]. cbn.
      split; [exact Hwr |].
      split; [repeat constructor; exists model_name; cbn; auto |].
      split; [repeat constructor; exact Habs |].
      split; [| repeat constructor; set_solver].
      repeat constructor. cbn. rewrite Hfs, lookup_insert_eq. eauto.
Qed.

Lemma loop_grows cfg index model_names st :
  grows (targets_of cfg model_names)
        (the_world st) (the_world (snd (loop cfg index model_names st))).
Proof.
  revert st. induction model_names as [| model_name rest IH]; intros st.
  - apply grows_refl.
  - pose proof (loop_body_grows cfg index st model_name) as Hstep.
    apply (grows_weaken _ (targets_of cfg (model_name :: rest))) in Hstep.
    2:{ intros p (m & [<- | []] & ->). exists model_name. cbn. auto. }
    cbn [loop].
    destruct (loop_body cfg index st model_name) as [[[] | e] st1]; cbn [snd] in *.
    + eapply grows_trans; [exact Hstep |].
      eapply grows_weaken; [| apply IH].
      intros p (m & Hm & ->). exists m. cbn. auto.
    + exact Hstep.
Qed.

(** C6. Through the whole loop of the resolver, every node of the file
    system that existed before the loop is there unchanged after it; the
    writes of the loop are copies, each onto the target path derived from
    one of the names, a path that did not exist, and no two of them onto
    the same file. *)
Theorem resolver_never_overwrites cfg index model_names st :
  let w := the_world st in
  let w' := the_world (snd (loop cfg index model_names st)) in
  (forall p n, fs w !! p = Some n -> fs w' !! p = Some n) /\
  exists copies : list (Path * Path),
    writes w' = writes w ++ map (fun c => Copy (fst c) (snd c)) copies /\
    Forall (fun c => targets_of cfg model_names (snd c)) copies /\
    Forall (fun c => path_exists w (snd c) = false) copies /\
    NoDup (map (fun c => resolve (snd c)) copies).
Proof.
  intros w w'.
  destruct (loop_grows cfg index model_names st)
    as (Hkeep & copies & Hwr & Hall & Habs & _ & Hnd).
  split; [exact Hkeep |]. exists copies.
  split; [exact Hwr |]. split; [exact Hall |]. split; [| exact Hnd].
  eapply List.Forall_impl; [| exact Habs]. cbn. intros c Hc.
  now apply path_exists_false.
Qed.

(** One turn copies only when the target path does not exist at that
    moment and the run is not a preview. *)
Lemma copy_only_onto_absent_target cfg index st model_name src dst :
  In (Copy src dst)
     (writes (the_world (snd (loop_body cfg index st model_name)))) ->
  ~ In (Copy src dst) (writes (the_world st)) ->
  dst = target_of cfg model_name /\
  path_exists (the_world st) dst = false /\ DRY_RUN cfg = false.
Proof.
  intros Hin Hnot.
  destruct (loop_body_writes cfg index st model_name)
    as [[_ Hwr] | (src' & data & Hdry & Habs & _ & _ & Hwr)].
  - rewrite Hwr in Hin. contradiction.
  - cbn zeta in *. rewrite Hwr in Hin.
    apply in_app_or in Hin as [Hin | [[= <- <-] | []]]; [contradiction |].
    split; [reflexivity |]. split; [| exact Hdry].
    now apply path_exists_false.
Qed.

Lemma best_in_index index model_name best rest :
  sort_desc (score_all index model_name) = best :: rest ->
  In (fst (fst best)) (map fst index).
Proof.
  intros Hs.
  assert (Hin : In best (score_all index model_name)).
  { eapply Permutation_in; [apply sort_desc_perm |]. rewrite Hs. now left. }
  unfold score_all in Hin. apply in_map_iff in Hin as ([p n] & <- & Hp).
  cbn. apply in_map_iff. exists (p, n). auto.
Qed.

Lemma image_index_paths (files : list Path) : map fst (image_index files) = files.
Proof.
  unfold image_index. rewrite map_map. cbn. apply map_id.
Qed.

(** The image files are entries of the image folder, a directory, that
    carry an image suffix and are regular files. *)
Lemma image_files_listed cfg w f :
  In f (image_files cfg w) ->
  fs w !! resolve [IMAGE_DIR cfg] = Some Directory /\
  In f (iterdir [IMAGE_DIR cfg]) /\
  lower (suffix (path_name f)) ∈ image_suffixes /\
  path_is_file w f = true.
Proof.
  unfold image_files, list_dir. intros Hin.
  destruct (fs w !! resolve [IMAGE_DIR cfg]) as [[data |] |];
    try contradiction.
  apply filter_In in Hin as [Hentry Hf].
  apply andb_prop in Hf as [Hsfx Hfile].
  apply bool_decide_eq_true in Hsfx. auto.
Qed.

(** A file that passes the suffix filter has a name. *)
Lemma image_file_named cfg w f :
  In f (image_files cfg w) -> path_name f <> EmptyString.
Proof.
  intros Hin Hname.
  apply image_files_listed in Hin as (_ & _ & Hsfx & _).
  rewrite Hname in Hsfx.
  vm_compute in Hsfx.
  repeat (apply elem_of_cons in Hsfx as [Hsfx | Hsfx]; [discriminate |]).
  now apply elem_of_nil in Hsfx.
Qed.

(** C9. In the row of a processed name, the Source File column is empty
    exactly when the action is NO_MATCH, which is exactly when the best
    score is below the threshold; otherwise it is the file name of the
    best candidate. *)
Theorem source_file_column cfg w0 st model_name st' :
  loop_body cfg (image_index (image_files cfg w0)) st model_name = (Ok tt, st') ->
  exists row best rest,
    report_rows st' = report_rows st ++ [row] /\
    sort_desc (score_all (image_index (image_files cfg w0)) model_name)
    = best :: rest /\
    Score row = key best /\
    (Action row = NO_MATCH <-> key best < MIN_SCORE cfg) /\
    (Source_File row = EmptyString <-> Action row = NO_MATCH) /\
    (Action row <> NO_MATCH -> Source_File row = path_name (fst (fst best))).
Proof.
  intros Hbody.
  destruct (sort_desc (score_all (image_index (image_files cfg w0)) model_name))
    as [| [[bp bn] bs] rest] eqn:Hs.
  { unfold loop_body in Hbody. rewrite Hs in Hbody. discriminate. }
  pose proof (loop_body_inv cfg _ st model_name bp bn bs rest Hs) as Hinv.
  cbn zeta in Hinv. rewrite Hbody in Hinv. destruct Hinv as (Hrows & _).
  assert (Hname : path_name bp <> EmptyString).
  { apply (image_file_named cfg w0).
    pose proof (best_in_index _ _ _ _ Hs) as Hin.
    now rewrite image_index_paths in Hin. }
  eexists _, (bp, bn, bs), rest. split; [exact Hrows |].
  split; [reflexivity |]. cbn [Score Action Source_File key fst snd].
  split; [reflexivity |].
  split; [apply spec_decision_no_match |].
  rewrite spec_decision_no_match.
  destruct (Z.leb_spec (MIN_SCORE cfg) bs) as [Hle | Hlt].
  - split; [split |].
    + intros E. contradiction.
    + lia.
    + reflexivity.
  - split; [split |].
    + intros _. exact Hlt.
    + reflexivity.
    + lia.
Qed.

Lemma path_name_joinpath (p : Path) (child : string) :
  path_name (joinpath p child) = child.
Proof. unfold path_name, joinpath. apply List.last_last. Qed.

(** C10. The target of a name is always the sanitised name followed by
    [.png], whatever the best candidate is called; and when the action is
    COPIED, the target holds, byte for byte, what the best candidate
    holds. *)
Theorem copy_keeps_bytes_under_png_name cfg index st model_name st' :
  loop_body cfg index st model_name = (Ok tt, st') ->
  exists row best rest,
    report_rows st' = report_rows st ++ [row] /\
    sort_desc (score_all index model_name) = best :: rest /\
    path_name (target_of cfg model_name)
    = (safe_filename model_name ++ ".png")%string /\
    Target_File row = (safe_filename model_name ++ ".png")%string /\
    (Action row = COPIED ->
     exists data,
       fs (the_world st) !! resolve (fst (fst best)) = Some (File data) /\
       fs (the_world st') !! resolve (target_of cfg model_name)
       = Some (File data) /\
       In (Copy (fst (fst best)) (target_of cfg model_name))
          (writes (the_world st'))).
Proof.
  intros Hbody.
  destruct (sort_desc (score_all index model_name))
    as [| [[bp bn] bs] rest] eqn:Hs.
  { unfold loop_body in Hbody. rewrite Hs in Hbody. discriminate. }
  pose proof (loop_body_inv cfg _ st model_name bp bn bs rest Hs) as Hinv.
  cbn zeta in Hinv. rewrite Hbody in Hinv.
  destruct Hinv as (Hrows & _ & _ & _ & Hcopy).
  eexists _, (bp, bn, bs), rest. split; [exact Hrows |].
  split; [reflexivity |]. cbn [Target_File Action fst snd].
  unfold target_of at 1 2. rewrite path_name_joinpath.
  split; [reflexivity |]. split; [reflexivity |].
  intros Hact. destruct (Hcopy Hact) as (data & Hsrc & Hfs & Hwr).
  exists data. split; [exact Hsrc |]. rewrite Hfs, Hwr, lookup_insert_eq.
  split; [reflexivity |]. apply in_or_app. right. now left.
Qed.

Lemma path_is_file_kept (allowed : Path -> Prop) (w w' : world) (f : Path) :
  grows allowed w w' -> path_is_file w f = true -> path_is_file w' f = true.
Proof.
  intros [Hkeep _]. unfold path_is_file.
  destruct (fs w !! resolve f) as [[data |] |] eqn:E; try discriminate.
  now rewrite (Hkeep _ _ E).
Qed.

(** The loop runs to its end, one row per name, when the index is not
    empty and its files are files, as [main] builds it. *)
Lemma loop_total cfg index model_names st :
  index <> [] ->
  (forall f, In f (map fst index) -> path_is_file (the_world st) f = true) ->
  exists st',
    loop cfg index model_names st = (Ok tt, st') /\
    length (report_rows st')
    = (length (report_rows st) + length model_names)%nat.
Proof.
  intros Hne. revert st.
  induction model_names as [| model_name rest IH]; intros st Hfiles.
  - exists st. cbn. split; [reflexivity | lia].
  - assert (Hc : score_all index model_name <> []).
    { unfold score_all. destruct index; [contradiction | discriminate]. }
    destruct (sort_desc_nonempty _ Hc) as ([[bp bn] bs] & others & Hs).
    pose proof (loop_body_inv cfg index st model_name bp bn bs others Hs) as Hinv.
    pose proof (loop_body_grows cfg index st model_name) as Hgrow.
    cbn zeta in Hinv. cbn [loop].
    destruct (loop_body cfg index st model_name) as [[[] | e] st1]; cbn [snd] in *.
    + destruct Hinv as (Hrows & _).
      destruct (IH st1) as (st' & Hloop & Hlen).
      { intros f Hf. eapply path_is_file_kept; [exact Hgrow | auto]. }
      exists st'. split; [exact Hloop |].
      rewrite Hlen, Hrows, length_app. cbn. lia.
    + destruct Hinv as (_ & Hfile & _).
      rewrite (Hfiles bp) in Hfile; [discriminate |].
      apply (best_in_index _ _ _ _ Hs).
Qed.

Lemma spec_decision_relabel th s ex same :
  spec_decision th true s ex same = relabel (spec_decision th false s ex same).
Proof.
  unfold spec_decision.
  destruct (s <? th), ex, same; reflexivity.
Qed.

Lemma relabel_not_copied (act : action) : relabel act <> COPIED.
Proof. destruct act; discriminate. Qed.

Lemma message_for_relabel act b t s th :
  message_for (relabel act) b t s th = message_for act b t s th.
Proof. destruct act; reflexivity. Qed.

Lemma tally_for_relabel act n : tally_for (relabel act) n = tally_for act n.
Proof. destruct act; reflexivity. Qed.

(** From the same state a preview turn decides what the real turn
    decides: when the real turn ends with a row, the preview turn ends
    with the same row and counters, its action relabelled, and leaves the
    file system as it was. *)
Lemma preview_turn cfg index st model_name st_real :
  loop_body (with_dry_run false cfg) index st model_name = (Ok tt, st_real) ->
  exists st_dry row,
    loop_body (with_dry_run true cfg) index st model_name = (Ok tt, st_dry) /\
    report_rows st_real = report_rows st ++ [row] /\
    report_rows st_dry = report_rows st ++ [relabel_row row] /\
    counts st_dry = counts st_real /\
    stdout (the_world st_real)
    = stdout (the_world st)
      ++ [Progress (status_icon (Action row)) model_name (Message row)] /\
    stdout (the_world st_dry)
    = stdout (the_world st)
      ++ [Progress (status_icon (relabel (Action row))) model_name (Message row)] /\
    fs (the_world st_dry) = fs (the_world st) /\
    writes (the_world st_dry) = writes (the_world st).
Proof.
  intros Hreal.
  destruct (sort_desc (score_all index model_name))
    as [| [[bp bn] bs] rest] eqn:Hs.
  { unfold loop_body in Hreal. rewrite Hs in Hreal. discriminate. }
  pose proof (loop_body_inv (with_dry_run false cfg) index st model_name
                bp bn bs rest Hs) as Hr.
  pose proof (loop_body_inv (with_dry_run true cfg) index st model_name
                bp bn bs rest Hs) as Hd.
  cbn zeta in Hr, Hd. rewrite Hreal in Hr.
  cbn [with_dry_run MIN_SCORE DRY_RUN] in Hr, Hd.
  change (target_of (with_dry_run true cfg) model_name)
    with (target_of (with_dry_run false cfg) model_name) in Hd.
  rewrite spec_decision_relabel in Hd.
  destruct Hr as (Hrows & Hcounts & Hout & _).
  destruct (loop_body (with_dry_run true cfg) index st model_name)
    as [[[] | e] st_dry].
  - destruct Hd as (Hrows' & Hcounts' & Hout' & Hkeep & _).
    destruct (Hkeep (relabel_not_copied _)) as [Hfs Hwr].
    eexists st_dry, _. split; [reflexivity |]. split; [exact Hrows |].
    rewrite message_for_relabel in Hrows', Hout'.
    rewrite tally_for_relabel in Hcounts'.
    split; [exact Hrows' |]. split; [congruence |].
    split; [exact Hout |]. split; [exact Hout' |]. auto.
  - destruct Hd as (Hact & _). now apply relabel_not_copied in Hact.
Qed.

(** In preview mode the loop of the resolver asks nothing of the file
    system. *)
Lemma preview_loop_writes_nothing cfg index model_names st :
  DRY_RUN cfg = true ->
  let w' := the_world (snd (loop cfg index model_names st)) in
  fs w' = fs (the_world st) /\ writes w' = writes (the_world st).
Proof.
  intros Hdry. revert st.
  induction model_names as [| model_name rest IH]; intros st; [cbn; auto |].
  cbn zeta in *. cbn [loop].
  destruct (loop_body_writes cfg index st model_name)
    as [[Hfs Hwr] | (src & data & Hreal & _)]; [| congruence].
  destruct (loop_body cfg index st model_name) as [[[] | e] st1]; cbn [snd] in *.
  - destruct (IH st1) as [Hfs' Hwr']. split; congruence.
  - auto.
Qed.

Lemma image_files_are_files cfg w f :
  In f (image_files cfg w) -> path_is_file w f = true.
Proof. intros Hin. now apply image_files_listed in Hin. Qed.

(** A preview turn and a real turn from two states in which the target
    exists or not alike: the preview ends with the relabelled row of the
    real turn and leaves its file system as it was, while the real turn
    changes its file system at the target at most. *)
Lemma preview_turn_from cfg index st_d st_r model_name st_r1 :
  path_exists (the_world st_d) (target_of cfg model_name)
  = path_exists (the_world st_r) (target_of cfg model_name) ->
  loop_body (with_dry_run false cfg) index st_r model_name = (Ok tt, st_r1) ->
  exists st_d1 row,
    loop_body (with_dry_run true cfg) index st_d model_name = (Ok tt, st_d1) /\
    report_rows st_r1 = report_rows st_r ++ [row] /\
    report_rows st_d1 = report_rows st_d ++ [relabel_row row] /\
    Model_Name row = model_name /\
    counts st_r1 = tally_for (Action row) (counts st_r) /\
    counts st_d1 = tally_for (Action row) (counts st_d) /\
    stdout (the_world st_r1) = stdout (the_world st_r) ++ [progress_line row] /\
    stdout (the_world st_d1)
    = stdout (the_world st_d) ++ [progress_line (relabel_row row)] /\
    fs (the_world st_d1) = fs (the_world st_d) /\
    writes (the_world st_d1) = writes (the_world st_d) /\
    (forall k, k <> resolve (target_of cfg model_name) ->
       fs (the_world st_r1) !! k = fs (the_world st_r) !! k).
Proof.
  intros Hex Hreal.
  destruct (sort_desc (score_all index model_name))
    as [| [[bp bn] bs] rest] eqn:Hs.
  { unfold loop_body in Hreal. rewrite Hs in Hreal. discriminate. }
  pose proof (loop_body_inv (with_dry_run false cfg) index st_r model_name
                bp bn bs rest Hs) as Hr.
  pose proof (loop_body_inv (with_dry_run true cfg) index st_d model_name
                bp bn bs rest Hs) as Hd.
  cbn zeta in Hr, Hd. rewrite Hreal in Hr.
  cbn [with_dry_run MIN_SCORE DRY_RUN] in Hr, Hd.
  change (target_of (with_dry_run true cfg) model_name)
    with (target_of cfg model_name) in Hd.
  change (target_of (with_dry_run false cfg) model_name)
    with (target_of cfg model_name) in Hr.
  rewrite Hex, spec_decision_relabel in Hd.
  destruct Hr as (Hrows & Hcounts & Hout & Hkeep_r & Hcopy_r).
  destruct (loop_body (with_dry_run true cfg) index st_d model_name)
    as [[[] | e] st_d1].
  2:{ destruct Hd as (Hact & _). now apply relabel_not_copied in Hact. }
  destruct Hd as (Hrows' & Hcounts' & Hout' & Hkeep & _).
  destruct (Hkeep (relabel_not_copied _)) as [Hfs Hwr].
  rewrite message_for_relabel in Hrows', Hout'.
  rewrite tally_for_relabel in Hcounts'.
  eexists st_d1, _. split; [reflexivity |]. split; [exact Hrows |].
  split; [exact Hrows' |]. split; [reflexivity |].
  split; [exact Hcounts |]. split; [exact Hcounts' |].
  split; [exact Hout |]. split; [exact Hout' |].
  split; [exact Hfs |]. split; [exact Hwr |].
  intros k Hk. cbn [Action].
  match type of Hkeep_r with
  | ?a <> COPIED -> _ => destruct (decide (a = COPIED)) as [Ha | Ha]
  end.
  - destruct (Hcopy_r Ha) as (data & _ & Hfs_r & _).
    rewrite Hfs_r. now apply lookup_insert_ne.
  - destruct (Hkeep_r Ha) as [Hfs_r _]. now rewrite Hfs_r.
Qed.

(** Over a list of names whose targets are pairwise distinct files, the
    preview follows the real run row by row. *)
Lemma preview_loop_agrees cfg index model_names :
  forall st_d st_r (done : list Path) st_r1,
    (forall k, k ∉ done ->
       fs (the_world st_d) !! k = fs (the_world st_r) !! k) ->
    Forall (fun n => resolve (target_of cfg n) ∉ done) model_names ->
    NoDup (map (fun n => resolve (target_of cfg n)) model_names) ->
    counts st_d = counts st_r ->
    loop (with_dry_run false cfg) index model_names st_r = (Ok tt, st_r1) ->
    exists st_d1 rows,
      loop (with_dry_run true cfg) index model_names st_d = (Ok tt, st_d1) /\
      report_rows st_r1 = report_rows st_r ++ rows /\
      report_rows st_d1 = report_rows st_d ++ map relabel_row rows /\
      map Model_Name rows = model_names /\
      counts st_d1 = counts st_r1 /\
      stdout (the_world st_r1)
      = stdout (the_world st_r) ++ map progress_line rows /\
      stdout (the_world st_d1)
      = stdout (the_world st_d) ++ map progress_line (map relabel_row rows) /\
      fs (the_world st_d1) = fs (the_world st_d) /\
      writes (the_world st_d1) = writes (the_world st_d).
Proof.
  induction model_names as [| name names IH];
    intros st_d st_r done st_r1 Hagree Hfresh Hnodup Hcounts Hloop.
  { cbn in Hloop. injection Hloop as <-. exists st_d, []. cbn.
    rewrite !app_nil_r. repeat split; auto. }
  cbn [loop] in Hloop.
  destruct (loop_body (with_dry_run false cfg) index st_r name)
    as [[[] | e] st_r0] eqn:Hbody; [| discriminate].
  apply Forall_cons in Hfresh as [Hname Hfresh].
  cbn [map] in Hnodup. apply NoDup_cons in Hnodup as [Hnew Hnodup].
  destruct (preview_turn_from cfg index st_d st_r name st_r0)
    as (st_d0 & row & Hd & Hrows_r & Hrows_d & Hmodel & Hc_r & Hc_d
        & Hout_r & Hout_d & Hfs_d & Hwr_d & Hfs_r); [| exact Hbody |].
  { unfold path_exists. now rewrite (Hagree _ Hname). }
  destruct (IH st_d0 st_r0 (resolve (target_of cfg name) :: done) st_r1)
    as (st_d1 & rows & Hl & Hrr & Hrd & Hmodels & Hcc & Hor & Hod & Hfs & Hwr);
    [| | exact Hnodup | congruence | exact Hloop |].
  { intros k Hk. apply not_elem_of_cons in Hk as [Hk1 Hk2].
    rewrite Hfs_d, (Hfs_r k Hk1). now apply Hagree. }
  { apply Forall_forall. intros n Hn. apply not_elem_of_cons. split.
    - intros Heq. apply Hnew. rewrite <- Heq.
      apply list_elem_of_In, in_map_iff. exists n. split; [reflexivity |].
      now apply list_elem_of_In.
    - rewrite Forall_forall in Hfresh. now apply Hfresh. }
  exists st_d1, (row :: rows). cbn [loop map]. rewrite Hd.
  split; [exact Hl |].
  split; [rewrite Hrr, Hrows_r, <- app_assoc; reflexivity |].
  split; [rewrite Hrd, Hrows_d, <- app_assoc; reflexivity |].
  split; [now rewrite Hmodel, Hmodels |].
  split; [exact Hcc |].
  split; [rewrite Hor, Hout_r, <- app_assoc; reflexivity |].
  split; [rewrite Hod, Hout_d, <- app_assoc; reflexivity |].
  split; congruence.
Qed.

End Resolver.

(** ** The sample run *)

Section Sample.
#[local] Existing Instance exact_fuzz.
#[local] Existing Instance sample_host.

Lemma sample_index_nonempty : sample_index <> [].
Proof. vm_compute. discriminate. Qed.

(** For the first name of the sample sheet the best candidate is the
    JPEG whose normalised stem equals the normalised name, and the real
    run copies it. *)
Lemma resolution_policy_witness :
  exists st' row,
    loop_body source_config sample_index sample_run "Iron Fang Pathfinder 01"
    = (Ok tt, st') /\
    report_rows st' = [row] /\ Action row = COPIED /\ Score row = 100 /\
    writes (the_world st')
    = [Copy ["ModelArtOld"; "iron_fang_pathfinder.jpg"]%string
            ["ModelArt"; "Iron Fang Pathfinder 01.png"]%string].
Proof.
  destruct (resolution_policy source_config sample_index sample_run
              "Iron Fang Pathfinder 01" sample_index_nonempty)
    as (_ & _ & _ & _ & best & rest & Hs & _ & Hrow & Hok).
  vm_compute in Hs. injection Hs as <- <-.
  destruct Hok as [st' Hst']; [intros _; reflexivity |].
  destruct (Hrow st' Hst') as ((row & Hrows & Hact & Hscore) & Hcopy & _).
  exists st', row.
  split; [exact Hst' |]. split; [exact Hrows |]. split; [exact Hact |].
  split; [exact Hscore |]. apply Hcopy. reflexivity.
Defined.

Lemma source_file_column_witness :
  exists st' row,
    loop_body source_config sample_index sample_run "Dragon" = (Ok tt, st') /\
    report_rows st' = [row] /\
    Action row = NO_MATCH /\ Source_File row = EmptyString.
Proof.
  pose (st' := snd (loop_body source_config sample_index sample_run "Dragon")).
  assert (Hbody : loop_body source_config sample_index sample_run "Dragon"
                  = (Ok tt, st')) by (vm_compute; reflexivity).
  destruct (source_file_column source_config sample_world sample_run "Dragon"
              st' Hbody)
    as (row & best & rest & Hrows & Hs & _ & Hno & Hsrc & _).
  vm_compute in Hs. injection Hs as <- <-.
  assert (Hact : Action row = NO_MATCH) by (apply Hno; reflexivity).
  exists st', row.
  split; [exact Hbody |]. split; [exact Hrows |]. split; [exact Hact |].
  apply Hsrc, Hact.
Defined.

(** The best candidate of the first name is a JPEG: its four bytes are
    what the copy puts under the [.png] name. *)
Lemma copy_keeps_bytes_under_png_name_witness :
  exists st',
    loop_body source_config sample_index sample_run "Iron Fang Pathfinder 01"
    = (Ok tt, st') /\
    fs (the_world st') !! ["ModelArt"; "Iron Fang Pathfinder 01.png"]%string
    = Some (File jpeg_bytes).
Proof.
  pose (st' := snd (loop_body source_config sample_index sample_run
                              "Iron Fang Pathfinder 01")).
  assert (Hbody : loop_body source_config sample_index sample_run
                            "Iron Fang Pathfinder 01" = (Ok tt, st'))
    by (vm_compute; reflexivity).
  destruct (copy_keeps_bytes_under_png_name source_config sample_index
              sample_run "Iron Fang Pathfinder 01" st' Hbody)
    as (row & best & rest & Hrows & Hs & _ & _ & Hcopy).
  vm_compute in Hs. injection Hs as <- <-.
  vm_compute in Hrows. injection Hrows as <-.
  destruct (Hcopy eq_refl) as (data & Hsrc & Hdst & _).
  vm_compute in Hsrc. injection Hsrc as <-.
  exists st'. split; [exact Hbody | exact Hdst].
Defined.

End Sample.

End MatcherProofs.

(** * Dry-run mode of the two scripts *)

Module DryRun.
Import Matcher.

Lemma save_fails_false {host : Squarer.Host} args src im sq thumb_img :
  Squarer.save_fails args src im sq thumb_img = false ->
  let rel := relative_to src (Squarer.in_dir_of args) in
  let sr := Squarer.square_root_of args in
  let tr := Squarer.thumbs_root_of args in
  (Squarer.need_square_write (Squarer.max_size args) (Squarer.width im)
                             (Squarer.height im) sq = true ->
   Squarer.save_error (Squarer.square_path_of args sr src rel) sq = None) /\
  Squarer.save_error (Squarer.thumb_path_of args sr tr src rel) thumb_img
  = None.
Proof.
  unfold Squarer.save_fails. intros Hf.
  apply orb_false_elim in Hf as [Hsq Hth].
  apply bool_decide_eq_false in Hth.
  split.
  - intros Hneed. rewrite Hneed in Hsq. cbn [andb] in Hsq.
    apply bool_decide_eq_false in Hsq.
    destruct (Squarer.save_error _ sq); [exfalso; apply Hsq; discriminate |].
    reflexivity.
  - destruct (Squarer.save_error _ thumb_img);
      [exfalso; apply Hth; discriminate | reflexivity].
Qed.

(** C5, as the code has it.

    The normaliser.  In dry-run mode it writes no file.  For a source
    file, what the dry run and the real run compute before they print or
    save is the same: when opening, the downscale or the thumbnail
    raises, both fail on the file with that exception; otherwise the dry
    run prints the line with the decision on the square output and the
    sizes of square and thumbnail, and the real run, when its saves
    succeed, prints nothing and writes just that: the square output
    when the line says so, and the thumbnail.  Over a whole run, the dry
    run fails on no more files than the real run, both end with the exit
    code 2 alike, and when no save fails they fail on as many files and
    end with the same exit code.

    The matcher.  In preview mode its loop asks nothing of the file
    system.  From the same state, a preview turn ends with the row of
    the real turn, its counters and its message, the action COPIED
    being named DRY_RUN_COPY, and prints the line of the real turn with
    the icon of the relabelled action.  Over all names the preview
    follows the real run in this way, row by row and line by line, when
    no two names have the same target file. *)
Theorem dry_run_by_design :
  (forall (host : Squarer.Host) (args : Squarer.Args),
     Squarer.dry_run args = true ->
     Squarer.written (snd (Squarer.main args)) = []) /\
  (forall (host : Squarer.Host) (args : Squarer.Args) src st,
     let sr := Squarer.square_root_of args in
     let tr := Squarer.thumbs_root_of args in
     let rel := relative_to src (Squarer.in_dir_of args) in
     let dry := Squarer.with_dry_run true args in
     let real := Squarer.with_dry_run false args in
     match Squarer.process args src with
     | Raise e =>
         Squarer.try_file dry sr tr src rel st = (Raise e, st) /\
         Squarer.try_file real sr tr src rel st = (Raise e, st)
     | Ok (im, sq, thumb_img) =>
         let need :=
           Squarer.need_square_write (Squarer.max_size args)
             (Squarer.width im) (Squarer.height im) sq in
         let square_path := Squarer.square_path_of args sr src rel in
         let thumb_path := Squarer.thumb_path_of args sr tr src rel in
         Squarer.try_file dry sr tr src rel st
         = (Ok tt,
            Squarer.count_changed
              (Squarer.print
                 (Squarer.DryRunLine rel
                    (if need
                     then Squarer.SquareChange
                            (Squarer.width im) (Squarer.height im)
                            (Squarer.width sq) (Squarer.height sq)
                     else Squarer.SquareSkip)
                    (Squarer.width thumb_img) (Squarer.height thumb_img))
                 st)) /\
         (Squarer.save_fails args src im sq thumb_img = false ->
          exists st',
            Squarer.try_file real sr tr src rel st = (Ok tt, st') /\
            Squarer.stdout st' = Squarer.stdout st /\
            Squarer.written st'
            = Squarer.written st
              ++ (if need
                  then [(square_path, Squarer.prepare square_path sq)]
                  else [])
              ++ [(thumb_path, Squarer.prepare thumb_path thumb_img)])
     end) /\
  (forall (host : Squarer.Host) (args : Squarer.Args),
     let dry := Squarer.main (Squarer.with_dry_run true args) in
     let real := Squarer.main (Squarer.with_dry_run false args) in
     (Squarer.failed (snd dry) <= Squarer.failed (snd real))%nat /\
     (fst dry = 2%Z <-> fst real = 2%Z) /\
     ((forall p img, Squarer.save_error p img = None) ->
      Squarer.failed (snd dry) = Squarer.failed (snd real) /\
      fst dry = fst real)) /\
  (forall (fuzz : Fuzz) (host : Host) cfg index model_names st,
     DRY_RUN cfg = true ->
     fs (the_world (snd (loop cfg index model_names st))) = fs (the_world st) /\
     writes (the_world (snd (loop cfg index model_names st)))
     = writes (the_world st)) /\
  (forall (fuzz : Fuzz) (host : Host) cfg index st model_name st_real,
     loop_body (with_dry_run false cfg) index st model_name = (Ok tt, st_real) ->
     exists st_dry row,
       loop_body (with_dry_run true cfg) index st model_name = (Ok tt, st_dry) /\
       report_rows st_real = report_rows st ++ [row] /\
       report_rows st_dry = report_rows st ++ [relabel_row row] /\
       counts st_dry = counts st_real /\
       stdout (the_world st_real)
       = stdout (the_world st)
         ++ [Progress (status_icon (Action row)) model_name (Message row)] /\
       stdout (the_world st_dry)
       = stdout (the_world st)
         ++ [Progress (status_icon (relabel (Action row))) model_name
                      (Message row)] /\
       fs (the_world st_dry) = fs (the_world st) /\
       writes (the_world st_dry) = writes (the_world st)) /\
  (forall (fuzz : Fuzz) (host : Host) cfg index model_names st st_real,
     NoDup (map (fun n => resolve (target_of cfg n)) model_names) ->
     loop (with_dry_run false cfg) index model_names st = (Ok tt, st_real) ->
     exists st_dry rows,
       loop (with_dry_run true cfg) index model_names st = (Ok tt, st_dry) /\
       report_rows st_real = report_rows st ++ rows /\
       report_rows st_dry = report_rows st ++ map relabel_row rows /\
       map Model_Name rows = model_names /\
       counts st_dry = counts st_real /\
       stdout (the_world st_real)
       = stdout (the_world st) ++ map progress_line rows /\
       stdout (the_world st_dry)
       = stdout (the_world st) ++ map progress_line (map relabel_row rows) /\
       fs (the_world st_dry) = fs (the_world st) /\
       writes (the_world st_dry) = writes (the_world st)).
Proof.
  split; [| split; [| split; [| split; [| split]]]].
  - intros host args. apply SquarerProofs.dry_run_writes_nothing.
  - intros host args src st sr tr rel dry real.
    change (Squarer.process args src) with (Squarer.process dry src) at 1.
    destruct (Squarer.process dry src) as [[[im sq] th] | e] eqn:Hp.
    + split.
      * apply (SquarerProofs.try_file_dry dry); [reflexivity | exact Hp].
      * intros Hsave.
        destruct (save_fails_false args src im sq th Hsave) as [Hsq Hth].
        eexists. split; [| split].
        -- apply (SquarerProofs.try_file_real real sr tr src rel st im sq th);
             [reflexivity | exact Hp | exact Hsq | exact Hth].
        -- reflexivity.
        -- reflexivity.
    + split; apply SquarerProofs.try_file_raise; exact Hp.
  - intros host args. apply SquarerProofs.dry_run_exit_code.
  - intros fuzz host cfg index model_names st Hdry.
    apply (MatcherProofs.preview_loop_writes_nothing cfg index model_names st Hdry).
  - intros fuzz host cfg index st model_name st_real.
    apply MatcherProofs.preview_turn.
  - intros fuzz host cfg index model_names st st_real Hnodup Hloop.
    apply (MatcherProofs.preview_loop_agrees cfg index model_names st st []
             st_real); auto.
    apply Forall_forall. intros n _. apply not_elem_of_nil.
Qed.

(** On the sample inputs: the normaliser writes nothing in its dry run,
    its real run writes the square and the thumbnail its dry run
    announces for [a.png], and both runs end with the same exit code;
    the preview of the matcher over the three
    names of the sheet copies nothing and reports the rows of the real
    run with COPIED renamed. *)
Lemma dry_run_by_design_witness :
  Squarer.written
    (snd (@Squarer.main Squarer.sample_host Squarer.sample_dry_args)) = [] /\
  (exists st',
     @Squarer.try_file Squarer.sample_host Squarer.sample_args
       ["Top Images (square)"]%string
       ["Top Images (square)"; "THUMBS"]%string
       ["Top Images"; "a.png"]%string ["a.png"]%string Squarer.initial
     = (Ok tt, st') /\
     Squarer.stdout st' = [] /\
     map fst (Squarer.written st')
     = [["Top Images (square)"; "a.png"];
        ["Top Images (square)"; "THUMBS"; "a.png"]]%string) /\
  fst (@Squarer.main Squarer.sample_host Squarer.sample_dry_args)
  = fst (@Squarer.main Squarer.sample_host Squarer.sample_args) /\
  writes (the_world (snd (@loop exact_fuzz sample_host dry_config sample_index
                                ["Iron Fang Pathfinder 01"; "Knight"; "Dragon"]%string
                                sample_run))) = [] /\
  (exists st_dry row,
     @loop_body exact_fuzz sample_host dry_config sample_index sample_run
                "Iron Fang Pathfinder 01" = (Ok tt, st_dry) /\
     Action row = COPIED /\ report_rows st_dry = [relabel_row row]) /\
  (exists st_dry,
     @loop exact_fuzz sample_host dry_config sample_index
           ["Iron Fang Pathfinder 01"; "Knight"; "Dragon"]%string sample_run
     = (Ok tt, st_dry) /\
     map Action (report_rows st_dry) = [DRY_RUN_COPY; DRY_RUN_COPY; NO_MATCH]).
Proof.
  destruct dry_run_by_design as (HA & Hfile & Hexit & HB & Hturn & Hrun).
  split; [apply HA; reflexivity |].
  split.
  { pose proof (Hfile Squarer.sample_host Squarer.sample_args
                  ["Top Images"; "a.png"]%string Squarer.initial) as H.
    cbn zeta in H.
    destruct (@Squarer.process Squarer.sample_host Squarer.sample_args
                ["Top Images"; "a.png"]%string) as [[[im sq] th] | e] eqn:Hp;
      [| vm_compute in Hp; discriminate].
    destruct H as [_ Hreal].
    destruct Hreal as (st' & Htry & Hout & Hwr).
    { unfold Squarer.save_fails. cbn. now rewrite andb_false_r. }
    exists st'. split; [exact Htry |]. split; [exact Hout |].
    rewrite Hwr. vm_compute in Hp. injection Hp as <- <- <-.
    vm_compute. reflexivity. }
  split.
  { destruct (Hexit Squarer.sample_host Squarer.sample_args) as (_ & _ & Hsame).
    destruct Hsame as [_ Hcode]; [reflexivity | exact Hcode]. }
  split; [apply (HB exact_fuzz sample_host dry_config); reflexivity |].
  split.
  { pose (st_real := snd (@loop_body exact_fuzz sample_host source_config
                            sample_index sample_run "Iron Fang Pathfinder 01")).
    destruct (Hturn exact_fuzz sample_host source_config sample_index sample_run
                "Iron Fang Pathfinder 01" st_real)
      as (st_dry & row & Hdry & Hreal & Hrows & _); [vm_compute; reflexivity |].
    vm_compute in Hreal. injection Hreal as <-.
    exists st_dry. eexists. split; [exact Hdry |]. split; [| exact Hrows].
    reflexivity. }
  pose (st_real := snd (@loop exact_fuzz sample_host source_config sample_index
                          ["Iron Fang Pathfinder 01"; "Knight"; "Dragon"]%string
                          sample_run)).
  destruct (Hrun exact_fuzz sample_host source_config sample_index
              ["Iron Fang Pathfinder 01"; "Knight"; "Dragon"]%string
              sample_run st_real)
    as (st_dry & rows & Hdry & Hreal & Hrows & _).
  { refine (bool_decide_unpack _ _). vm_compute. exact I. }
  { vm_compute. reflexivity. }
  exists st_dry. split; [exact Hdry |].
  rewrite Hrows. vm_compute in Hreal. rewrite <- Hreal. reflexivity.
Defined.

(** The claim as written fails by what the two scripts are written to
    do.  For the names [Knight] and [Knight ], which have the same target
    file, the real run of the matcher copies for the first and skips the
    second, the target existing by then, while the preview, which copies
    nothing, reports a copy for both; their lines differ as well.  The
    dry run of the normaliser prints other lines than its real run. *)
Lemma dry_run_differs_from_real_run :
  let names := ["Knight"; "Knight "]%string in
  let dry :=
    snd (@loop exact_fuzz sample_host dry_config sample_index names
               sample_run) in
  let real :=
    snd (@loop exact_fuzz sample_host source_config sample_index names
               sample_run) in
  map Action (report_rows real) = [COPIED; SKIPPED_EXISTS] /\
  map Action (report_rows dry) = [DRY_RUN_COPY; DRY_RUN_COPY] /\
  stdout (the_world dry) <> stdout (the_world real) /\
  Squarer.stdout (snd (@Squarer.main Squarer.sample_host Squarer.sample_dry_args))
  <> Squarer.stdout (snd (@Squarer.main Squarer.sample_host Squarer.sample_args)).
Proof.
  intros names dry real.
  split; [vm_compute; reflexivity |].
  split; [vm_compute; reflexivity |].
  split; vm_compute; discriminate.
Qed.

End DryRun.

(** * Name normalisation *)

Module NormaliseProofs.
Import Matcher.

(** ** Characters *)

Lemma lower_char_idem (c : ascii) : lower_char (lower_char c) = lower_char c.
Proof. destruct c as [[] [] [] [] [] [] [] []]; reflexivity. Qed.

Lemma newline_is_space (c : ascii) :
  Ascii.eqb c newline = true -> is_space c = true.
Proof. intros E. apply Ascii.eqb_eq in E. now subst c. Qed.

(** ** Splitting and stripping *)

Lemma span_app {A} (p : A -> bool) (l : list A) :
  l = fst (span p l) ++ snd (span p l).
Proof.
  induction l as [| x l IH]; cbn; [reflexivity |].
  destruct (p x); [| reflexivity].
  destruct (span p l) as [a b]. cbn in *. now rewrite <- IH.
Qed.

Lemma span_length {A} (p : A -> bool) (l : list A) :
  (length (fst (span p l)) + length (snd (span p l)) = length l)%nat.
Proof.
  rewrite (span_app p l) at 3. now rewrite length_app.
Qed.

Lemma span_stop {A} (p : A -> bool) (l : list A) :
  match l with
  | x :: _ => p x = false
  | [] => True
  end -> span p l = ([], l).
Proof.
  destruct l as [| x l]; cbn; [reflexivity |]. now intros ->.
Qed.

Lemma span_rest_head {A} (p : A -> bool) (l : list A) :
  match snd (span p l) with
  | x :: _ => p x = false
  | [] => True
  end.
Proof.
  induction l as [| x l IH]; cbn; [exact I |].
  destruct (p x) eqn:E; cbn; [| exact E].
  now destruct (span p l).
Qed.

Lemma lstrip_length (t : list ascii) : (length (lstrip t) <= length t)%nat.
Proof.
  unfold lstrip. pose proof (span_length is_space t). lia.
Qed.

Lemma lstrip_fixed (t : list ascii) :
  lstrip t = t <->
  match t with
  | c :: _ => is_space c = false
  | [] => True
  end.
Proof.
  split.
  - intros E. pose proof (span_rest_head is_space t) as Hh.
    fold (lstrip t) in Hh. now rewrite E in Hh.
  - intros Hh. unfold lstrip. now rewrite (span_stop _ _ Hh).
Qed.

Lemma lstrip_idem (t : list ascii) : lstrip (lstrip t) = lstrip t.
Proof. apply lstrip_fixed. apply (span_rest_head is_space t). Qed.

Lemma lstrip_snoc (t : list ascii) (c : ascii) :
  lstrip (t ++ [c])
  = match lstrip t with
    | [] => if is_space c then [] else [c]
    | _ :: _ => lstrip t ++ [c]
    end.
Proof.
  unfold lstrip. induction t as [| d t IH]; cbn.
  - now destruct (is_space c).
  - destruct (is_space d) eqn:E; [| reflexivity].
    destruct (span is_space (t ++ [c])) as [a b].
    destruct (span is_space t) as [a' b']. cbn in *. exact IH.
Qed.

Lemma rstrip_cons (c : ascii) (t : list ascii) :
  rstrip (c :: t)
  = match rstrip t with
    | [] => if is_space c then [] else [c]
    | _ :: _ => c :: rstrip t
    end.
Proof. reflexivity. Qed.

(** [rstrip] is the right half of [strip]. *)
Lemma rstrip_rev (t : list ascii) : rev (lstrip (rev t)) = rstrip t.
Proof.
  induction t as [| c t IH]; [reflexivity |].
  rewrite rstrip_cons, <- IH. cbn [rev]. rewrite lstrip_snoc.
  destruct (lstrip (rev t)) as [| d u] eqn:E; cbn [rev].
  - now destruct (is_space c).
  - rewrite rev_app_distr. cbn. destruct (rev u ++ [d]) eqn:E'; [| reflexivity].
    now apply app_eq_nil in E' as [_ ?].
Qed.

Lemma strip_rstrip (t : list ascii) : strip t = rstrip (lstrip t).
Proof. unfold strip. apply rstrip_rev. Qed.

Lemma rstrip_length (t : list ascii) : (length (rstrip t) <= length t)%nat.
Proof.
  induction t as [| c t IH]; [cbn; lia |].
  rewrite rstrip_cons. destruct (rstrip t); [destruct (is_space c) |]; cbn in *; lia.
Qed.

Lemma strip_length (t : list ascii) : (length (strip t) <= length t)%nat.
Proof.
  rewrite strip_rstrip.
  pose proof (rstrip_length (lstrip t)). pose proof (lstrip_length t). lia.
Qed.

Lemma rstrip_idem (t : list ascii) : rstrip (rstrip t) = rstrip t.
Proof.
  induction t as [| c t IH]; [reflexivity |].
  rewrite rstrip_cons. destruct (rstrip t) as [| d u] eqn:E.
  - destruct (is_space c) eqn:Ec; [reflexivity |]. cbn. now rewrite Ec.
  - rewrite rstrip_cons, IH. reflexivity.
Qed.

(** A text that does not start with white space still does not after
    [rstrip]. *)
Lemma lstrip_rstrip (t : list ascii) : lstrip t = t -> lstrip (rstrip t) = rstrip t.
Proof.
  rewrite !lstrip_fixed. destruct t as [| c t]; [auto |].
  intros Hc. rewrite rstrip_cons.
  destruct (rstrip t); [rewrite Hc |]; exact Hc.
Qed.

(** A text fixed by [rstrip] does not end with white space. *)
Lemma rstrip_fixed_last (t : list ascii) :
  rstrip t = t ->
  match rev t with
  | c :: _ => is_space c = false
  | [] => True
  end.
Proof.
  intros E. apply lstrip_fixed.
  rewrite <- rstrip_rev in E. apply (f_equal (@rev ascii)) in E.
  now rewrite rev_involutive in E.
Qed.

Lemma lstrip_cons (c : ascii) (t : list ascii) :
  lstrip (c :: t) = if is_space c then lstrip t else c :: t.
Proof.
  unfold lstrip. cbn. destruct (is_space c); [| reflexivity].
  now destruct (span is_space t).
Qed.

(** ** Single spacing *)

Lemma single_spaced_weaken (b : bool) (t : list ascii) :
  single_spaced b t = true -> single_spaced false t = true.
Proof.
  destruct t as [| c t]; cbn; [auto |].
  destruct (is_space c), b; cbn; auto.
  rewrite andb_false_r. discriminate.
Qed.

Lemma single_spaced_sub_runs (b : bool) (t : list ascii) :
  single_spaced b (sub_runs is_space b t) = true.
Proof.
  revert b. induction t as [| c t IH]; intros b; cbn; [reflexivity |].
  destruct (is_space c) eqn:E.
  - destruct b; [apply IH |]. cbn. apply IH.
  - cbn. rewrite E. apply IH.
Qed.

Lemma single_spaced_fixed (b : bool) (t : list ascii) :
  single_spaced b t = true -> sub_runs is_space b t = t.
Proof.
  revert b. induction t as [| c t IH]; intros b; cbn; [reflexivity |].
  destruct (is_space c) eqn:E.
  - intros Hs. apply andb_prop in Hs as [Hs Ht].
    apply andb_prop in Hs as [Hc Hb].
    apply Ascii.eqb_eq in Hc. destruct b; [discriminate |].
    subst c. now rewrite (IH true Ht).
  - intros Ht. now rewrite (IH false Ht).
Qed.

Lemma single_spaced_lstrip (t : list ascii) :
  single_spaced false t = true -> single_spaced false (lstrip t) = true.
Proof.
  induction t as [| c t IH]; [auto |]. rewrite lstrip_cons. cbn.
  destruct (is_space c) eqn:E; cbn; [| now rewrite E].
  intros Hs. apply andb_prop in Hs as [_ Ht].
  apply IH. eapply single_spaced_weaken, Ht.
Qed.

Lemma single_spaced_rstrip (b : bool) (t : list ascii) :
  single_spaced b t = true -> single_spaced b (rstrip t) = true.
Proof.
  revert b. induction t as [| c t IH]; intros b; [auto |].
  rewrite rstrip_cons. cbn [single_spaced].
  destruct (is_space c) eqn:E.
  - intros Hs. apply andb_prop in Hs as [Hcb Ht]. apply IH in Ht.
    destruct (rstrip t) as [| d u]; [reflexivity |].
    cbn [single_spaced]. rewrite E, Hcb. exact Ht.
  - intros Ht. apply IH in Ht.
    destruct (rstrip t) as [| d u]; cbn [single_spaced]; rewrite E; auto.
Qed.

(** ** What each step keeps *)

Section Keeps.
Variable P : ascii -> Prop.

Lemma Forall_span_fst (p : ascii -> bool) (l : list ascii) :
  Forall P l -> Forall P (fst (span p l)).
Proof.
  intros Hl. rewrite (span_app p l) in Hl. now apply Forall_app in Hl as [? _].
Qed.

Lemma Forall_span_snd (p : ascii -> bool) (l : list ascii) :
  Forall P l -> Forall P (snd (span p l)).
Proof.
  intros Hl. rewrite (span_app p l) in Hl. now apply Forall_app in Hl as [_ ?].
Qed.

Lemma Forall_final_newline (r : list ascii) :
  Forall P r -> Forall P (fst (final_newline r)) /\ Forall P (snd (final_newline r)).
Proof.
  destruct r as [| c r]; cbn; [auto |].
  intros Hr. apply Forall_cons in Hr as [Hc Hr].
  destruct (Ascii.eqb c newline); cbn; auto.
Qed.

Lemma Forall_strip_extension (t : list ascii) :
  Forall P t -> Forall P (strip_extension t).
Proof.
  intros Ht. unfold strip_extension.
  pose proof (Forall_final_newline (rev t) (Forall_rev Ht)) as [Hn Hb].
  destruct (final_newline (rev t)) as [nl body]. cbn [fst snd] in *.
  pose proof (Forall_span_snd is_az body Hb) as Hrest.
  destruct (span is_az body) as [letters rest]. cbn [snd] in Hrest.
  destruct rest as [| c before]; [exact Ht |].
  destruct (is_dot c && (2 <=? length letters)%nat && (length letters <=? 4)%nat);
    [| exact Ht].
  apply Forall_cons in Hrest as [_ Hbefore].
  apply Forall_app. split; [now apply Forall_rev | exact Hn].
Qed.

Lemma Forall_strip_number (t : list ascii) :
  Forall P t -> Forall P (strip_number t).
Proof.
  intros Ht. unfold strip_number.
  pose proof (Forall_final_newline (rev t) (Forall_rev Ht)) as [Hn Hb].
  destruct (final_newline (rev t)) as [nl body]. cbn [fst snd] in *.
  pose proof (Forall_span_snd is_digit body Hb) as Hrest.
  destruct (span is_digit body) as [digits rest]. cbn [snd] in Hrest.
  destruct digits; [exact Ht |].
  apply Forall_app. split; [| exact Hn].
  apply Forall_rev. now apply Forall_span_snd.
Qed.

Lemma Forall_sub_runs (p : ascii -> bool) (b : bool) (t : list ascii) :
  P blank -> Forall P t -> Forall P (sub_runs p b t).
Proof.
  intros Hblank Ht. revert b.
  induction Ht as [| c t Hc Ht IH]; intros b; cbn; [constructor |].
  destruct (p c); [destruct b |]; auto.
Qed.

Lemma Forall_lstrip (t : list ascii) : Forall P t -> Forall P (lstrip t).
Proof. apply Forall_span_snd. Qed.

Lemma Forall_rstrip (t : list ascii) : Forall P t -> Forall P (rstrip t).
Proof.
  induction 1 as [| c t Hc Ht IH]; [constructor |].
  rewrite rstrip_cons.
  destruct (rstrip t); [destruct (is_space c) |]; auto.
Qed.

End Keeps.

Lemma sub_runs_removes (p : ascii -> bool) (b : bool) (t : list ascii) :
  p blank = false -> Forall (fun c => p c = false) (sub_runs p b t).
Proof.
  intros Hblank. revert b. induction t as [| c t IH]; intros b; cbn; [constructor |].
  destruct (p c) eqn:E; [destruct b |]; auto.
Qed.

Lemma sub_runs_none (p : ascii -> bool) (b : bool) (t : list ascii) :
  Forall (fun c => p c = false) t -> sub_runs p b t = t.
Proof.
  intros Ht. revert b. induction Ht as [| c t Hc Ht IH]; intros b; cbn; [reflexivity |].
  now rewrite Hc, IH.
Qed.

Lemma sub_runs_length (p : ascii -> bool) (b : bool) (t : list ascii) :
  (length (sub_runs p b t) <= length t)%nat.
Proof.
  revert b. induction t as [| c t IH]; intros b; cbn; [lia |].
  destruct (p c); [destruct b |]; cbn;
    try pose proof (IH true); try pose proof (IH false); lia.
Qed.

Lemma final_newline_app (r : list ascii) :
  r = fst (final_newline r) ++ snd (final_newline r).
Proof.
  destruct r as [| c r]; cbn; [reflexivity |].
  now destruct (Ascii.eqb c newline).
Qed.

Lemma strip_number_length (t : list ascii) :
  (length (strip_number t) <= length t)%nat.
Proof.
  unfold strip_number.
  pose proof (f_equal (@length ascii) (final_newline_app (rev t))) as Hr.
  rewrite length_app, length_rev in Hr.
  destruct (final_newline (rev t)) as [nl body]. cbn [fst snd] in Hr.
  pose proof (span_length is_digit body) as Hd.
  destruct (span is_digit body) as [digits rest]. cbn [fst snd] in Hd.
  destruct digits; [lia |].
  pose proof (span_length is_sep rest).
  rewrite length_app, length_rev. lia.
Qed.

Lemma map_fixed (f : ascii -> ascii) (t : list ascii) :
  Forall (fun c => f c = c) t -> map f t = t.
Proof.
  induction 1 as [| c t Hc _ IH]; cbn; [reflexivity |]. now rewrite Hc, IH.
Qed.

(** ** The result of [normalise] *)

Lemma normalise_chars_normal (t : list ascii) : normal (normalise_chars t).
Proof.
  unfold normalise_chars.
  set (t1 := map lower_char t).
  set (t3 := strip_number (strip_extension t1)).
  set (t4 := sub_runs is_joiner false t3).
  set (t5 := sub_runs is_space false t4).
  assert (H1 : Forall (fun c => lower_char c = c) t1).
  { unfold t1. apply List.Forall_forall. intros c Hc.
    apply in_map_iff in Hc as (d & <- & _). apply lower_char_idem. }
  assert (H5 : Forall (fun c => lower_char c = c) t5).
  { unfold t5, t4, t3.
    repeat apply Forall_sub_runs; try reflexivity.
    now apply Forall_strip_number, Forall_strip_extension. }
  assert (J5 : Forall (fun c => is_joiner c = false) t5).
  { unfold t5. apply Forall_sub_runs; [reflexivity |].
    unfold t4. now apply sub_runs_removes. }
  assert (S5 : single_spaced false t5 = true) by apply single_spaced_sub_runs.
  rewrite strip_rstrip. unfold normal.
  split; [now apply Forall_rstrip, Forall_lstrip |].
  split; [now apply Forall_rstrip, Forall_lstrip |].
  split; [now apply single_spaced_rstrip, single_spaced_lstrip |].
  split; [apply lstrip_rstrip, lstrip_idem | apply rstrip_idem].
Qed.

(** A normal text does not end with a newline, so [$] can only match at
    its end. *)
Lemma final_newline_normal (y : list ascii) :
  normal y -> final_newline (rev y) = ([], rev y).
Proof.
  intros (_ & _ & _ & _ & Hr). apply rstrip_fixed_last in Hr.
  destruct (rev y) as [| c r]; cbn; [reflexivity |].
  destruct (Ascii.eqb c newline) eqn:E; [| reflexivity].
  apply newline_is_space in E. congruence.
Qed.

Lemma strip_extension_normal (y : list ascii) :
  normal y ->
  if ends_with_extension y
  then (length (strip_extension y) < length y)%nat
  else strip_extension y = y.
Proof.
  intros Hy. unfold strip_extension, ends_with_extension.
  rewrite (final_newline_normal y Hy).
  pose proof (span_length is_az (rev y)) as Hl. rewrite length_rev in Hl.
  destruct (span is_az (rev y)) as [letters rest]. cbn [fst snd] in Hl.
  destruct rest as [| c before]; [reflexivity |].
  destruct (is_dot c && (2 <=? length letters)%nat && (length letters <=? 4)%nat);
    [| reflexivity].
  rewrite app_nil_r, length_rev. cbn in Hl. lia.
Qed.

Lemma strip_number_normal (y : list ascii) :
  normal y ->
  if ends_with_digit y
  then (length (strip_number y) < length y)%nat
  else strip_number y = y.
Proof.
  intros Hy. unfold strip_number, ends_with_digit.
  rewrite (final_newline_normal y Hy).
  pose proof (span_length is_digit (rev y)) as Hl. rewrite length_rev in Hl.
  destruct (rev y) as [| c r] eqn:Er; [reflexivity |].
  cbn [span] in *. destruct (is_digit c).
  - destruct (span is_digit r) as [digits rest]. cbn [fst snd] in *.
    pose proof (span_length is_sep rest).
    rewrite app_nil_r, length_rev. cbn in Hl. lia.
  - reflexivity.
Qed.

Lemma tail_steps_length (t : list ascii) :
  (length (strip (sub_runs is_space false (sub_runs is_joiner false t)))
   <= length t)%nat.
Proof.
  pose proof (strip_length (sub_runs is_space false (sub_runs is_joiner false t))).
  pose proof (sub_runs_length is_space false (sub_runs is_joiner false t)).
  pose proof (sub_runs_length is_joiner false t).
  lia.
Qed.

Lemma tail_steps_normal (y : list ascii) :
  normal y -> strip (sub_runs is_space false (sub_runs is_joiner false y)) = y.
Proof.
  intros (_ & Hj & Hs & Hl & Hr).
  rewrite (sub_runs_none is_joiner false y Hj), (single_spaced_fixed false y Hs).
  rewrite strip_rstrip, Hl. exact Hr.
Qed.

(** On a normal text, [normalise] changes nothing unless the text ends
    with an extension or a digit, and then it makes the text shorter. *)
Lemma normalise_chars_on_normal (y : list ascii) :
  normal y ->
  if ends_with_extension y || ends_with_digit y
  then (length (normalise_chars y) < length y)%nat
  else normalise_chars y = y.
Proof.
  intros Hy. unfold normalise_chars.
  rewrite (map_fixed lower_char y (proj1 Hy)).
  pose proof (strip_extension_normal y Hy) as He.
  pose proof (strip_number_normal y Hy) as Hd.
  destruct (ends_with_extension y); cbn [orb].
  - pose proof (tail_steps_length (strip_number (strip_extension y))).
    pose proof (strip_number_length (strip_extension y)). lia.
  - rewrite He. destruct (ends_with_digit y).
    + pose proof (tail_steps_length (strip_number y)). lia.
    + rewrite Hd. now apply tail_steps_normal.
Qed.

Lemma chars_text (l : list ascii) : chars (text l) = l.
Proof. apply list_ascii_of_string_of_list_ascii. Qed.

Lemma chars_normalise (x : string) :
  chars (normalise x) = normalise_chars (chars x).
Proof. unfold normalise. apply chars_text. Qed.

Lemma normalise_twice (x : string) :
  normalise (normalise x) = normalise x <->
  normalise_chars (normalise_chars (chars x)) = normalise_chars (chars x).
Proof.
  unfold normalise at 1 3. rewrite chars_normalise. split.
  - intros E. apply (f_equal chars) in E. now rewrite !chars_text in E.
  - now intros ->.
Qed.

(** C2, as the code has it.  ["Knight_02.png"] normalises to ["knight"].
    Normalising a second time changes nothing exactly when the first
    result ends neither with an extension nor with a digit: one call
    strips one extension and one run of digits. *)
Theorem normalise_idempotent_iff :
  normalise "Knight_02.png" = "knight"%string /\
  forall x : string,
    normalise (normalise x) = normalise x <->
    ends_with_extension (chars (normalise x)) = false /\
    ends_with_digit (chars (normalise x)) = false.
Proof.
  split; [reflexivity |]. intros x.
  rewrite normalise_twice, chars_normalise.
  set (y := normalise_chars (chars x)).
  pose proof (normalise_chars_on_normal y (normalise_chars_normal (chars x))) as Hy.
  destruct (ends_with_extension y), (ends_with_digit y); cbn [orb] in Hy.
  1-3: split; [intros E; rewrite E in Hy; lia | intros [? ?]; discriminate].
  split; [auto | intros _; exact Hy].
Qed.

Lemma normalise_idempotent_iff_witness :
  normalise (normalise "Iron Fang Pathfinder 01")
  = normalise "Iron Fang Pathfinder 01".
Proof.
  apply (proj2 normalise_idempotent_iff). split; reflexivity.
Defined.

(** The claim as written fails: a second call strips the digits the
    first call left at the end. *)
Lemma normalise_not_idempotent :
  normalise "Knight_02_03.png" = "knight 02"%string /\
  normalise (normalise "Knight_02_03.png") = "knight"%string /\
  normalise (normalise "Knight_02_03.png") <> normalise "Knight_02_03.png".
Proof.
  split; [reflexivity |]. split; [reflexivity |]. vm_compute. discriminate.
Qed.

End NormaliseProofs.

(** * Further properties of the square/thumbnail normaliser *)

Module SquarerMore.
Import Squarer.

Local Open Scope Z_scope.

Section Transform.
Context {host : Host}.

(** The result of the crop is always a square of side [min w h], the
    crop box never reaches outside the image, and cropping a second time
    returns the same image. *)
Theorem centre_crop_square_inside (img : image) :
  let w := width img in
  let h := height img in
  let side := Z.min w h in
  let left := (w - side) / 2 in
  let top := (h - side) / 2 in
  size (centre_crop_square img) = (side, side) /\
  (0 <= left /\ left + side <= w) /\
  (0 <= top /\ top + side <= h) /\
  centre_crop_square (centre_crop_square img) = centre_crop_square img.
Proof.
  intros w h side left top.
  assert (Hw : 0 <= w - side) by (unfold side; lia).
  assert (Hh : 0 <= h - side) by (unfold side; lia).
  pose proof (SquarerProofs.half_margin _ Hw) as Mw.
  pose proof (SquarerProofs.half_margin _ Hh) as Mh.
  pose proof (Z.div_pos (w - side) 2 Hw ltac:(lia)) as Pw.
  pose proof (Z.div_pos (h - side) 2 Hh ltac:(lia)) as Ph.
  fold left in Mw, Pw. fold top in Mh, Ph.
  split; [| split; [split; [exact Pw | lia] | split; [split; [exact Ph | lia] |]]].
  - unfold centre_crop_square, size. fold w h.
    destruct (Z.eqb_spec w h) as [E | E]; cbn; fold w h side left top.
    + f_equal; unfold side; lia.
    + f_equal; lia.
  - pose proof (SquarerProofs.centre_crop_square_is_square img) as Hsq.
    unfold centre_crop_square at 1. unfold size.
    now rewrite (proj2 (Z.eqb_eq _ _) Hsq).
Qed.

(** With a positive maximum an image comes back that fits the maximum
    on both axes, whatever the input, and a second call returns it as it
    is.  With a negative maximum no image comes back: every picture, its
    sides not being negative, is handed to [img.resize], which raises. *)
Theorem maybe_resize_square_fits (img : image) (m : Z) :
  (0 < m ->
   exists out,
     maybe_resize_square img (Some m) = Ok out /\
     width out <= m /\ height out <= m /\
     maybe_resize_square out (Some m) = Ok out) /\
  (m < 0 -> 0 <= width img \/ 0 <= height img ->
   maybe_resize_square img (Some m) = Raise "ValueError").
Proof.
  unfold maybe_resize_square, resize, size. split.
  - intros Hm. rewrite (proj2 (Z.eqb_neq m 0)) by lia.
    destruct ((width img <=? m) && (height img <=? m)) eqn:Efit.
    + exists img. apply andb_prop in Efit as [Lw Lh].
      rewrite Lw, Lh. cbn. apply Z.leb_le in Lw, Lh.
      split; [reflexivity |]. split; [exact Lw |]. split; [exact Lh |].
      reflexivity.
    + rewrite (proj2 (Z.ltb_ge m 1)) by lia. cbn [orb].
      eexists. split; [reflexivity |]. cbn. rewrite Z.leb_refl. cbn.
      split; [lia |]. split; [lia | reflexivity].
  - intros Hm Hside. rewrite (proj2 (Z.eqb_neq m 0)) by lia.
    destruct (Z.leb_spec (width img) m) as [Lw | Lw];
      destruct (Z.leb_spec (height img) m) as [Lh | Lh]; cbn [andb];
      try lia; now rewrite (proj2 (Z.ltb_lt m 1)) by lia.
Qed.

Lemma maybe_resize_square_keeps_square (img : image) (max_size : option Z) sq :
  maybe_resize_square img max_size = Ok sq ->
  width img = height img -> width sq = height sq.
Proof.
  unfold maybe_resize_square, resize, size. intros Hr Hsq.
  destruct max_size as [m |]; [| now injection Hr as <-].
  destruct (m =? 0); [now injection Hr as <- |].
  destruct ((width img <=? m) && (height img <=? m));
    [now injection Hr as <- |].
  destruct ((m <? 1) || (m <? 1)); [discriminate |].
  injection Hr as <-. reflexivity.
Qed.

(** The flag [need_square_write] of the loop body is set exactly when
    the size changed; when it is not set, the image is the opened one. *)
Lemma need_square_write_spec (im : image) (max_size : option Z) sq :
  maybe_resize_square (centre_crop_square im) max_size = Ok sq ->
  if need_square_write max_size (width im) (height im) sq
  then size sq <> size im
  else sq = im.
Proof.
  intros Hr. unfold need_square_write.
  destruct (Z.eqb_spec (width im) (height im)) as [E | E]; cbn [negb orb].
  - assert (Hc : centre_crop_square im = im).
    { unfold centre_crop_square, size. now rewrite (proj2 (Z.eqb_eq _ _) E). }
    rewrite Hc in Hr. unfold maybe_resize_square, resize, size in Hr.
    destruct max_size as [m |]; cbn [andb];
      [| injection Hr as <-; rewrite andb_false_l; reflexivity].
    rewrite bool_decide_eq_true_2 by discriminate. cbn [andb].
    destruct (Z.eqb_spec m 0) as [E0 | E0].
    { injection Hr as <-. unfold size. cbn [fst]. now rewrite Z.eqb_refl. }
    destruct (Z.leb_spec (width im) m) as [Lw | Lw];
      destruct (Z.leb_spec (height im) m) as [Lh | Lh]; cbn [andb] in Hr;
      try lia.
    + injection Hr as <-. unfold size. cbn [fst]. now rewrite Z.eqb_refl.
    + destruct ((m <? 1) || (m <? 1)); [discriminate |].
      injection Hr as <-. unfold size. cbn.
      destruct (Z.eqb_spec m (width im)); [lia |]. cbn. intros [= ? ?]. lia.
  - pose proof (maybe_resize_square_keeps_square _ _ _ Hr
                  (SquarerProofs.centre_crop_square_is_square im)) as Hsq.
    unfold size. intros [= Hw Hh]. lia.
Qed.

End Transform.

Section Batch.
Context {host : Host}.

Lemma process_ok args src im sq thumb_img :
  exif_open src = Ok im ->
  maybe_resize_square (centre_crop_square im) (max_size args) = Ok sq ->
  make_thumbnail sq (thumb_size args) = Ok thumb_img ->
  process args src = Ok (im, sq, thumb_img).
Proof. unfold process. now intros -> -> ->. Qed.

(** In a real run on a file that opens, is downscaled and thumbnailed
    without an exception and saves without error, the square output is
    written exactly when the crop or the downscale changed the size;
    otherwise the image is the opened one, only the thumbnail is written
    and the file counts as skipped. *)
Theorem square_written_iff_size_changed args sr tr src rel st im sq thumb_img :
  dry_run args = false ->
  exif_open src = Ok im ->
  maybe_resize_square (centre_crop_square im) (max_size args) = Ok sq ->
  make_thumbnail sq (thumb_size args) = Ok thumb_img ->
  save_error (square_path_of args sr src rel) sq = None ->
  save_error (thumb_path_of args sr tr src rel) thumb_img = None ->
  let square :=
    (square_path_of args sr src rel,
     prepare (square_path_of args sr src rel) sq) in
  let thumb :=
    (thumb_path_of args sr tr src rel,
     prepare (thumb_path_of args sr tr src rel) thumb_img) in
  let st' := snd (try_file args sr tr src rel st) in
  fst (try_file args sr tr src rel st) = Ok tt /\
  failed st' = failed st /\ stdout st' = stdout st /\
  (size sq = size im ->
   sq = im /\ written st' = written st ++ [thumb] /\
   skipped st' = S (skipped st) /\ changed st' = changed st) /\
  (size sq <> size im ->
   written st' = written st ++ [square; thumb] /\
   changed st' = S (changed st) /\ skipped st' = skipped st).
Proof.
  intros Hdry Hopen Hresize Hthumb Hsq Hth square thumb st'.
  pose proof (need_square_write_spec im (max_size args) sq Hresize) as Hneed.
  subst st'.
  rewrite (SquarerProofs.try_file_real args sr tr src rel st im sq thumb_img
             Hdry (process_ok _ _ _ _ _ Hopen Hresize Hthumb)
             (fun _ => Hsq) Hth).
  cbn [fst snd failed stdout written changed skipped].
  destruct (need_square_write _ _ _ _).
  - split; [reflexivity |]. split; [reflexivity |]. split; [reflexivity |].
    split; [intros Hsame; contradiction | intros _; auto].
  - split; [reflexivity |]. split; [reflexivity |]. split; [reflexivity |].
    split; [intros _; auto |].
    intros Hne. exfalso. apply Hne. now rewrite Hneed.
Qed.

(** *** Counting *)

Lemma main_state (args : Args) :
  is_dir (in_dir_of args) = true ->
  inplace args && truthy (out args) = false ->
  let run := run_files args (iter_images (in_dir_of args)
                                         (negb (no_recursive args))) initial in
  let done := print (DoneLine (changed run) (skipped run) (failed run)) run in
  snd (main args)
  = if dry_run args then done
    else print (ThumbsRootLine (thumbs_root_of args))
               (print (SquareRootLine (square_root_of args)) done).
Proof.
  intros Hdir Hflags. unfold main. rewrite Hdir, Hflags. cbn [negb snd].
  unfold run_files. now destruct (dry_run args).
Qed.

(** Without a failing save, the block raises exactly when the
    processing does. *)
Lemma raises_is_process args src :
  dry_run args = true \/ (forall p img, save_error p img = None) ->
  raises args src = is_raise (process args src).
Proof.
  intros Hcase. rewrite SquarerProofs.raises_spec.
  destruct (process args src) as [[[im sq] th] | e]; [| reflexivity].
  destruct Hcase as [-> | Hsave]; [reflexivity |].
  unfold save_fails. rewrite !Hsave.
  rewrite (bool_decide_eq_false_2 (None <> None)) by congruence.
  now rewrite andb_false_r, andb_false_r.
Qed.

Lemma loop_body_dry args st src :
  dry_run args = true ->
  let st' := loop_body args (in_dir_of args) (square_root_of args)
                       (thumbs_root_of args) st src in
  skipped st' = skipped st /\
  changed st' = (changed st + bump (negb (is_raise (process args src))))%nat /\
  failed st' = (failed st + bump (is_raise (process args src)))%nat /\
  length (stdout st') = S (length (stdout st)).
Proof.
  intros Hdry. unfold loop_body.
  destruct (process args src) as [[[im sq] th] | e] eqn:Hp.
  - rewrite (SquarerProofs.try_file_dry args _ _ src _ st im sq th Hdry Hp).
    cbn. rewrite length_app. cbn. repeat split; lia.
  - rewrite (SquarerProofs.try_file_raise args _ _ src _ st e Hp).
    cbn. rewrite length_app. cbn. repeat split; lia.
Qed.

Lemma run_files_dry args files st :
  dry_run args = true ->
  let st' := run_files args files st in
  skipped st' = skipped st /\
  changed st'
  = (changed st
     + length (List.filter (fun f => negb (is_raise (process args f))) files))%nat /\
  failed st'
  = (failed st
     + length (List.filter (fun f => is_raise (process args f)) files))%nat /\
  length (stdout st') = (length (stdout st) + length files)%nat.
Proof.
  intros Hdry. revert st. induction files as [| src files IH]; intros st.
  - cbn. repeat split; lia.
  - destruct (loop_body_dry args st src Hdry) as (Hs & Hc & Hf & Hl).
    destruct (IH (loop_body args (in_dir_of args) (square_root_of args)
                            (thumbs_root_of args) st src))
      as (Hs' & Hc' & Hf' & Hl').
    unfold run_files in *. cbn [fold_left List.filter length].
    rewrite Hs', Hc', Hf', Hl', Hs, Hc, Hf, Hl.
    destruct (is_raise (process args src)); cbn; repeat split; lia.
Qed.

Lemma filter_partition_length {A} (p : A -> bool) (l : list A) :
  (length (List.filter (fun x => negb (p x)) l) + length (List.filter p l)
   = length l)%nat.
Proof.
  induction l as [| x l IH]; cbn; [reflexivity |].
  destruct (p x); cbn; lia.
Qed.

(** In dry-run mode every enumerated file gets one printed line and is
    counted once: as failed when opening it, the downscale or the
    thumbnail raises, and as written otherwise, whether or not a square
    would be written.  Nothing is counted as skipped, and the summary
    line is the last one. *)
Theorem dry_run_accounting (args : Args) :
  dry_run args = true ->
  is_dir (in_dir_of args) = true ->
  inplace args && truthy (out args) = false ->
  let files := iter_images (in_dir_of args) (negb (no_recursive args)) in
  let fails f := is_raise (process args f) in
  let st := snd (main args) in
  skipped st = 0%nat /\
  changed st = length (List.filter (fun f => negb (fails f)) files) /\
  failed st = length (List.filter fails files) /\
  (changed st + failed st = length files)%nat /\
  length (stdout st) = S (length files) /\
  List.last (stdout st) EitherInplaceOrOut
  = DoneLine (changed st) 0 (failed st) /\
  (forall f,
     fails f = true <->
     (exists e, exif_open f = Raise e) \/
     (exists im, exif_open f = Ok im /\
        ((exists e, maybe_resize_square (centre_crop_square im) (max_size args)
                    = Raise e) \/
         (exists sq e,
            maybe_resize_square (centre_crop_square im) (max_size args) = Ok sq /\
            make_thumbnail sq (thumb_size args) = Raise e)))).
Proof.
  intros Hdry Hdir Hflags files fails st. subst st.
  rewrite (main_state args Hdir Hflags), Hdry. fold files.
  destruct (run_files_dry args files initial Hdry) as (Hs & Hc & Hf & Hl).
  cbn in Hs, Hc, Hf, Hl. cbn [print skipped changed failed stdout].
  rewrite List.last_last, length_app, Hs, Hc, Hf, Hl. cbn [length].
  pose proof (filter_partition_length fails files) as H.
  fold fails.
  split; [reflexivity |]. split; [reflexivity |]. split; [reflexivity |].
  split; [exact H |]. split; [lia |]. split; [reflexivity |].
  intros f. unfold fails, process.
  destruct (exif_open f) as [im | e] eqn:Eo.
  2:{ split; [intros _; left; eauto | reflexivity]. }
  destruct (maybe_resize_square (centre_crop_square im) (max_size args))
    as [sq | e] eqn:Er.
  2:{ split; [| reflexivity]. intros _. right. exists im.
      split; [reflexivity |]. left. eauto. }
  destruct (make_thumbnail sq (thumb_size args)) as [th | e] eqn:Eth.
  - split; [discriminate |].
    intros [[e He] | (im' & Him & [[e He] | (sq' & e & Hsq & He)])].
    + discriminate.
    + injection Him as <-. congruence.
    + injection Him as <-. rewrite Er in Hsq. injection Hsq as <-. congruence.
  - split; [| reflexivity]. intros _. right. exists im.
    split; [reflexivity |]. right. exists sq, e. auto.
Qed.



End Batch.

(** *** Output paths *)

Lemma text_app (a b : list ascii) : text (a ++ b) = (text a ++ text b)%string.
Proof.
  unfold text. induction a as [| c a IH]; cbn; [reflexivity |]. now rewrite IH.
Qed.

Lemma string_app_empty_r (n : string) : (n ++ "")%string = n.
Proof.
  induction n as [| c n IH]; [reflexivity |].
  change (String c (n ++ "")%string = String c n). now rewrite IH.
Qed.

Lemma split_ext_round_trip (name : string) :
  (stem name ++ suffix name)%string = name.
Proof.
  unfold stem, suffix, split_ext.
  pose proof (NormaliseProofs.span_app (fun c => negb (is_dot c))
                (rev (chars name))) as Hsplit.
  pose proof (NormaliseProofs.span_rest_head (fun c => negb (is_dot c))
                (rev (chars name))) as Hhead.
  destruct (span (fun c => negb (is_dot c)) (rev (chars name))) as [ext rest].
  cbn [fst snd] in *.
  destruct rest as [| d [| b before]]; cbn [fst snd];
    try apply string_app_empty_r.
  destruct ext as [| e ext]; cbn [fst snd]; [apply string_app_empty_r |].
  apply negb_false_iff, Ascii.eqb_eq in Hhead. subst d.
  rewrite <- text_app.
  apply (f_equal (@rev ascii)) in Hsplit. rewrite rev_involutive in Hsplit.
  rewrite rev_app_distr in Hsplit.
  change (rev ("."%char :: b :: before))
    with (rev (b :: before) ++ ["."%char]) in Hsplit.
  rewrite <- app_assoc in Hsplit. cbn [app] in Hsplit.
  rewrite <- Hsplit. apply string_of_list_ascii_of_string.
Qed.

Lemma with_suffix_snoc (up : Path) (name sfx : string) :
  with_suffix (up ++ [name]) sfx = up ++ [(stem name ++ sfx)%string].
Proof.
  unfold with_suffix. rewrite rev_app_distr. cbn. now rewrite rev_involutive.
Qed.

Lemma path_name_snoc (up : Path) (name : string) : path_name (up ++ [name]) = name.
Proof. unfold path_name. apply List.last_last. Qed.

Section Paths.
Context {host : Host}.

Lemma thumb_path_with_format args sr tr src (up : Path) (name : string) :
  thumb_format args <> "same"%string ->
  thumb_path_of args sr tr src (up ++ [name])
  = tr ++ up ++ [(stem name ++ "." ++ thumb_format args)%string].
Proof.
  intros Hfmt. unfold thumb_path_of. rewrite app_assoc, with_suffix_snoc.
  rewrite <- app_assoc. apply String.eqb_neq in Hfmt. now rewrite Hfmt.
Qed.

(** The thumbnail path mirrors the relative path of the source under the
    thumbnails root: the folders and the stem are kept, and only the
    suffix is replaced by the chosen format; with the format [same] the
    file name is kept as it is. *)
Theorem thumb_path_mirrors_rel args sr tr src (up : Path) (name : string) :
  let rel := up ++ [name] in
  (thumb_format args <> "same"%string ->
   thumb_path_of args sr tr src rel
   = tr ++ up ++ [(stem name ++ "." ++ thumb_format args)%string]) /\
  (thumb_format args = "same"%string -> path_name src = name ->
   thumb_path_of args sr tr src rel = tr ++ rel).
Proof.
  intros rel. split; [apply thumb_path_with_format |].
  unfold thumb_path_of, rel. rewrite app_assoc, with_suffix_snoc.
  rewrite <- app_assoc.
  - intros Hfmt Hsrc.
    assert (Hn : path_name (square_path_of args sr src (up ++ [name])) = name).
    { unfold square_path_of. destruct (inplace args); cbn [negb]; [exact Hsrc |].
      rewrite app_assoc. apply path_name_snoc. }
    rewrite Hfmt, String.eqb_refl, Hn, split_ext_round_trip.
    now rewrite <- ?app_assoc.
Qed.

Lemma try_file_written_paths args sr tr src rel st :
  exists extra,
    written (snd (try_file args sr tr src rel st)) = written st ++ extra /\
    Forall (fun w => fst w = square_path_of args sr src rel \/
                     fst w = thumb_path_of args sr tr src rel) extra.
Proof.
  unfold try_file, save, save_image, size.
  destruct (exif_open src) as [im | e]; cbn [snd].
  2:{ exists []. rewrite app_nil_r. auto. }
  destruct (maybe_resize_square _ _) as [sq | e]; cbn [snd].
  2:{ exists []. rewrite app_nil_r. auto. }
  destruct (make_thumbnail _ _) as [th | e]; cbn [snd].
  2:{ exists []. rewrite app_nil_r. auto. }
  destruct (dry_run args); cbn.
  { exists []. rewrite app_nil_r. auto. }
  destruct (need_square_write _ _ _ _); cbn.
  - destruct (save_error (square_path_of args sr src rel) sq); cbn.
    + exists []. rewrite app_nil_r. auto.
    + destruct (save_error (thumb_path_of args sr tr src rel) th); cbn.
      * eexists. split; [reflexivity |].
        constructor; [left; reflexivity | constructor].
      * eexists. rewrite <- app_assoc. split; [reflexivity |].
        constructor; [left; reflexivity |].
        constructor; [right; reflexivity | constructor].
  - destruct (save_error (thumb_path_of args sr tr src rel) th); cbn.
    + exists []. rewrite app_nil_r. auto.
    + eexists. split; [reflexivity |].
      constructor; [right; reflexivity | constructor].
Qed.

Lemma square_path_under_root args src :
  in_dir_of args `prefix_of` src ->
  square_root_of args
    `prefix_of` square_path_of args (square_root_of args) src
                               (relative_to src (in_dir_of args)).
Proof.
  intros Hsrc. unfold square_path_of, square_root_of.
  destruct (inplace args); cbn [negb]; [exact Hsrc |].
  apply prefix_app_r. reflexivity.
Qed.

Lemma thumb_path_under_root args src rel :
  square_root_of args
    `prefix_of` thumb_path_of args (square_root_of args) (thumbs_root_of args)
                              src rel.
Proof.
  unfold thumb_path_of, thumbs_root_of, joinpath.
  set (sfx := if String.eqb _ _ then _ else _). clearbody sfx.
  rewrite <- app_assoc. cbn [app].
  destruct (exists_last (l := "THUMBS"%string :: rel) ltac:(discriminate))
    as (up & n & Hlast).
  rewrite Hlast, app_assoc, with_suffix_snoc, <- app_assoc.
  apply prefix_app_r. reflexivity.
Qed.

(** On its two paths to the exit code 2, the input folder not being a
    directory and [--inplace] coming with a non-empty [--out], [main]
    writes nothing.  Whatever it writes otherwise, it writes under the
    root of the square outputs, the thumbnails in its [THUMBS] folder
    included, provided the directory walk yields paths under the input
    folder.  That root is the input folder with [--inplace], the [--out]
    folder when one is given, and else the folder named by the text of
    the input folder, as pathlib prints it, followed by [ (square)]. *)
Theorem writes_stay_under_square_root (args : Args) :
  (is_dir (in_dir_of args) = false \/
   (inplace args = true /\ truthy (out args) = true) ->
   fst (main args) = 2 /\ written (snd (main args)) = []) /\
  ((forall src,
      In src (iter_images (in_dir_of args) (negb (no_recursive args))) ->
      in_dir_of args `prefix_of` src) ->
   forall p img, In (p, img) (written (snd (main args))) ->
                 square_root_of args `prefix_of` p) /\
  square_root_of args
  = (if inplace args then to_path (folder args)
     else match out args with
          | Some o =>
              if String.eqb o "" then
                to_path (path_str (to_path (folder args)) ++ " (square)")
              else to_path o
          | None => to_path (path_str (to_path (folder args)) ++ " (square)")
          end)%string.
Proof.
  split; [| split].
  { unfold main. intros [Hdir | [Hin Hout]].
    - rewrite Hdir. cbn. auto.
    - destruct (is_dir (in_dir_of args)); cbn [negb]; [| cbn; auto].
      rewrite Hin, Hout. cbn. auto. }
  2:{ unfold square_root_of, in_dir_of, truthy.
      destruct (inplace args); [reflexivity |].
      destruct (out args) as [o |]; [| reflexivity].
      destruct (String.eqb o ""); reflexivity. }
  intros Hwalk p img.
  destruct (is_dir (in_dir_of args)) eqn:Hdir.
  2:{ unfold main. rewrite Hdir. cbn. contradiction. }
  destruct (inplace args && truthy (out args)) eqn:Hflags.
  { unfold main. rewrite Hdir, Hflags. cbn. contradiction. }
  rewrite (main_state args Hdir Hflags).
  set (files := iter_images _ _) in *.
  assert (Hrun : forall fs st,
    (forall src, In src fs -> in_dir_of args `prefix_of` src) ->
    (forall q i, In (q, i) (written st) -> square_root_of args `prefix_of` q) ->
    forall q i, In (q, i) (written (run_files args fs st)) ->
                square_root_of args `prefix_of` q).
  { induction fs as [| src fs IH]; intros st Hfs Hst; [exact Hst |].
    unfold run_files in *. cbn [fold_left]. apply IH.
    - intros f Hf. apply Hfs. now right.
    - intros q i. unfold loop_body.
      destruct (try_file_written_paths args (square_root_of args)
                  (thumbs_root_of args) src
                  (relative_to src (in_dir_of args)) st) as (extra & Hw & Hex).
      assert (Hin : In (q, i) (written st ++ extra) ->
                    square_root_of args `prefix_of` q).
      { intros Hq. apply in_app_or in Hq as [Hq | Hq]; [eauto |].
        rewrite List.Forall_forall in Hex.
        destruct (Hex _ Hq) as [E | E]; cbn in E; subst q.
        - apply square_path_under_root, Hfs. now left.
        - apply thumb_path_under_root. }
      destruct (try_file _ _ _ _ _ st) as [[u | e] st1];
        cbn [snd] in Hw; cbn [print count_failed written]; now rewrite Hw. }
  intros Hin. apply (Hrun files initial Hwalk (fun _ _ H => match H with end) p img).
  destruct (dry_run args); exact Hin.
Qed.

Lemma chars_app (a b : string) : chars (a ++ b) = chars a ++ chars b.
Proof.
  unfold chars. induction a as [| c a IH]; [reflexivity |].
  change (c :: list_ascii_of_string (a ++ b)
          = c :: list_ascii_of_string a ++ list_ascii_of_string b).
  now rewrite IH.
Qed.

Lemma span_all_then_stop {A} (p : A -> bool) (a b : list A) :
  Forall (fun x => p x = true) a ->
  match b with
  | x :: _ => p x = false
  | [] => True
  end ->
  span p (a ++ b) = (a, b).
Proof.
  intros Ha Hb. induction Ha as [| x a Hx _ IH]; cbn.
  - now apply NormaliseProofs.span_stop.
  - now rewrite Hx, IH.
Qed.

(** The suffix of a stem followed by a dot and an extension without
    dots is that dot and extension. *)
Lemma suffix_of_appended (a e : string) :
  a <> EmptyString -> e <> EmptyString ->
  Forall (fun c => is_dot c = false) (chars e) ->
  suffix (a ++ "." ++ e) = ("." ++ e)%string.
Proof.
  intros Ha He Hdots. unfold suffix, split_ext.
  rewrite chars_app. change (chars ("." ++ e)) with ("."%char :: chars e).
  rewrite rev_app_distr. cbn [rev]. rewrite <- app_assoc. cbn [app].
  rewrite (span_all_then_stop _ (rev (chars e)) ("."%char :: rev (chars a))).
  - destruct (rev (chars a)) as [| b before] eqn:Ea.
    { apply (f_equal (@rev ascii)) in Ea. rewrite rev_involutive in Ea.
      cbn in Ea. destruct a; [contradiction | discriminate]. }
    destruct (rev (chars e)) as [| x ext] eqn:Ee.
    { apply (f_equal (@rev ascii)) in Ee. rewrite rev_involutive in Ee.
      cbn in Ee. destruct e; [contradiction | discriminate]. }
    cbn [snd]. rewrite <- Ee, rev_involutive.
    change (text ("."%char :: chars e)) with (String "." (text (chars e))).
    unfold text, chars. now rewrite string_of_list_ascii_of_string.
  - apply Forall_rev. eapply List.Forall_impl; [| exact Hdots].
    cbn. intros c Hc. now rewrite Hc.
  - reflexivity.
Qed.

Lemma stem_nonempty (name : string) : name <> EmptyString -> stem name <> EmptyString.
Proof.
  intros Hn. unfold stem, split_ext.
  destruct (span (fun c => negb (is_dot c)) (rev (chars name))) as [ext rest].
  destruct rest as [| d [| b before]]; cbn [fst]; try exact Hn.
  destruct ext as [| e ext]; cbn [fst]; [exact Hn |].
  intros E. apply (f_equal chars) in E. unfold chars, text in E.
  rewrite list_ascii_of_string_of_list_ascii in E.
  apply (f_equal (@length ascii)) in E. cbn in E.
  rewrite length_app in E. cbn in E. lia.
Qed.

(** The thumbnail format decides what is saved: a PNG or WebP thumbnail
    is saved as the image is, alpha included, whatever the source format;
    a JPEG thumbnail is flattened onto black when its mode has alpha and
    converted to RGB when its mode is another one. *)
Theorem thumbnail_format_decides_flattening args sr tr src (up : Path)
    (name : string) (img : image) :
  name <> EmptyString ->
  let thumb_path := thumb_path_of args sr tr src (up ++ [name]) in
  (thumb_format args = "png"%string \/ thumb_format args = "webp"%string ->
   prepare thumb_path img = img) /\
  (thumb_format args = "jpg"%string ->
   prepare thumb_path img
   = if bool_decide (mode img ∈ ["RGBA"; "LA"]%string) then flatten_on_black img
     else if bool_decide (mode img <> "RGB"%string) then convert_rgb img
     else img).
Proof.
  intros Hname thumb_path.
  pose proof (stem_nonempty name Hname) as Hstem.
  assert (Hsfx : forall fmt,
            thumb_format args = fmt -> fmt <> "same"%string ->
            fmt <> EmptyString ->
            Forall (fun c => is_dot c = false) (chars fmt) ->
            suffix (path_name thumb_path) = ("." ++ fmt)%string).
  { intros fmt Hfmt Hsame Hne Hdots.
    subst thumb_path.
    rewrite thumb_path_with_format by (rewrite Hfmt; exact Hsame).
    rewrite app_assoc, path_name_snoc, Hfmt.
    now apply suffix_of_appended. }
  split.
  - intros [Hfmt | Hfmt]; unfold prepare;
      rewrite (Hsfx _ Hfmt) by (try discriminate; repeat constructor);
      reflexivity.
  - intros Hfmt. unfold prepare.
    rewrite (Hsfx _ Hfmt) by (try discriminate; repeat constructor).
    reflexivity.
Qed.

End Paths.

Lemma thumbnail_format_decides_flattening_witness :
  let host := sample_host in
  let args :=
    {| folder := "Top Images"; out := None; inplace := false;
       no_recursive := false; max_size := None; thumb_size := 256;
       thumb_format := "png"; dry_run := false |} in
  let img := Image 60 60 "RGBA" (fun x y => [x; y; 0; 255]) in
  prepare (thumb_path_of args ["out"%string] ["out"; "THUMBS"]%string
                         ["Top Images"; "a.jpg"]%string ([] ++ ["a.jpg"%string]))
          img = img.
Proof.
  intros host args img.
  destruct (thumbnail_format_decides_flattening (host := host) args
              ["out"%string] ["out"; "THUMBS"]%string
              ["Top Images"; "a.jpg"]%string [] "a.jpg" img ltac:(discriminate))
    as [Hpng _].
  apply Hpng. left. reflexivity.
Defined.

Lemma thumb_path_mirrors_rel_witness :
  thumb_path_of sample_args ["out"%string] ["out"; "THUMBS"]%string
                ["Top Images"; "old"; "Knight.JPG"]%string
                (["old"%string] ++ ["Knight.JPG"%string])
  = ["out"; "THUMBS"; "old"; "Knight.JPG"]%string.
Proof.
  apply (thumb_path_mirrors_rel sample_args ["out"%string]
           ["out"; "THUMBS"]%string ["Top Images"; "old"; "Knight.JPG"]%string
           ["old"%string] "Knight.JPG"); reflexivity.
Defined.

(** With the folder given as [Top Images/], the root is
    [Top Images (square)] and everything is written under it; with a
    folder that does not exist nothing is written. *)
Lemma writes_stay_under_square_root_witness :
  let host := sample_host in
  let args :=
    {| folder := "Top Images/"; out := None; inplace := false;
       no_recursive := false; max_size := Some 50; thumb_size := 256;
       thumb_format := "same"; dry_run := false |} in
  let missing :=
    {| folder := "Nowhere"; out := None; inplace := false;
       no_recursive := false; max_size := Some 50; thumb_size := 256;
       thumb_format := "same"; dry_run := false |} in
  square_root_of args = ["Top Images (square)"%string] /\
  written (snd (main args)) <> [] /\
  Forall (fun w => ["Top Images (square)"%string] `prefix_of` fst w)
         (written (snd (main args))) /\
  fst (main missing) = 2 /\ written (snd (main missing)) = [].
Proof.
  intros host args missing.
  destruct (writes_stay_under_square_root (host := host) args)
    as (_ & Hunder & _).
  destruct (writes_stay_under_square_root (host := host) missing)
    as (Hnone & _ & _).
  split; [reflexivity |]. split; [vm_compute; discriminate |].
  split; [| apply Hnone; left; reflexivity].
  apply List.Forall_forall. intros [p img] Hin.
  apply Hunder with img.
  - intros src [<- | [<- | []]]; eexists; reflexivity.
  - exact Hin.
Defined.

Lemma square_written_iff_size_changed_witness :
  let host := sample_host in
  let st' := snd (try_file sample_args (square_root_of sample_args)
                           (thumbs_root_of sample_args)
                           ["Top Images"; "a.png"]%string ["a.png"%string]
                           initial) in
  changed st' = 1%nat /\ length (written st') = 2%nat.
Proof.
  intros host st'.
  destruct (square_written_iff_size_changed (host := host) sample_args
              (square_root_of sample_args) (thumbs_root_of sample_args)
              ["Top Images"; "a.png"]%string ["a.png"%string] initial
              (Image 100 60 "RGB" (fun x y => [x; y])) _ _
              eq_refl eq_refl eq_refl eq_refl eq_refl eq_refl)
    as (_ & _ & _ & _ & Hchanged).
  destruct Hchanged as (Hw & Hc & _); [cbn; discriminate |].
  subst st'. rewrite Hw, Hc. split; reflexivity.
Defined.

Lemma dry_run_accounting_witness :
  let host := sample_host in
  let st := snd (main sample_dry_args) in
  changed st = 1%nat /\ skipped st = 0%nat /\ failed st = 1%nat.
Proof.
  intros host st.
  destruct (dry_run_accounting (host := host) sample_dry_args
              eq_refl eq_refl eq_refl) as (Hs & Hc & Hf & _).
  subst st. rewrite Hs, Hc, Hf. repeat split; reflexivity.
Defined.

(** With [--dry-run --max-size -5] both files of the folder are counted
    as failed, the picture because its downscale raises. *)
Lemma dry_run_with_negative_max_size :
  let host := sample_host in
  let args :=
    {| folder := "Top Images"; out := None; inplace := false;
       no_recursive := false; max_size := Some (-5); thumb_size := 256;
       thumb_format := "same"; dry_run := true |} in
  changed (snd (main args)) = 0%nat /\ failed (snd (main args)) = 2%nat /\
  fst (main args) = 1.
Proof. intros host args. repeat split. Qed.


Lemma maybe_resize_square_fits_witness :
  let host := sample_host in
  let img := Image 100 60 "RGB" (fun x y => [x; y]) in
  (exists out,
     maybe_resize_square img (Some 80) = Ok out /\
     width out <= 80 /\ height out <= 80) /\
  maybe_resize_square img (Some (-5)) = Raise "ValueError".
Proof.
  intros host img.
  destruct (maybe_resize_square_fits (host := host) img 80) as [Hpos _].
  destruct (maybe_resize_square_fits (host := host) img (-5)) as [_ Hneg].
  split.
  - destruct (Hpos ltac:(lia)) as (out & Hout & Hw & Hh & _).
    exists out. auto.
  - apply Hneg; [lia | left; cbn; lia].
Defined.

End SquarerMore.

(** * Further properties of the fuzzy image matcher *)

Module MatcherMore.
Import Matcher.

Local Open Scope Z_scope.

(** ** Names *)

Lemma filter_fixed {A} (p : A -> bool) (l : list A) :
  Forall (fun x => p x = true) l -> List.filter p l = l.
Proof.
  induction 1 as [| x l Hx _ IH]; cbn; [reflexivity |]. now rewrite Hx, IH.
Qed.

Lemma Forall_filter_true {A} (p : A -> bool) (l : list A) :
  Forall (fun x => p x = true) (List.filter p l).
Proof.
  apply List.Forall_forall. intros x Hx. now apply filter_In in Hx.
Qed.

(** The file name stem made from a model name holds none of the
    characters [safe_filename] deletes, the two path separators among
    them; its white space is single blanks, none at either end; and
    sanitising it again changes nothing. *)
Theorem safe_filename_clean (name : string) :
  let t := chars (safe_filename name) in
  Forall (fun c => is_illegal c = false) t /\
  ~ In "/"%char t /\ ~ In "\"%char t /\
  single_spaced false t = true /\ lstrip t = t /\ rstrip t = t /\
  safe_filename (safe_filename name) = safe_filename name.
Proof.
  intros t. subst t.
  set (legal := List.filter (fun c => negb (is_illegal c)) (chars name)).
  set (y := strip (sub_runs is_space false legal)).
  assert (Hy : chars (safe_filename name) = y)
    by (unfold safe_filename; apply NormaliseProofs.chars_text).
  rewrite !Hy.
  assert (Hlegal : Forall (fun c => is_illegal c = false) y).
  { unfold y. rewrite NormaliseProofs.strip_rstrip.
    apply NormaliseProofs.Forall_rstrip, NormaliseProofs.Forall_lstrip.
    apply NormaliseProofs.Forall_sub_runs; [reflexivity |].
    eapply List.Forall_impl; [| apply Forall_filter_true].
    cbn. intros c Hc. now apply negb_true_iff in Hc. }
  assert (Hs : single_spaced false y = true).
  { unfold y. rewrite NormaliseProofs.strip_rstrip.
    apply NormaliseProofs.single_spaced_rstrip,
          NormaliseProofs.single_spaced_lstrip,
          NormaliseProofs.single_spaced_sub_runs. }
  assert (Hl : lstrip y = y).
  { unfold y. rewrite NormaliseProofs.strip_rstrip.
    apply NormaliseProofs.lstrip_rstrip, NormaliseProofs.lstrip_idem. }
  assert (Hr : rstrip y = y).
  { unfold y. rewrite NormaliseProofs.strip_rstrip.
    apply NormaliseProofs.rstrip_idem. }
  rewrite List.Forall_forall in Hlegal.
  split; [now apply List.Forall_forall |].
  split; [intros Hin; now apply Hlegal in Hin |].
  split; [intros Hin; now apply Hlegal in Hin |].
  split; [exact Hs |]. split; [exact Hl |]. split; [exact Hr |].
  unfold safe_filename at 1. rewrite Hy. unfold safe_filename. fold legal y.
  f_equal. rewrite filter_fixed.
  - rewrite (NormaliseProofs.single_spaced_fixed false y Hs).
    rewrite NormaliseProofs.strip_rstrip, Hl. exact Hr.
  - apply List.Forall_forall. intros c Hc. now rewrite (Hlegal c Hc).
Qed.

Lemma strip_extension_length (t : list ascii) :
  (length (strip_extension t) <= length t)%nat.
Proof.
  unfold strip_extension.
  pose proof (f_equal (@length ascii) (NormaliseProofs.final_newline_app (rev t)))
    as Hr.
  rewrite length_app, length_rev in Hr.
  destruct (final_newline (rev t)) as [nl body]. cbn [fst snd] in Hr.
  pose proof (NormaliseProofs.span_length is_az body) as Hd.
  destruct (span is_az body) as [letters rest]. cbn [fst snd] in Hd.
  destruct rest as [| c before]; [lia |].
  destruct (is_dot c && (2 <=? length letters)%nat && (length letters <=? 4)%nat);
    [| lia].
  rewrite length_app, length_rev. cbn in Hd. lia.
Qed.

Lemma text_length (l : list ascii) : String.length (text l) = length l.
Proof. unfold text. induction l as [| c l IH]; cbn; [reflexivity |]. now f_equal. Qed.

Lemma string_length_chars (s : string) : String.length s = length (chars s).
Proof.
  rewrite <- (string_of_list_ascii_of_string s) at 1. apply text_length.
Qed.

(** A normalised name is in lower case, holds no underscore and no
    hyphen, has single blanks as its only white space and none at either
    end, and is never longer than the name in lower case, the steps
    after the lowering only deleting characters or putting one blank
    for a run of them; and names that differ only in case normalise to
    the same text. *)
Theorem normalise_shape (x : string) :
  normal (chars (normalise x)) /\
  (String.length (normalise x) <= String.length (lower x))%nat /\
  (forall y, lower x = lower y -> normalise x = normalise y).
Proof.
  split; [| split].
  - rewrite NormaliseProofs.chars_normalise.
    apply NormaliseProofs.normalise_chars_normal.
  - unfold normalise, lower. rewrite !text_length.
    unfold normalise_chars.
    pose proof (NormaliseProofs.tail_steps_length
                  (strip_number (strip_extension (map lower_char (chars x))))).
    pose proof (NormaliseProofs.strip_number_length
                  (strip_extension (map lower_char (chars x)))).
    pose proof (strip_extension_length (map lower_char (chars x))).
    rewrite length_map in *. lia.
  - intros y Hxy. unfold lower in Hxy.
    apply (f_equal chars) in Hxy. rewrite !NormaliseProofs.chars_text in Hxy.
    unfold normalise, normalise_chars. now rewrite Hxy.
Qed.

(** ** One turn of the resolver, again *)

Section Resolver.
Context {fuzz : Fuzz} {host : Host}.

Lemma score_at_least_ratio (a b ra rb : string) : ratio a b <= score a b ra rb.
Proof. rewrite MatcherProofs.score_unfold. lia. Qed.

Lemma score_at_most_100 (a b ra rb : string) :
  metrics_in_range -> score a b ra rb <= 100.
Proof.
  intros Hr. rewrite MatcherProofs.score_unfold.
  pose proof (Hr a b) as (? & ? & ? & ?).
  pose proof (Hr (lower ra) (lower rb)) as (? & _).
  lia.
Qed.

(** When the metrics lie in 0..100 and [ratio] gives 100 on equal
    strings, an image whose normalised stem equals the normalised model
    name makes the best score 100, so the name is matched whenever the
    threshold is at most 100. *)
Theorem exact_match_is_found cfg index st model_name st' (p : Path) :
  metrics_in_range ->
  (forall a, ratio a a = 100) ->
  In (p, normalise model_name) index ->
  MIN_SCORE cfg <= 100 ->
  loop_body cfg index st model_name = (Ok tt, st') ->
  exists row,
    report_rows st' = report_rows st ++ [row] /\
    Score row = 100 /\ Action row <> NO_MATCH.
Proof.
  intros Hrange Hrefl Hin Hmin Hbody.
  destruct (sort_desc (score_all index model_name))
    as [| [[bp bn] bs] rest] eqn:Hs.
  { unfold loop_body in Hbody. rewrite Hs in Hbody. discriminate. }
  pose proof (MatcherProofs.loop_body_inv cfg index st model_name bp bn bs rest Hs)
    as Hinv.
  cbn zeta in Hinv. rewrite Hbody in Hinv. destruct Hinv as (Hrows & _).
  assert (Hbs : bs = 100).
  { assert (Hup : bs <= 100).
    { assert (Hb : In (bp, bn, bs) (score_all index model_name)).
      { eapply Permutation_in; [apply MatcherProofs.sort_desc_perm |].
        rewrite Hs. now left. }
      unfold score_all in Hb. apply in_map_iff in Hb as ([q n] & [= _ _ <-] & _).
      apply score_at_most_100, Hrange. }
    destruct (MatcherProofs.sort_desc_head _ _ _ Hs) as (pre & post & Hc & Hpre & Hpost).
    assert (Hm : In (p, normalise model_name,
                     score (normalise model_name) (normalise model_name)
                           model_name (stem (path_name p)))
                    (score_all index model_name)).
    { unfold score_all. apply in_map_iff. exists (p, normalise model_name). auto. }
    pose proof (score_at_least_ratio (normalise model_name) (normalise model_name)
                  model_name (stem (path_name p))) as Hlow.
    rewrite Hrefl in Hlow.
    rewrite Hc in Hm. rewrite List.Forall_forall in Hpre, Hpost.
    apply in_app_or in Hm as [Hm | [Hm | Hm]].
    - apply Hpre in Hm. cbn [key snd] in Hm. lia.
    - injection Hm as _ _ Hm. lia.
    - apply Hpost in Hm. cbn [key snd] in Hm. lia. }
  eexists. split; [exact Hrows |]. cbn [Score Action]. split; [exact Hbs |].
  rewrite MatcherProofs.spec_decision_no_match. lia.
Qed.

Lemma StronglySorted_take {A} (R : A -> A -> Prop) (n : nat) (l : list A) :
  StronglySorted R l -> StronglySorted R (take n l).
Proof.
  intros Hl. revert n. induction Hl as [| x l Hl IH Hx]; intros [| n]; cbn;
    try constructor; [apply IH |].
  rewrite List.Forall_forall in *. intros y Hy. apply Hx.
  revert Hy. clear. revert n. induction l as [| z l IH]; intros [| n]; cbn; try tauto.
  intros [-> | Hy]; [now left | right; eauto].
Qed.

Lemma StronglySorted_map {A B} (f : A -> B) (R : B -> B -> Prop) (l : list A) :
  StronglySorted (fun x y => R (f x) (f y)) l -> StronglySorted R (map f l).
Proof.
  induction 1 as [| x l _ IH Hx]; cbn; constructor; [exact IH |].
  apply List.Forall_map. exact Hx.
Qed.

(** The top candidates of a row are the first three entries of the
    ranking, the candidates sorted by score, or all of them when the
    folder has fewer images, each with its file name and its score: the
    first one is the best candidate with the score of the row, it is the
    source file of every row that is not NO_MATCH, and the scores never
    increase. *)
Theorem top_3_candidates cfg index st model_name st' :
  loop_body cfg index st model_name = (Ok tt, st') ->
  let ranking := sort_desc (score_all index model_name) in
  exists row,
    report_rows st' = report_rows st ++ [row] /\
    Top_3_Candidates row
    = map (fun c => (path_name (fst (fst c)), key c)) (take 3 ranking) /\
    length (Top_3_Candidates row) = Nat.min 3 (length index) /\
    (exists best rest,
       ranking = best :: rest /\
       Score row = key best /\
       hd_error (Top_3_Candidates row)
       = Some (path_name (fst (fst best)), Score row) /\
       (Action row <> NO_MATCH ->
        Source_File row = path_name (fst (fst best)))) /\
    StronglySorted (fun a b => snd b <= snd a) (Top_3_Candidates row).
Proof.
  intros Hbody ranking. subst ranking.
  destruct (sort_desc (score_all index model_name))
    as [| [[bp bn] bs] rest] eqn:Hs.
  { unfold loop_body in Hbody. rewrite Hs in Hbody. discriminate. }
  pose proof (MatcherProofs.loop_body_inv cfg index st model_name bp bn bs rest Hs)
    as Hinv.
  cbn zeta in Hinv. rewrite Hbody in Hinv. destruct Hinv as (Hrows & _).
  pose proof (f_equal (@length candidate) Hs) as Hlen.
  rewrite (Permutation_length (MatcherProofs.sort_desc_perm _)) in Hlen.
  unfold score_all in Hlen. rewrite length_map in Hlen.
  eexists. split; [exact Hrows |].
  cbn [Top_3_Candidates Score Action Source_File].
  assert (Hmap : forall l : list candidate,
            map (fun '(p, _, s) => (path_name p, s)) l
            = map (fun c => (path_name (fst (fst c)), key c)) l).
  { intros l. apply map_ext. intros [[p n] k]. reflexivity. }
  rewrite Hmap.
  split; [reflexivity |]. split; [| split].
  - rewrite length_map, length_take. unfold candidate in Hlen.
    rewrite <- Hlen. reflexivity.
  - exists (bp, bn, bs), rest. split; [reflexivity |].
    split; [reflexivity |]. split; [reflexivity |].
    rewrite MatcherProofs.spec_decision_no_match. cbn [fst].
    destruct (Z.leb_spec (MIN_SCORE cfg) bs); [reflexivity | lia].
  - pose proof (MatcherProofs.sort_desc_sorted (score_all index model_name)) as Hsorted.
    rewrite Hs in Hsorted.
    apply StronglySorted_map, (StronglySorted_take _ 3).
    eapply StronglySorted_ind with (P := fun l => StronglySorted _ l);
      [constructor | | exact Hsorted].
    intros [[p1 n1] s1] l _ IH Hall. constructor; [exact IH |].
    eapply List.Forall_impl; [| exact Hall]. intros [[p2 n2] s2]. cbn. auto.
Qed.

(** After a turn that copied, the same name is settled: a second turn
    for it, with the same image index, reports SKIPPED_EXISTS for the
    same source and score, and changes nothing in the file system. *)
Theorem repeated_turn_skips cfg index st model_name st1 row :
  loop_body cfg index st model_name = (Ok tt, st1) ->
  report_rows st1 = report_rows st ++ [row] ->
  Action row = COPIED ->
  exists st2 row2,
    loop_body cfg index st1 model_name = (Ok tt, st2) /\
    report_rows st2 = report_rows st1 ++ [row2] /\
    Action row2 = SKIPPED_EXISTS /\
    Source_File row2 = Source_File row /\ Score row2 = Score row /\
    fs (the_world st2) = fs (the_world st1) /\
    writes (the_world st2) = writes (the_world st1).
Proof.
  intros Hbody Hrow Hact.
  destruct (sort_desc (score_all index model_name))
    as [| [[bp bn] bs] rest] eqn:Hs.
  { unfold loop_body in Hbody. rewrite Hs in Hbody. discriminate. }
  pose proof (MatcherProofs.loop_body_inv cfg index st model_name bp bn bs rest Hs)
    as Hinv.
  pose proof (MatcherProofs.loop_body_inv cfg index st1 model_name bp bn bs rest Hs)
    as Hinv1.
  cbn zeta in Hinv, Hinv1. rewrite Hbody in Hinv.
  destruct Hinv as (Hrows & _ & _ & _ & Hcopy).
  rewrite Hrow in Hrows. apply app_inj_tail in Hrows as [_ ->].
  cbn [Action Source_File Score] in *.
  destruct (Hcopy Hact) as (data & Hsrc & Hfs & _).
  apply MatcherProofs.spec_decision_copied in Hact as (Hmin & Hex & Hdry).
  apply MatcherProofs.path_exists_false in Hex.
  assert (Hex1 : path_exists (the_world st1) (target_of cfg model_name) = true).
  { unfold path_exists. apply bool_decide_eq_true.
    rewrite Hfs, lookup_insert_eq. eauto. }
  assert (Hdiff : bool_decide (resolve (target_of cfg model_name) = resolve bp)
                  = false).
  { apply bool_decide_eq_false. intros E. rewrite E in Hex. congruence. }
  assert (Hdec : spec_decision (MIN_SCORE cfg) (DRY_RUN cfg) bs
                   (path_exists (the_world st1) (target_of cfg model_name))
                   (bool_decide (resolve (target_of cfg model_name) = resolve bp))
                 = SKIPPED_EXISTS).
  { unfold spec_decision. rewrite Hex1, Hdiff.
    destruct (Z.ltb_spec bs (MIN_SCORE cfg)); [lia | reflexivity]. }
  rewrite Hdec in Hinv1.
  destruct (loop_body cfg index st1 model_name) as [[[] | e] st2].
  - destruct Hinv1 as (Hrows2 & _ & _ & Hkeep & _).
    destruct (Hkeep ltac:(discriminate)) as [Hfs2 Hwr2].
    eexists st2, _. split; [reflexivity |]. split; [exact Hrows2 |].
    cbn [Action Source_File Score]. auto.
  - destruct Hinv1 as (Habs & _). discriminate.
Qed.

Lemma settled_turn cfg index st model_name st1 :
  loop_body cfg index st model_name = (Ok tt, st1) ->
  settled cfg index (the_world st1) model_name.
Proof.
  intros Hbody [[bp bn] bs] rest Hs.
  pose proof (MatcherProofs.loop_body_inv cfg index st model_name bp bn bs rest Hs)
    as Hinv.
  cbn zeta in Hinv. rewrite Hbody in Hinv.
  destruct Hinv as (_ & _ & _ & Hkeep & Hcopy). cbn [key fst snd].
  match type of Hcopy with
  | ?a = COPIED -> _ => destruct (decide (a = COPIED)) as [Ec | Ec]
  end.
  - destruct (Hcopy Ec) as (data & _ & Hfs & _).
    intros Hc. apply MatcherProofs.spec_decision_copied in Hc as (_ & Hex & _).
    apply MatcherProofs.path_exists_false in Hex.
    rewrite Hfs, lookup_insert_eq in Hex. discriminate.
  - destruct (Hkeep Ec) as [Hfs _].
    unfold path_exists in *. rewrite Hfs. exact Ec.
Qed.

Lemma settled_grows cfg index allowed (w w' : world) model_name :
  grows allowed w w' ->
  settled cfg index w model_name -> settled cfg index w' model_name.
Proof.
  intros [Hkeep _] Hset best rest Hs Hc.
  apply (Hset best rest Hs).
  apply MatcherProofs.spec_decision_copied in Hc as (Hmin & Hex & Hdry).
  apply MatcherProofs.path_exists_false in Hex.
  assert (Hex0 : path_exists w (target_of cfg model_name) = false).
  { apply MatcherProofs.path_exists_false.
    destruct (fs w !! resolve (target_of cfg model_name)) as [n |] eqn:E;
      [| reflexivity].
    apply Hkeep in E. congruence. }
  unfold spec_decision. rewrite Hex0, Hdry.
  destruct (Z.ltb_spec (key best) (MIN_SCORE cfg)); [lia | reflexivity].
Qed.

Lemma settled_after_loop cfg index model_names st st1 :
  loop cfg index model_names st = (Ok tt, st1) ->
  Forall (settled cfg index (the_world st1)) model_names.
Proof.
  revert st. induction model_names as [| model_name rest IH]; intros st;
    [constructor |].
  cbn [loop].
  destruct (loop_body cfg index st model_name) as [[[] | e] st'] eqn:Hbody;
    [| discriminate].
  intros Hloop. constructor; [| eapply IH, Hloop].
  pose proof (MatcherProofs.loop_grows cfg index rest st') as Hgrow.
  rewrite Hloop in Hgrow. cbn [snd] in Hgrow.
  eapply settled_grows; [exact Hgrow |]. eapply settled_turn, Hbody.
Qed.

Lemma settled_same_fs cfg index (w w' : world) model_name :
  fs w' = fs w -> settled cfg index w model_name -> settled cfg index w' model_name.
Proof.
  intros Hfs Hset best rest Hs. specialize (Hset best rest Hs).
  unfold path_exists in *. now rewrite Hfs.
Qed.

Lemma loop_settled cfg index model_names st :
  index <> [] ->
  Forall (settled cfg index (the_world st)) model_names ->
  exists st2,
    loop cfg index model_names st = (Ok tt, st2) /\
    fs (the_world st2) = fs (the_world st) /\
    writes (the_world st2) = writes (the_world st) /\
    exists rows,
      report_rows st2 = report_rows st ++ rows /\
      length rows = length model_names /\
      Forall (fun r => Action r <> COPIED) rows.
Proof.
  intros Hne. revert st.
  induction model_names as [| model_name rest IH]; intros st Hall.
  - exists st. split; [reflexivity |]. split; [reflexivity |].
    split; [reflexivity |]. exists []. rewrite app_nil_r. auto.
  - apply Forall_cons in Hall as [Hset Hall].
    assert (Hc : score_all index model_name <> []).
    { unfold score_all. destruct index; [contradiction | discriminate]. }
    destruct (MatcherProofs.sort_desc_nonempty _ Hc) as ([[bp bn] bs] & others & Hs).
    pose proof (MatcherProofs.loop_body_inv cfg index st model_name bp bn bs
                  others Hs) as Hinv.
    specialize (Hset _ _ Hs). cbn [key fst snd] in Hset.
    cbn zeta in Hinv. cbn [loop].
    destruct (loop_body cfg index st model_name) as [[[] | e] st'].
    + destruct Hinv as (Hrows & _ & _ & Hkeep & _).
      destruct (Hkeep Hset) as [Hfs Hwr].
      destruct (IH st') as (st2 & Hloop & Hfs2 & Hwr2 & rows & Hrows2 & Hlen & Hno).
      { eapply List.Forall_impl; [| exact Hall].
        intros n. now apply settled_same_fs. }
      exists st2. split; [exact Hloop |].
      split; [congruence |]. split; [congruence |].
      eexists (_ :: rows). rewrite Hrows2, Hrows, <- app_assoc.
      split; [reflexivity |]. split; [cbn; lia |].
      constructor; [exact Hset | exact Hno].
    + destruct Hinv as (Habs & _). contradiction.
Qed.

(** A loop of the resolver that ran to its end has settled every name:
    running it again over the same names and the same image index ends
    too, changes nothing in the file system, asks no write, and reports
    no COPIED. *)
Theorem rerun_changes_nothing cfg index model_names st st1 :
  index <> [] ->
  loop cfg index model_names st = (Ok tt, st1) ->
  exists st2 rows,
    loop cfg index model_names st1 = (Ok tt, st2) /\
    fs (the_world st2) = fs (the_world st1) /\
    writes (the_world st2) = writes (the_world st1) /\
    report_rows st2 = report_rows st1 ++ rows /\
    length rows = length model_names /\
    Forall (fun r => Action r <> COPIED) rows.
Proof.
  intros Hne Hloop.
  destruct (loop_settled cfg index model_names st1 Hne
              (settled_after_loop _ _ _ _ _ Hloop))
    as (st2 & Hloop2 & Hfs & Hwr & rows & Hrows & Hlen & Hno).
  exists st2, rows. auto 10.
Qed.

End Resolver.

(** ** The whole run *)

Section Main.
Context {fuzz : Fuzz} {host : Host}.

Lemma count_action_snoc (a : action) (rows : list report_row) (row : report_row) :
  count_action a (rows ++ [row])
  = (count_action a rows + if bool_decide (Action row = a) then 1 else 0)%nat.
Proof.
  unfold count_action. rewrite List.filter_app, length_app. cbn.
  now destruct (bool_decide (Action row = a)).
Qed.

Lemma count_action_total (rows : list report_row) :
  (count_action COPIED rows + count_action DRY_RUN_COPY rows
   + count_action SKIPPED_EXISTS rows + count_action ALREADY_CORRECT rows
   + count_action NO_MATCH rows = length rows)%nat.
Proof.
  unfold count_action. induction rows as [| r rows IH]; [reflexivity |].
  cbn [List.filter].
  destruct (Action r);
    repeat first [ rewrite bool_decide_eq_true_2 by reflexivity
                 | rewrite bool_decide_eq_false_2 by discriminate ];
    cbn [length]; lia.
Qed.

Lemma loop_body_accounted cfg index st model_name st' :
  loop_body cfg index st model_name = (Ok tt, st') ->
  accounted st ->
  accounted st' /\
  map Model_Name (report_rows st') = map Model_Name (report_rows st) ++ [model_name].
Proof.
  intros Hbody (Hc & Hs & Ha & Hn).
  destruct (sort_desc (score_all index model_name))
    as [| [[bp bn] bs] rest] eqn:Hsort.
  { unfold loop_body in Hbody. rewrite Hsort in Hbody. discriminate. }
  pose proof (MatcherProofs.loop_body_inv cfg index st model_name bp bn bs rest
                Hsort) as Hinv.
  cbn zeta in Hinv. rewrite Hbody in Hinv.
  destruct Hinv as (Hrows & Hcounts & _).
  split.
  - unfold accounted. rewrite Hrows, Hcounts, !count_action_snoc.
    cbn [Action].
    destruct (spec_decision _ _ _ _ _);
      cbn [tally_for copied skipped already_exists no_match];
      repeat first [ rewrite bool_decide_eq_true_2 by reflexivity
                   | rewrite bool_decide_eq_false_2 by discriminate ];
      repeat split; lia.
  - rewrite Hrows, map_app. reflexivity.
Qed.

Lemma loop_accounted cfg index model_names st st' :
  loop cfg index model_names st = (Ok tt, st') ->
  accounted st ->
  accounted st' /\
  map Model_Name (report_rows st') = map Model_Name (report_rows st) ++ model_names.
Proof.
  revert st. induction model_names as [| model_name rest IH]; intros st.
  - intros [= <-] Hacc. now rewrite app_nil_r.
  - cbn [loop].
    destruct (loop_body cfg index st model_name) as [[[] | e] st1] eqn:Hbody;
      [| discriminate].
    intros Hloop Hacc.
    destruct (loop_body_accounted _ _ _ _ _ Hbody Hacc) as [Hacc1 Hnames1].
    destruct (IH st1 Hloop Hacc1) as [Hacc' Hnames'].
    split; [exact Hacc' |]. rewrite Hnames', Hnames1, <- app_assoc. reflexivity.
Qed.


Lemma mkdir_effect (p : Path) (w : world) :
  stdout (snd (mkdir p w)) = stdout w /\
  (forall q n, fs w !! q = Some n -> fs (snd (mkdir p w)) !! q = Some n) /\
  ((fs (snd (mkdir p w)) = fs w /\ writes (snd (mkdir p w)) = writes w) \/
   (fs w !! resolve p = None /\
    fs (snd (mkdir p w)) = <[resolve p := Directory]> (fs w) /\
    writes (snd (mkdir p w)) = writes w ++ [Mkdir p])).
Proof.
  unfold mkdir. destruct (fs w !! resolve p) as [[data |] |] eqn:E; cbn; auto.
  split; [reflexivity |]. split; [| right; auto].
  intros q n Hq. rewrite lookup_insert_ne; [exact Hq | congruence].
Qed.

Lemma is_directory_dec (o : option node) :
  {o = Some Directory} + {o <> Some Directory}.
Proof. destruct o as [[d |] |]; [right | left | right]; congruence. Qed.


(** [main] up to the report: with the sheet and the image folder in
    place, names in the sheet and images in the folder, the loop runs to
    its end, and the run ends normally with the report written, unless
    the report path is a directory, on which [open] raises. *)
Lemma main_full cfg w cells :
  path_exists w [EXCEL_FILE cfg] = true ->
  path_exists w [IMAGE_DIR cfg] = true ->
  (forall data, fs w !! resolve [OUTPUT_DIR cfg] <> Some (File data)) ->
  read_excel [EXCEL_FILE cfg] = Some cells ->
  image_files cfg (snd (mkdir [OUTPUT_DIR cfg] w)) <> [] ->
  exists st0 st1,
    report_rows st0 = [] /\ counts st0 = no_counts /\
    fs (the_world st0) = fs (snd (mkdir [OUTPUT_DIR cfg] w)) /\
    writes (the_world st0) = writes (snd (mkdir [OUTPUT_DIR cfg] w)) /\
    loop cfg (image_index (image_files cfg (snd (mkdir [OUTPUT_DIR cfg] w))))
         (unique cells) st0 = (Ok tt, st1) /\
    length (report_rows st1) = length (unique cells) /\
    (fs (the_world st1) !! resolve [REPORT_FILE cfg] = Some Directory ->
     exists w_end,
       main cfg w = (Raise "IsADirectoryError"%string,
                     {| the_world := w_end; counts := counts st1;
                        report_rows := report_rows st1 |}) /\
       fs w_end = fs (the_world st1) /\
       writes w_end = writes (the_world st1)) /\
    (fs (the_world st1) !! resolve [REPORT_FILE cfg] <> Some Directory ->
     (unique cells = [] ->
      exists w_end,
        main cfg w = (Raise "IndexError"%string,
                      {| the_world := w_end; counts := counts st1;
                         report_rows := [] |}) /\
        fs w_end = <[resolve [REPORT_FILE cfg] := File []]> (fs (the_world st1)) /\
        writes w_end = writes (the_world st1) ++ [Truncate [REPORT_FILE cfg]]) /\
     (unique cells <> [] ->
      exists w_end,
        main cfg w = (Ok tt, {| the_world := w_end; counts := counts st1;
                                report_rows := report_rows st1 |}) /\
        fs w_end
        = <[resolve [REPORT_FILE cfg] := File (csv_bytes (report_rows st1))]>
            (<[resolve [REPORT_FILE cfg] := File []]> (fs (the_world st1))) /\
        writes w_end
        = writes (the_world st1)
          ++ [Truncate [REPORT_FILE cfg];
              WriteReport [REPORT_FILE cfg] (report_rows st1)])).
Proof.
  intros Hexcel Hdir Hout Hread Hfiles. unfold main.
  rewrite Hexcel, Hdir. cbn [negb].
  assert (Hmk : fst (mkdir [OUTPUT_DIR cfg] w) = Ok tt).
  { unfold mkdir. pose proof Hout as Hout'.
    destruct (fs w !! resolve [OUTPUT_DIR cfg]) as [[data |] |];
      [now contradiction (Hout' data) | reflexivity | reflexivity]. }
  destruct (mkdir [OUTPUT_DIR cfg] w) as [r w1]. cbn [fst snd] in *. subst r.
  rewrite Hread.
  set (w2 := print (Loaded _ _) w1).
  change (list_dir w2 [IMAGE_DIR cfg]) with (list_dir w1 [IMAGE_DIR cfg]).
  change (image_files cfg w2) with (image_files cfg w1).
  destruct (list_dir w1 [IMAGE_DIR cfg]) as [entries | e] eqn:El.
  2:{ exfalso. apply Hfiles. unfold image_files. now rewrite El. }
  destruct (image_files cfg w1) as [| f files] eqn:Ef; [contradiction |].
  set (st0 := {| the_world := print (Found _ _) w2; counts := no_counts;
                 report_rows := [] |}).
  destruct (MatcherProofs.loop_total cfg (image_index (f :: files))
              (unique cells) st0) as (st1 & Hloop & Hlen).
  { discriminate. }
  { intros g Hg. rewrite MatcherProofs.image_index_paths, <- Ef in Hg.
    apply MatcherProofs.image_files_are_files in Hg. exact Hg. }
  rewrite Hloop. cbn [report_rows length Nat.add] in Hlen.
  exists st0, st1.
  split; [reflexivity |]. split; [reflexivity |].
  split; [reflexivity |]. split; [reflexivity |].
  split; [exact Hloop |]. split; [exact Hlen |].
  unfold open_w. split.
  - intros Hrep.
    destruct (DRY_RUN cfg); cbn [print fs]; rewrite Hrep;
      eexists; (split; [reflexivity |]); split; reflexivity.
  - intros Hrep.
    assert (Hopen : forall w3,
              fs w3 = fs (the_world st1) ->
              match fs w3 !! resolve [REPORT_FILE cfg] with
              | Some Directory => (Raise "IsADirectoryError"%string, w3)
              | _ => (Ok tt, {| fs := <[resolve [REPORT_FILE cfg] := File []]> (fs w3);
                                writes := writes w3 ++ [Truncate [REPORT_FILE cfg]];
                                stdout := stdout w3 |})
              end
              = (Ok tt, {| fs := <[resolve [REPORT_FILE cfg] := File []]> (fs w3);
                           writes := writes w3 ++ [Truncate [REPORT_FILE cfg]];
                           stdout := stdout w3 |})).
    { intros w3 Hw3. rewrite Hw3.
      destruct (fs (the_world st1) !! resolve [REPORT_FILE cfg]) as [[d |] |];
        [reflexivity | contradiction | reflexivity]. }
    rewrite Hopen by (destruct (DRY_RUN cfg); reflexivity).
    split.
    + intros Hnames. rewrite Hnames in Hlen.
      destruct (report_rows st1) as [| row rows]; [| discriminate].
      eexists. split; [reflexivity |].
      destruct (DRY_RUN cfg); split; reflexivity.
    + intros Hnames.
      destruct (report_rows st1) as [| row rows] eqn:Er.
      { destruct (unique cells); [contradiction | discriminate]. }
      eexists. split; [reflexivity |]. split.
      * destruct (0 <? no_match (counts st1))%nat, (DRY_RUN cfg); reflexivity.
      * destruct (0 <? no_match (counts st1))%nat, (DRY_RUN cfg); cbn;
          now rewrite <- app_assoc.
Qed.



(** After a complete run the counters of the summary agree with the
    report: each counts the rows of its action, COPIED and DRY_RUN_COPY
    sharing one, and together they count every model name once. *)
Theorem main_summary_matches_report cfg w cells :
  path_exists w [EXCEL_FILE cfg] = true ->
  path_exists w [IMAGE_DIR cfg] = true ->
  (forall data, fs w !! resolve [OUTPUT_DIR cfg] <> Some (File data)) ->
  read_excel [EXCEL_FILE cfg] = Some cells ->
  unique cells <> [] ->
  image_files cfg (snd (mkdir [OUTPUT_DIR cfg] w)) <> [] ->
  let st := snd (main cfg w) in
  accounted st /\
  (copied (counts st) + already_exists (counts st) + skipped (counts st)
   + no_match (counts st) = length (unique cells))%nat.
Proof.
  intros Hexcel Hdir Hout Hread Hnames Hfiles.
  destruct (main_full cfg w cells Hexcel Hdir Hout Hread Hfiles)
    as (st0 & st1 & Hr0 & Hc0 & _ & _ & Hloop & _ & Hisdir & Hnodir).
  assert (Hacc0 : accounted st0).
  { unfold accounted. rewrite Hr0, Hc0. cbn. auto. }
  destruct (loop_accounted _ _ _ _ _ Hloop Hacc0) as [Hacc Hrows].
  rewrite Hr0 in Hrows. cbn [map app] in Hrows.
  assert (Hmain : exists w_end,
            snd (main cfg w) = {| the_world := w_end; counts := counts st1;
                                  report_rows := report_rows st1 |}).
  { destruct (is_directory_dec
                (fs (the_world st1) !! resolve [REPORT_FILE cfg])) as [Hd | Hd].
    - destruct (Hisdir Hd) as (w_end & -> & _). eauto.
    - destruct (Hnodir Hd) as [_ Hok].
      destruct (Hok Hnames) as (w_end & -> & _). eauto. }
  destruct Hmain as [w_end Hmain].
  cbn zeta. rewrite Hmain. split; [exact Hacc |]. cbn [counts].
  destruct Hacc as (Hc & Hs & Ha & Hn).
  pose proof (count_action_total (report_rows st1)) as Htotal.
  rewrite <- Hrows, length_map. lia.
Qed.

(** [main] stops before the loop, with no row and no report.  When the
    sheet or the image folder is missing it prints one line and writes
    nothing; when the output folder is a file, [mkdir] raises.  Past
    that, the output folder has been made and that is all it wrote: it
    returns when the sheet has no [Name] column, the call of [iterdir]
    raises NotADirectoryError when the image folder is a file, the line
    on the names of the sheet being printed by then, and it returns when
    the image folder is a directory without an image. *)
Theorem main_stops_early cfg w :
  let st := snd (main cfg w) in
  let made := snd (mkdir [OUTPUT_DIR cfg] w) in
  (path_exists w [EXCEL_FILE cfg] = false \/
   path_exists w [IMAGE_DIR cfg] = false ->
   fst (main cfg w) = Ok tt /\ report_rows st = [] /\
   fs (the_world st) = fs w /\ writes (the_world st) = writes w /\
   length (stdout (the_world st)) = S (length (stdout w))) /\
  (path_exists w [EXCEL_FILE cfg] = true ->
   path_exists w [IMAGE_DIR cfg] = true ->
   (exists data, fs w !! resolve [OUTPUT_DIR cfg] = Some (File data)) ->
   fst (main cfg w) = Raise "FileExistsError"%string /\
   report_rows st = [] /\ the_world st = w) /\
  (path_exists w [EXCEL_FILE cfg] = true ->
   path_exists w [IMAGE_DIR cfg] = true ->
   (forall data, fs w !! resolve [OUTPUT_DIR cfg] <> Some (File data)) ->
   read_excel [EXCEL_FILE cfg] = None \/ image_files cfg made = [] ->
   report_rows st = [] /\
   fs (the_world st) = fs made /\ writes (the_world st) = writes made /\
   (writes made = writes w \/
    writes made = writes w ++ [Mkdir [OUTPUT_DIR cfg]])) /\
  (path_exists w [EXCEL_FILE cfg] = true ->
   path_exists w [IMAGE_DIR cfg] = true ->
   (forall data, fs w !! resolve [OUTPUT_DIR cfg] <> Some (File data)) ->
   (read_excel [EXCEL_FILE cfg] = None ->
    fst (main cfg w) = Ok tt /\
    stdout (the_world st) = stdout w ++ [NoNameColumn]) /\
   (forall cells data,
      read_excel [EXCEL_FILE cfg] = Some cells ->
      fs made !! resolve [IMAGE_DIR cfg] = Some (File data) ->
      fst (main cfg w) = Raise "NotADirectoryError"%string /\
      stdout (the_world st)
      = stdout w ++ [Loaded (length (unique cells))
                            (path_name [EXCEL_FILE cfg])]) /\
   (forall cells,
      read_excel [EXCEL_FILE cfg] = Some cells ->
      fs made !! resolve [IMAGE_DIR cfg] = Some Directory ->
      image_files cfg made = [] ->
      fst (main cfg w) = Ok tt /\
      stdout (the_world st)
      = stdout w ++ [Loaded (length (unique cells))
                            (path_name [EXCEL_FILE cfg]);
                     Found 0 (resolve [IMAGE_DIR cfg]);
                     NoImages])).
Proof.
  intros st made. subst st. split; [| split; [| split]].
  - intros Hmiss. unfold main.
    destruct (path_exists w [EXCEL_FILE cfg]); cbn [negb].
    + destruct Hmiss as [Hm | Hm]; [discriminate |]. rewrite Hm. cbn.
      rewrite length_app. cbn. repeat split; auto; lia.
    + cbn. rewrite length_app. cbn. repeat split; auto; lia.
  - intros Hexcel Hdir [data Hfile]. unfold main.
    rewrite Hexcel, Hdir. cbn [negb]. unfold mkdir. rewrite Hfile. cbn. auto.
  - intros Hexcel Hdir Hout Hstop. unfold main.
    rewrite Hexcel, Hdir. cbn [negb].
    assert (Hmk : fst (mkdir [OUTPUT_DIR cfg] w) = Ok tt).
    { unfold mkdir. pose proof Hout as Hout'.
      destruct (fs w !! resolve [OUTPUT_DIR cfg]) as [[data |] |];
        [now contradiction (Hout' data) | reflexivity | reflexivity]. }
    destruct (mkdir_effect [OUTPUT_DIR cfg] w) as (_ & _ & Heff).
    fold made in Heff.
    assert (Hwr : writes made = writes w \/
                  writes made = writes w ++ [Mkdir [OUTPUT_DIR cfg]]).
    { destruct Heff as [[_ ?] | (_ & _ & ?)]; auto. }
    subst made.
    destruct (mkdir [OUTPUT_DIR cfg] w) as [r w1]. cbn [fst snd] in *. subst r.
    destruct (read_excel [EXCEL_FILE cfg]) as [cells |]; [| cbn; auto].
    destruct Hstop as [Hstop | Hstop]; [discriminate |].
    set (w2 := print (Loaded _ _) w1).
    change (list_dir w2 [IMAGE_DIR cfg]) with (list_dir w1 [IMAGE_DIR cfg]).
    change (image_files cfg w2) with (image_files cfg w1).
    rewrite Hstop. destruct (list_dir w1 [IMAGE_DIR cfg]); cbn; auto.
  - intros Hexcel Hdir Hout. unfold main.
    rewrite Hexcel, Hdir. cbn [negb].
    assert (Hmk : fst (mkdir [OUTPUT_DIR cfg] w) = Ok tt).
    { unfold mkdir. pose proof Hout as Hout'.
      destruct (fs w !! resolve [OUTPUT_DIR cfg]) as [[data |] |];
        [now contradiction (Hout' data) | reflexivity | reflexivity]. }
    destruct (mkdir_effect [OUTPUT_DIR cfg] w) as (Hstdout & _ & _).
    fold made in Hstdout. subst made.
    destruct (mkdir [OUTPUT_DIR cfg] w) as [r w1]. cbn [fst snd] in *. subst r.
    split; [| split].
    + intros ->. cbn. now rewrite Hstdout.
    + intros cells data -> Hfile.
      set (w2 := print (Loaded _ _) w1).
      change (list_dir w2 [IMAGE_DIR cfg]) with (list_dir w1 [IMAGE_DIR cfg]).
      unfold list_dir. rewrite Hfile. cbn. now rewrite Hstdout.
    + intros cells -> Hisdir Hnone.
      set (w2 := print (Loaded _ _) w1).
      change (list_dir w2 [IMAGE_DIR cfg]) with (list_dir w1 [IMAGE_DIR cfg]).
      change (image_files cfg w2) with (image_files cfg w1).
      unfold list_dir. rewrite Hisdir, Hnone. cbn.
      rewrite Hstdout, <- !app_assoc. auto.
Qed.


Lemma loop_ops cfg index model_names st :
  Forall (fun op =>
            In op (writes (the_world st)) \/
            (DRY_RUN cfg = false /\
             exists src model_name, op = Copy src (target_of cfg model_name)))
         (writes (the_world (snd (loop cfg index model_names st)))).
Proof.
  destruct (DRY_RUN cfg) eqn:Hdry.
  - destruct (MatcherProofs.preview_loop_writes_nothing cfg index model_names st
                Hdry) as [_ Hwr].
    rewrite Hwr. apply List.Forall_forall. auto.
  - destruct (MatcherProofs.loop_grows cfg index model_names st)
      as (_ & copies & Hwr & Hall & _).
    rewrite Hwr. apply Forall_app. split.
    + apply List.Forall_forall. auto.
    + apply List.Forall_map. eapply List.Forall_impl; [| exact Hall].
      intros [src dst] (name & _ & Hdst). cbn in *. subst dst.
      right. split; [reflexivity |]. eauto.
Qed.

(** Everything [main] asks of the file system is one of: making the
    output folder, copying an image onto the target path of a model
    name, and writing the report file; and it asks for no copy at all in
    preview mode. *)
Theorem main_only_writes cfg w :
  Forall (fun op =>
            In op (writes w) \/
            op = Mkdir [OUTPUT_DIR cfg] \/
            op = Truncate [REPORT_FILE cfg] \/
            (exists rows, op = WriteReport [REPORT_FILE cfg] rows) \/
            (DRY_RUN cfg = false /\
             exists src model_name, op = Copy src (target_of cfg model_name)))
         (writes (the_world (snd (main cfg w)))).
Proof.
  set (ok := fun op : write_op => _).
  assert (Hw : Forall ok (writes w)).
  { apply List.Forall_forall. intros op Hop. now left. }
  unfold main.
  destruct (path_exists w [EXCEL_FILE cfg]); cbn [negb]; [| exact Hw].
  destruct (path_exists w [IMAGE_DIR cfg]); cbn [negb]; [| exact Hw].
  assert (Hmade : Forall ok (writes (snd (mkdir [OUTPUT_DIR cfg] w)))).
  { destruct (mkdir_effect [OUTPUT_DIR cfg] w) as (_ & _ & [[_ E] | (_ & _ & E)]);
      rewrite E; [exact Hw |].
    apply Forall_app. split; [exact Hw |].
    constructor; [| constructor]. right. now left. }
  destruct (mkdir [OUTPUT_DIR cfg] w) as [[[] | e] w1]; cbn [snd] in Hmade;
    [| exact Hmade].
  destruct (read_excel [EXCEL_FILE cfg]) as [cells |]; [| exact Hmade].
  set (w2 := print (Loaded _ _) w1).
  destruct (list_dir w2 [IMAGE_DIR cfg]) as [entries | e]; [| exact Hmade].
  destruct (image_files cfg w2) as [| f files]; [exact Hmade |].
  set (st0 := {| the_world := print (Found _ _) w2; counts := no_counts;
                 report_rows := [] |}).
  pose proof (loop_ops cfg (image_index (f :: files)) (unique cells) st0) as Hloop.
  assert (Hst1 : Forall ok (writes (the_world
                   (snd (loop cfg (image_index (f :: files)) (unique cells) st0))))).
  { eapply List.Forall_impl; [| exact Hloop]. intros op [Hop | Hop].
    - rewrite List.Forall_forall in Hmade. apply Hmade. exact Hop.
    - right. right. right. right. exact Hop. }
  destruct (loop cfg (image_index (f :: files)) (unique cells) st0)
    as [[[] | e] st1]; cbn [snd] in Hst1; [| exact Hst1].
  assert (Htrunc : ok (Truncate [REPORT_FILE cfg])) by (right; right; now left).
  unfold open_w.
  assert (Hsame : forall l, fs (print l (the_world st1)) = fs (the_world st1))
    by reflexivity.
  destruct (fs (the_world st1) !! resolve [REPORT_FILE cfg]) as [[d |] |] eqn:Er;
    destruct (DRY_RUN cfg); cbn [print fs]; rewrite Er; cbn [snd the_world];
    try exact Hst1;
    (destruct (report_rows st1) as [| row rows]; cbn [snd the_world];
     [cbn; apply Forall_app; split; auto |
      assert (Hrep : ok (WriteReport [REPORT_FILE cfg] (row :: rows)))
        by (right; right; right; left; eauto);
      destruct (0 <? no_match (counts st1))%nat; cbn;
      repeat (apply Forall_app; split); auto]).
Qed.

End Main.

(** ** The sample run, again *)

Section Sample.
#[local] Existing Instance exact_fuzz.

Lemma normalise_shape_witness :
  normalise "KNIGHT_02.PNG" = normalise "Knight_02.png".
Proof.
  apply (normalise_shape "KNIGHT_02.PNG"). reflexivity.
Defined.

Lemma exact_match_is_found_witness :
  exists row,
    report_rows (snd (@loop_body exact_fuzz sample_host source_config
                        sample_index sample_run "Iron Fang Pathfinder 01"))
    = [row] /\ Score row = 100 /\ Action row <> NO_MATCH.
Proof.
  apply (exact_match_is_found (host := sample_host) source_config sample_index
           sample_run "Iron Fang Pathfinder 01" _
           ["ModelArtOld"; "iron_fang_pathfinder.jpg"]%string).
  - exact MatcherProofs.exact_fuzz_in_range.
  - intros a. cbn. now rewrite String.eqb_refl.
  - left. reflexivity.
  - cbn. lia.
  - vm_compute. reflexivity.
Defined.

Lemma top_3_candidates_witness :
  exists row,
    report_rows (snd (@loop_body exact_fuzz sample_host source_config
                        sample_index sample_run "Knight")) = [row] /\
    Top_3_Candidates row
    = [("Knight_02.png"%string, 100); ("iron_fang_pathfinder.jpg"%string, 0)].
Proof.
  destruct (top_3_candidates (host := sample_host) source_config sample_index
              sample_run "Knight"
              (snd (@loop_body exact_fuzz sample_host source_config
                      sample_index sample_run "Knight")))
    as (row & Hrows & Htop & _);
    [vm_compute; reflexivity |].
  exists row. split; [exact Hrows |]. rewrite Htop. vm_compute. reflexivity.
Defined.

Lemma repeated_turn_skips_witness :
  let st1 := snd (@loop_body exact_fuzz sample_host source_config sample_index
                    sample_run "Knight") in
  exists st2 row2,
    @loop_body exact_fuzz sample_host source_config sample_index st1 "Knight"
    = (Ok tt, st2) /\
    Action row2 = SKIPPED_EXISTS /\
    fs (the_world st2) = fs (the_world st1).
Proof.
  intros st1.
  pose (row := {| Model_Name := "Knight"; Action := COPIED;
                  Source_File := "Knight_02.png"; Target_File := "Knight.png";
                  Score := 100;
                  Top_3_Candidates := [("Knight_02.png"%string, 100);
                                       ("iron_fang_pathfinder.jpg"%string, 0)];
                  Message := CopyArrow "Knight_02.png" "Knight.png" 100 |}).
  destruct (repeated_turn_skips (host := sample_host) source_config sample_index
              sample_run "Knight" st1 row)
    as (st2 & row2 & Hbody & _ & Hact & _ & _ & Hfs & _);
    [vm_compute; reflexivity | vm_compute; reflexivity | reflexivity |].
  exists st2, row2. auto.
Defined.

Lemma rerun_changes_nothing_witness :
  let names := ["Iron Fang Pathfinder 01"; "Knight"; "Dragon"]%string in
  let st1 := snd (@loop exact_fuzz sample_host source_config sample_index
                    names sample_run) in
  exists st2,
    @loop exact_fuzz sample_host source_config sample_index names st1
    = (Ok tt, st2) /\
    writes (the_world st2) = writes (the_world st1).
Proof.
  intros names st1.
  destruct (rerun_changes_nothing (host := sample_host) source_config
              sample_index names sample_run st1)
    as (st2 & rows & Hloop & _ & Hwr & _);
    [apply MatcherProofs.sample_index_nonempty | vm_compute; reflexivity |].
  exists st2. auto.
Defined.

Lemma sample_run_conditions :
  @path_exists sample_host sample_world [EXCEL_FILE source_config] = true /\
  @path_exists sample_host sample_world [IMAGE_DIR source_config] = true /\
  (forall data, fs sample_world !! @resolve sample_host [OUTPUT_DIR source_config]
                <> Some (File data)) /\
  @read_excel sample_host [EXCEL_FILE source_config] = Some sample_cells /\
  @unique sample_cells <> [] /\
  @image_files sample_host source_config
    (snd (@mkdir sample_host [OUTPUT_DIR source_config] sample_world)) <> [].
Proof.
  split; [vm_compute; reflexivity |]. split; [vm_compute; reflexivity |].
  split; [intros data; vm_compute; discriminate |].
  split; [reflexivity |]. split; vm_compute; discriminate.
Qed.


Lemma main_summary_matches_report_witness :
  let st := snd (@main exact_fuzz sample_host source_config sample_world) in
  (copied (counts st) + already_exists (counts st) + skipped (counts st)
   + no_match (counts st) = 3)%nat.
Proof.
  destruct sample_run_conditions as (H1 & H2 & H3 & H4 & H5 & H6).
  destruct (main_summary_matches_report (host := sample_host) source_config
              sample_world sample_cells H1 H2 H3 H4 H5 H6) as [_ Hsum].
  exact Hsum.
Defined.

(** On an empty file system [main] stops at the missing sheet and
    writes nothing.  With a regular file where the image folder
    should be, it makes the output folder, prints the line on the names
    and raises in [iterdir]. *)
Lemma main_stops_early_witness :
  let w := {| fs := ∅; writes := []; stdout := [] |} in
  let st := snd (@main exact_fuzz sample_host source_config w) in
  let w_file :=
    {| fs := <[ ["warmachine_units.xlsx"%string] := File [] ]>
             (<[ ["ModelArtOld"%string] := File [] ]> ∅);
       writes := []; stdout := [] |} in
  (report_rows st = [] /\ writes (the_world st) = []) /\
  fst (@main exact_fuzz sample_host source_config w_file)
  = Raise "NotADirectoryError"%string /\
  writes (the_world (snd (@main exact_fuzz sample_host source_config w_file)))
  = [Mkdir ["ModelArt"%string]] /\
  stdout (the_world (snd (@main exact_fuzz sample_host source_config w_file)))
  = [Loaded 3 "warmachine_units.xlsx"].
Proof.
  intros w st w_file.
  destruct (main_stops_early (fuzz := exact_fuzz) (host := sample_host)
              source_config w) as (Hmiss & _).
  destruct (main_stops_early (fuzz := exact_fuzz) (host := sample_host)
              source_config w_file) as (_ & _ & Hstop & Hhow).
  split.
  { destruct Hmiss as (_ & Hrows & _ & Hwr & _); [left; reflexivity |].
    split; [exact Hrows | exact Hwr]. }
  assert (Hout : forall data,
            fs w_file !! @resolve sample_host [OUTPUT_DIR source_config]
            <> Some (File data)) by (intros data; vm_compute; discriminate).
  destruct (Hstop eq_refl eq_refl Hout) as (_ & _ & Hwr & _).
  { right. vm_compute. reflexivity. }
  destruct (Hhow eq_refl eq_refl Hout) as (_ & Hfile & _).
  destruct (Hfile sample_cells [] eq_refl) as [Hraise Hlines].
  { vm_compute. reflexivity. }
  split; [exact Hraise |]. split.
  - rewrite Hwr. vm_compute. reflexivity.
  - rewrite Hlines. vm_compute. reflexivity.
Defined.


End Sample.

End MatcherMore.
